(** * LuaContext: a managed embedding of a Lua interpreter

    Shallow embedding of [src/src/context.cpp] (class [fawkes::LuaContext])
    and of the watcher interface of [src/include/lua_utils/context_watcher.h].

    The Lua C API, tolua++ and the operating system are outside the
    repository.  The part of them the context relies on is modelled in
    [Module Lua]: an interpreter state is a table of globals and a value
    stack, and the behaviour of Lua code (chunks, modules, script files) is
    an oracle carried by the world, so that it may change between two calls
    the way files change on disk.

    The mutex of the context is not modelled: every method runs to
    completion before the next one starts. *)

From Stdlib Require Import ZArith String Ascii List Lia.
From stdpp Require Import base option list gmap strings fin_maps.

Open Scope Z_scope.

(** ** C scalar types *)

(** [lua_State *]: interpreter states are named by the order of creation. *)
Definition handle := nat.
(** [void *]; the null pointer is 0. *)
Definition ptr := Z.
(** [lua_CFunction], a function pointer. *)
Definition lua_CFunction := Z.
(** [lua_Integer]. *)
Definition lua_Integer := Z.
(** [lua_Number] is a C double.  The context only stores and forwards it, so
    it is carried as its IEEE-754 bit pattern. *)
Definition lua_Number := Z.

(** The double quote character, which the format strings of the context
    write escaped. *)
Definition dquote : string := String (ascii_of_nat 34) EmptyString.

(** ** Exceptions

    Every [throw] of the sources raises an object of class [Exception] or of
    one of its two subclasses declared in [exceptions.h], and the handlers of
    [restart] and of the destructor name [Exception]; [exn] is that
    hierarchy. *)
Inductive exn : Type :=
| Exception (msg : string)
| LuaRuntimeException (what errmsg : string)
| LuaErrorException (what errmsg : string).

(** ** The Lua C API *)
Module Lua.

(** Status codes of [lua.h] (Lua 5.1). *)
Definition LUA_ERRRUN : Z := 2.
Definition LUA_ERRSYNTAX : Z := 3.
Definition LUA_ERRMEM : Z := 4.
Definition LUA_ERRERR : Z := 5.
Definition LUA_ERRFILE : Z := 6.

(** A compiled chunk, as [luaL_loadstring] and [luaL_loadfile] leave it on
    the stack. *)
Inductive chunk : Type :=
| ChunkString (src : string)
| ChunkFile (filename : string).

Inductive value : Type :=
| VNil
| VBoolean (b : bool)
| VNumber (x : lua_Number)
| VInteger (n : lua_Integer)         (* the number [lua_pushinteger] pushes *)
| VString (s : string)
| VCFunction (f : lua_CFunction)
| VUsertype (data : ptr) (type_name : string)  (* tolua++ boxed pointer *)
| VLib (path : string)               (* a table or function of the standard library *)
| VFunction (c : chunk)
| VOther (id : nat).                 (* any other value a script creates *)

(** The Lua-visible part of an interpreter state.  A global that is absent
    from [globals] is nil; the stack is kept bottom first, so that stack
    index 1 is position 0 of the list. *)
Record lua_State : Type := mkState {
  globals : gmap string value;
  stack : list value
}.

Definition set_stack (st : list value) (L : lua_State) : lua_State :=
  mkState (globals L) st.
Definition set_globals (g : gmap string value) (L : lua_State) : lua_State :=
  mkState g (stack L).

(** What [luaL_newstate] returns. *)
Definition empty_state : lua_State := mkState ∅ [].

(** The global names [luaL_openlibs] defines. *)
Definition stdlib_names : list string :=
  ["_G"; "_VERSION"; "assert"; "collectgarbage"; "dofile"; "error";
   "gcinfo"; "getfenv"; "getmetatable"; "ipairs"; "load"; "loadfile";
   "loadstring"; "module"; "newproxy"; "next"; "pairs"; "pcall"; "print";
   "rawequal"; "rawget"; "rawset"; "require"; "select"; "setfenv";
   "setmetatable"; "tonumber"; "tostring"; "type"; "unpack"; "xpcall";
   "coroutine"; "debug"; "io"; "math"; "os"; "package"; "string";
   "table"]%string.

Definition luaL_openlibs (L : lua_State) : lua_State :=
  set_globals
    (foldr (fun n g => <[n := VLib n]> g) (globals L) stdlib_names) L.

Definition lua_gettop (L : lua_State) : Z := Z.of_nat (length (stack L)).

(** Position in [stack] of an acceptable index, counted from 1. *)
Definition abs_index (L : lua_State) (idx : Z) : Z :=
  if 0 <? idx then idx else lua_gettop L + idx + 1.

Definition index (L : lua_State) (idx : Z) : value :=
  let i := abs_index L idx in
  if 1 <=? i then default VNil (stack L !! Z.to_nat (i - 1)) else VNil.

Definition push (v : value) (L : lua_State) : lua_State :=
  set_stack (stack L ++ [v]) L.

(** [lua_settop]: a non-negative index is the new height, missing slots
    are filled with nil; a negative index counts from the top.  An index
    below [-(top+1)] is undefined in C and empties the stack here. *)
Definition lua_settop (idx : Z) (L : lua_State) : lua_State :=
  let top := if 0 <=? idx then idx else lua_gettop L + idx + 1 in
  set_stack (resize (Z.to_nat top) VNil (stack L)) L.

(** [#define lua_pop(L,n) lua_settop(L, -(n)-1)] *)
Definition lua_pop (n : Z) (L : lua_State) : lua_State :=
  lua_settop (- n - 1) L.

(** [lua_remove]: the element at a valid index is removed and the ones
    above shift down.  An invalid index is undefined in C and leaves the
    stack as it is here. *)
Definition lua_remove (idx : Z) (L : lua_State) : lua_State :=
  let i := abs_index L idx in
  if (1 <=? i) && (i <=? lua_gettop L)
  then set_stack (delete (Z.to_nat (i - 1)) (stack L)) L
  else L.

Definition lua_pushnil := push VNil.
Definition lua_pushboolean (b : Z) := push (VBoolean (negb (b =? 0))).
Definition lua_pushnumber (x : lua_Number) := push (VNumber x).
Definition lua_pushinteger (n : lua_Integer) := push (VInteger n).
Definition lua_pushstring (s : string) := push (VString s).
Definition lua_pushcfunction (f : lua_CFunction) := push (VCFunction f).

(** tolua++ pushes nil for the null pointer and the boxed pointer, tagged
    with its type, otherwise. *)
Definition tolua_pushusertype (data : ptr) (type_name : string) :=
  push (if data =? 0 then VNil else VUsertype data type_name).

Definition lua_getglobal (name : string) (L : lua_State) : lua_State :=
  push (default VNil (globals L !! name)) L.

(** Value of the global [name], nil when there is none. *)
Definition global (L : lua_State) (name : string) : value :=
  default VNil (globals L !! name).

(** [lua_setglobal] pops the top of the stack into the global [name];
    assigning nil removes the entry. *)
Definition lua_setglobal (name : string) (L : lua_State) : lua_State :=
  let v := index L (-1) in
  let g := match v with
           | VNil => delete name (globals L)
           | _ => <[name := v]> (globals L)
           end in
  set_globals g (lua_pop 1 L).

(** [lua_getfield]: fields are tracked for the tables of the standard
    library only; any other field reads as nil. *)
Definition lua_getfield (idx : Z) (k : string) (L : lua_State) : lua_State :=
  match index L idx with
  | VLib t => push (VLib (t +:+ "." +:+ k)) L
  | _ => push VNil L
  end.

(** [lua_tostring] on a value that is a string; the error objects of the
    model always are. *)
Definition lua_tostring (idx : Z) (L : lua_State) : string :=
  match index L idx with
  | VString s => s
  | _ => EmptyString
  end.

(** *** The interpreter and the file system

    [Env] is the behaviour of everything that lives outside the process:
    which paths [access(path, R_OK)] accepts, whether a chunk compiles,
    and what running a compiled chunk does.  A chunk called without
    arguments sees the globals, not the stack of its caller; it returns
    its results, or fails with a status and an error message after it
    changed some globals. *)
Inductive failure : Type :=
| ERRRUN | ERRSYNTAX | ERRMEM | ERRERR | ERRFILE.

Definition code (f : failure) : Z :=
  match f with
  | ERRRUN => LUA_ERRRUN
  | ERRSYNTAX => LUA_ERRSYNTAX
  | ERRMEM => LUA_ERRMEM
  | ERRERR => LUA_ERRERR
  | ERRFILE => LUA_ERRFILE
  end.

Record Env : Type := mkEnv {
  access_R_OK : string -> bool;
  load_string : string -> option (failure * string);
  load_file : string -> option (failure * string);
  call : chunk -> gmap string value ->
         option (failure * string) * gmap string value * list value
}.

(** [luaL_loadstring] and [luaL_loadfile] push the compiled chunk, or the
    error message, and return the status. *)
Definition luaL_loadstring (E : Env) (s : string) (L : lua_State)
  : Z * lua_State :=
  match load_string E s with
  | None => (0, push (VFunction (ChunkString s)) L)
  | Some (err, msg) => (code err, push (VString msg) L)
  end.

Definition luaL_loadfile (E : Env) (filename : string) (L : lua_State)
  : Z * lua_State :=
  match load_file E filename with
  | None => (0, push (VFunction (ChunkFile filename)) L)
  | Some (err, msg) => (code err, push (VString msg) L)
  end.

(** [lua_pcall(L, 0, LUA_MULTRET, errfunc)]: the function on top of the
    stack is popped and called; its results are pushed, or the error
    message is.  The message handler at [errfunc] only decorates the
    message, which is the business of the oracle. *)
Definition lua_pcall (E : Env) (errfunc : Z) (L : lua_State)
  : Z * lua_State :=
  let L0 := lua_pop 1 L in
  match index L (-1) with
  | VFunction c =>
      match call E c (globals L0) with
      | (None, g, results) => (0, mkState g (stack L0 ++ results))
      | (Some (err, msg), g, _) =>
          (code err, push (VString msg) (mkState g (stack L0)))
      end
  | _ => (LUA_ERRRUN,
          push (VString "attempt to call a non-function value") L0)
  end.

End Lua.

Import Lua.

(** ** The world a context lives in *)

(** The place in [context.cpp] a chunk is executed from.  It is recorded
    with the execution, so that the trace tells the loading of a package
    from the start script and from executions the host asks for. *)
Inductive site : Type :=
| AtPackageDir | AtCPackageDir | AtPackage | AtStartScript | AtHost.

(** What the context does to the outside, in the order it does it. *)
Inductive event : Type :=
| EvNewState (L : handle)                          (* luaL_newstate *)
| EvDoString (at_ : site) (L : handle) (s : string) (rv : Z)
| EvDoFile (L : handle) (filename : string) (err : Z)
| EvInit (watcher : nat) (L : handle)              (* lua_init *)
| EvFinalize (watcher : nat) (L : handle)          (* lua_finalize *)
| EvRestarted (watcher : nat) (L : handle)         (* lua_restarted *)
| EvClose (L : handle).                            (* lua_close *)

(** A file-system notification: a change to [fs_name] inside the directory
    [fs_dir], with the inotify mask of the change. *)
Record fs_event : Type := mkFsEvent {
  fs_dir : string;
  fs_name : string;
  fs_mask : Z
}.

Record World : Type := mkWorld {
  lua_states : gmap handle lua_State;   (* the states that are open *)
  next_state : handle;                  (* what luaL_newstate returns next *)
  os : Env;
  inotify : list fs_event;              (* notifications not yet processed *)
  trace : list event
}.

Definition set_lua_states (m : gmap handle lua_State) (w : World) : World :=
  mkWorld m (next_state w) (os w) (inotify w) (trace w).
Definition set_os (E : Env) (w : World) : World :=
  mkWorld (lua_states w) (next_state w) E (inotify w) (trace w).
Definition set_inotify (q : list fs_event) (w : World) : World :=
  mkWorld (lua_states w) (next_state w) (os w) q (trace w).
Definition log_event (e : event) (w : World) : World :=
  mkWorld (lua_states w) (next_state w) (os w) (inotify w) (trace w ++ [e]).

(** The state behind a handle.  Using a handle that is not open is
    undefined in C; it reads as the empty state here, and writes to it are
    lost. *)
Definition state_of (w : World) (L : handle) : lua_State :=
  default empty_state (lua_states w !! L).

Definition is_open (w : World) (L : handle) : Prop :=
  is_Some (lua_states w !! L).

Definition store_state (L : handle) (S : lua_State) (w : World) : World :=
  set_lua_states (alter (fun _ => S) L (lua_states w)) w.

Definition world_newstate (w : World) : handle * World :=
  let L := next_state w in
  (L, mkWorld (<[L := empty_state]> (lua_states w)) (S L) (os w) (inotify w)
              (trace w ++ [EvNewState L])).

Definition world_close (L : handle) (w : World) : World :=
  log_event (EvClose L) (set_lua_states (delete L (lua_states w)) w).

(** ** Watchers ([context_watcher.h])

    A watcher is told about the life of a context through three callbacks.
    Each receives a context and may use its interpreter state; it returns
    normally or throws.  [watcher_id] stands for the address of the
    watcher. *)
Record LuaContextWatcher : Type := mkWatcher {
  watcher_id : nat;
  lua_init : lua_State -> option exn * lua_State;
  lua_finalize : lua_State -> option exn * lua_State;
  lua_restarted : lua_State -> option exn * lua_State
}.

(** ** The file alteration monitor

    Modelled from the spec: [FileAlterationMonitor] and [FamListener]
    ([lua_utils/fam.h]) are used by the context but are not among the
    sources.  The monitor keeps the regular expressions added with
    [add_filter], the directories and files added with [watch_dir] and
    [watch_file], and its listeners; [process_events] hands a pending
    notification to the listeners when it is for a watched directory and
    the name of the changed file matches every filter.  The spec does not
    say what the monitor does for a file added with [watch_file]: such
    notifications are not modelled. *)
Module Fam.

(** Regular expressions, for the part of the POSIX syntax the filter of
    the context is written in. *)
Inductive regex : Type :=
| Void
| Eps
| Chr (c : ascii)
| NotChr (c : ascii)              (* the bracket expression [^c] *)
| AnyChr                          (* . *)
| Cat (r1 r2 : regex)
| Alt (r1 r2 : regex)
| Star (r : regex).

Fixpoint nullable (r : regex) : bool :=
  match r with
  | Void | Chr _ | NotChr _ | AnyChr => false
  | Eps | Star _ => true
  | Cat r1 r2 => nullable r1 && nullable r2
  | Alt r1 r2 => nullable r1 || nullable r2
  end.

Fixpoint deriv (a : ascii) (r : regex) : regex :=
  match r with
  | Void | Eps => Void
  | Chr c => if Ascii.eqb a c then Eps else Void
  | NotChr c => if Ascii.eqb a c then Void else Eps
  | AnyChr => Eps
  | Cat r1 r2 =>
      if nullable r1
      then Alt (Cat (deriv a r1) r2) (deriv a r2)
      else Cat (deriv a r1) r2
  | Alt r1 r2 => Alt (deriv a r1) (deriv a r2)
  | Star r1 => Cat (deriv a r1) (Star r1)
  end.

Fixpoint accepts (r : regex) (s : list ascii) : bool :=
  match s with
  | [] => nullable r
  | a :: s' => accepts (deriv a r) s'
  end.

(** One atom of the pattern and what follows it. *)
Definition atom (p : list ascii) : option (regex * list ascii) :=
  match p with
  | [] => None
  | c :: rest =>
      if Ascii.eqb c "\" then
        match rest with
        | e :: rest' => Some (Chr e, rest')
        | [] => None
        end
      else if Ascii.eqb c "[" then
        match rest with
        | h :: x :: k :: rest' =>
            if Ascii.eqb h "^" && Ascii.eqb k "]"
            then Some (NotChr x, rest') else None
        | _ => None
        end
      else if Ascii.eqb c "." then Some (AnyChr, rest)
      else Some (Chr c, rest)
  end%char.

Fixpoint atoms (fuel : nat) (p : list ascii) : option (list regex) :=
  match p with
  | [] => Some []
  | _ =>
      match fuel with
      | O => None
      | S fuel' =>
          match atom p with
          | None => None
          | Some (r, "*"%char :: rest) => cons (Star r) <$> atoms fuel' rest
          | Some (r, rest) => cons r <$> atoms fuel' rest
          end
      end
  end.

(** [regcomp]: an unanchored end of the pattern matches anything. *)
Definition regcomp (pattern : string) : option regex :=
  let p := list_ascii_of_string pattern in
  let '(front, p1) := match p with
                      | "^"%char :: p' => (Eps, p')
                      | _ => (Star AnyChr, p)
                      end in
  let '(back, p2) := match reverse p1 with
                     | "$"%char :: p' => (Eps, reverse p')
                     | _ => (Star AnyChr, p1)
                     end in
  (fun rs => Cat front (foldr Cat back rs)) <$> atoms (length p2) p2.

(** [regexec(...) != REG_NOMATCH]; a pattern that does not compile
    matches nothing. *)
Definition regexec (pattern name : string) : bool :=
  match regcomp pattern with
  | Some r => accepts r (list_ascii_of_string name)
  | None => false
  end.

Record FileAlterationMonitor : Type := mkFam {
  filters : list string;
  watched_dirs : list string;
  watched_files : list string;
  listening : bool               (* the context is a listener *)
}.

(** [new FileAlterationMonitor()] *)
Definition create : FileAlterationMonitor := mkFam [] [] [] false.
Definition add_filter (re : string) (f : FileAlterationMonitor) :=
  mkFam (filters f ++ [re]) (watched_dirs f) (watched_files f) (listening f).
Definition add_listener (f : FileAlterationMonitor) :=
  mkFam (filters f) (watched_dirs f) (watched_files f) true.
Definition watch_dir (path : string) (f : FileAlterationMonitor) :=
  mkFam (filters f) (watched_dirs f ++ [path]) (watched_files f) (listening f).
Definition watch_file (path : string) (f : FileAlterationMonitor) :=
  mkFam (filters f) (watched_dirs f) (watched_files f ++ [path]) (listening f).

(** Whether [process_events] hands the notification to the listener. *)
Definition delivers (f : FileAlterationMonitor) (e : fs_event) : bool :=
  listening f
  && bool_decide (fs_dir e ∈ watched_dirs f)
  && forallb (fun re => regexec re (fs_name e)) (filters f).

End Fam.

(** ** The context ([context.h]) *)

Record LuaContext : Type := mkLuaContext {
  __L : handle;
  __owns_L : bool;
  __enable_tracebacks : bool;
  __start_script : option string;                 (* NULL is None *)
  __package_dirs : list string;
  __cpackage_dirs : list string;
  __packages : list string;
  __usertypes : gmap string (ptr * string);
  __strings : gmap string string;
  __booleans : gmap string bool;
  __numbers : gmap string lua_Number;
  __integers : gmap string lua_Integer;
  __cfunctions : gmap string lua_CFunction;
  __fam : option Fam.FileAlterationMonitor;       (* NULL is None *)
  __watchers : list LuaContextWatcher
}.

Definition set___L (v : handle) (c : LuaContext) : LuaContext :=
  mkLuaContext v (__owns_L c) (__enable_tracebacks c) (__start_script c)
    (__package_dirs c) (__cpackage_dirs c) (__packages c) (__usertypes c)
    (__strings c) (__booleans c) (__numbers c) (__integers c)
    (__cfunctions c) (__fam c) (__watchers c).
Definition set___start_script (v : option string) (c : LuaContext) :=
  mkLuaContext (__L c) (__owns_L c) (__enable_tracebacks c) v
    (__package_dirs c) (__cpackage_dirs c) (__packages c) (__usertypes c)
    (__strings c) (__booleans c) (__numbers c) (__integers c)
    (__cfunctions c) (__fam c) (__watchers c).
Definition set___package_dirs (v : list string) (c : LuaContext) :=
  mkLuaContext (__L c) (__owns_L c) (__enable_tracebacks c) (__start_script c)
    v (__cpackage_dirs c) (__packages c) (__usertypes c)
    (__strings c) (__booleans c) (__numbers c) (__integers c)
    (__cfunctions c) (__fam c) (__watchers c).
Definition set___cpackage_dirs (v : list string) (c : LuaContext) :=
  mkLuaContext (__L c) (__owns_L c) (__enable_tracebacks c) (__start_script c)
    (__package_dirs c) v (__packages c) (__usertypes c)
    (__strings c) (__booleans c) (__numbers c) (__integers c)
    (__cfunctions c) (__fam c) (__watchers c).
Definition set___packages (v : list string) (c : LuaContext) :=
  mkLuaContext (__L c) (__owns_L c) (__enable_tracebacks c) (__start_script c)
    (__package_dirs c) (__cpackage_dirs c) v (__usertypes c)
    (__strings c) (__booleans c) (__numbers c) (__integers c)
    (__cfunctions c) (__fam c) (__watchers c).
Definition set___usertypes (v : gmap string (ptr * string)) (c : LuaContext) :=
  mkLuaContext (__L c) (__owns_L c) (__enable_tracebacks c) (__start_script c)
    (__package_dirs c) (__cpackage_dirs c) (__packages c) v
    (__strings c) (__booleans c) (__numbers c) (__integers c)
    (__cfunctions c) (__fam c) (__watchers c).
Definition set___strings (v : gmap string string) (c : LuaContext) :=
  mkLuaContext (__L c) (__owns_L c) (__enable_tracebacks c) (__start_script c)
    (__package_dirs c) (__cpackage_dirs c) (__packages c) (__usertypes c)
    v (__booleans c) (__numbers c) (__integers c)
    (__cfunctions c) (__fam c) (__watchers c).
Definition set___booleans (v : gmap string bool) (c : LuaContext) :=
  mkLuaContext (__L c) (__owns_L c) (__enable_tracebacks c) (__start_script c)
    (__package_dirs c) (__cpackage_dirs c) (__packages c) (__usertypes c)
    (__strings c) v (__numbers c) (__integers c)
    (__cfunctions c) (__fam c) (__watchers c).
Definition set___numbers (v : gmap string lua_Number) (c : LuaContext) :=
  mkLuaContext (__L c) (__owns_L c) (__enable_tracebacks c) (__start_script c)
    (__package_dirs c) (__cpackage_dirs c) (__packages c) (__usertypes c)
    (__strings c) (__booleans c) v (__integers c)
    (__cfunctions c) (__fam c) (__watchers c).
Definition set___integers (v : gmap string lua_Integer) (c : LuaContext) :=
  mkLuaContext (__L c) (__owns_L c) (__enable_tracebacks c) (__start_script c)
    (__package_dirs c) (__cpackage_dirs c) (__packages c) (__usertypes c)
    (__strings c) (__booleans c) (__numbers c) v
    (__cfunctions c) (__fam c) (__watchers c).
Definition set___cfunctions (v : gmap string lua_CFunction) (c : LuaContext) :=
  mkLuaContext (__L c) (__owns_L c) (__enable_tracebacks c) (__start_script c)
    (__package_dirs c) (__cpackage_dirs c) (__packages c) (__usertypes c)
    (__strings c) (__booleans c) (__numbers c) (__integers c)
    v (__fam c) (__watchers c).
Definition set___fam (v : option Fam.FileAlterationMonitor) (c : LuaContext) :=
  mkLuaContext (__L c) (__owns_L c) (__enable_tracebacks c) (__start_script c)
    (__package_dirs c) (__cpackage_dirs c) (__packages c) (__usertypes c)
    (__strings c) (__booleans c) (__numbers c) (__integers c)
    (__cfunctions c) v (__watchers c).
Definition set___watchers (v : list LuaContextWatcher) (c : LuaContext) :=
  mkLuaContext (__L c) (__owns_L c) (__enable_tracebacks c) (__start_script c)
    (__package_dirs c) (__cpackage_dirs c) (__packages c) (__usertypes c)
    (__strings c) (__booleans c) (__numbers c) (__integers c)
    (__cfunctions c) (__fam c) v.

(** ** Methods as computations

    A method runs on the object [this] in a world, changes both, and
    returns or throws.  What it changed before it threw stays changed. *)
Record Sys : Type := mkSys { this : LuaContext; world : World }.

Inductive outcome (A : Type) : Type :=
| Normal (a : A)
| Thrown (e : exn).
Arguments Normal {A} a.
Arguments Thrown {A} e.

Definition M (A : Type) : Type := Sys -> outcome A * Sys.

Definition ret {A} (a : A) : M A := fun s => (Normal a, s).

Definition bind {A B} (m : M A) (k : A -> M B) : M B :=
  fun s => match m s with
           | (Normal a, s') => k a s'
           | (Thrown e, s') => (Thrown e, s')
           end.

Definition throw {A} (e : exn) : M A := fun s => (Thrown e, s).

(** [try { m } catch (Exception &e) { h e }], and [catch (...)] alike. *)
Definition try_catch {A} (m : M A) (h : exn -> M A) : M A :=
  fun s => match m s with
           | (Normal a, s') => (Normal a, s')
           | (Thrown e, s') => h e s'
           end.

Definition get {A} (f : LuaContext -> A) : M A :=
  fun s => (Normal (f (this s)), s).
Definition update_this (f : LuaContext -> LuaContext) : M unit :=
  fun s => (Normal tt, mkSys (f (this s)) (world s)).
Definition update_world (f : World -> World) : M unit :=
  fun s => (Normal tt, mkSys (this s) (f (world s))).

(** A call of the Lua API on the state behind [L]. *)
Definition lua (L : handle) (f : lua_State -> lua_State) : M unit :=
  update_world (fun w => store_state L (f (state_of w L)) w).
(** The same for a call that returns something and may consult the
    interpreter. *)
Definition lua_call {A} (L : handle) (f : Env -> lua_State -> A * lua_State)
  : M A :=
  fun s => let w := world s in
           let '(a, S') := f (os w) (state_of w L) in
           (Normal a, mkSys (this s) (store_state L S' w)).
Definition lua_read {A} (L : handle) (f : lua_State -> A) : M A :=
  fun s => (Normal (f (state_of (world s) L)), s).

Definition log (e : event) : M unit := update_world (log_event e).

(** [luaL_newstate()] and [lua_close(L)] *)
Definition luaL_newstate : M handle :=
  fun s => let '(L, w) := world_newstate (world s) in
           (Normal L, mkSys (this s) w).
Definition lua_close (L : handle) : M unit := update_world (world_close L).

(** Run a method on another object, such as a temporary context; the
    object is gone afterwards. *)
Definition on_object {A} (c : LuaContext) (m : M A) : M A :=
  fun s => let '(r, s') := m (mkSys c (world s)) in
           (r, mkSys (this s) (world s')).

Declare Scope cxx_scope.
Delimit Scope cxx_scope with cxx.
Notation "x <- m ;; k" := (bind m (fun x => k))
  (at level 100, m at next level, right associativity) : cxx_scope.
Notation "m ;; k" := (bind m (fun _ => k))
  (at level 100, right associativity) : cxx_scope.
Open Scope cxx_scope.

(** A [for] loop over a list or over the entries of a map. *)
Fixpoint for_each {A} (l : list A) (body : A -> M unit) : M unit :=
  match l with
  | [] => ret tt
  | x :: l' => body x ;; for_each l' body
  end.

Definition when (b : bool) (m : M unit) : M unit := if b then m else ret tt.

(** ** The methods of [LuaContext] ([context.cpp]) *)

(** The format strings of the context, with their arguments filled in. *)
Definition package_path_chunk (path : string) : string :=
  "package.path = package.path .. " +:+ dquote +:+ ";" +:+ path
    +:+ "/?.lua;" +:+ path +:+ "/?/init.lua" +:+ dquote.
Definition package_cpath_chunk (path : string) : string :=
  "package.cpath = package.cpath .. " +:+ dquote +:+ ";" +:+ path
    +:+ "/?.so" +:+ dquote.
Definition require_chunk (module : string) : string :=
  "require(" +:+ dquote +:+ module +:+ dquote +:+ ")".

(** The filter the constructor gives to the monitor; the C++ literal
    writes the backslash twice. *)
Definition lua_filter : string := "^[^.].*\.lua$".

(** [do_string(lua_State *L, const char *format, ...)], on the formatted
    string. *)
Definition do_string_on (at_ : site) (L : handle) (s : string) : M unit :=
  tb <- get __enable_tracebacks ;;
  let errfunc := if tb : bool then 1 else 0 in
  r1 <- lua_call L (fun E => luaL_loadstring E s) ;;
  rv <- (if r1 =? 0
         then r2 <- lua_call L (fun E => lua_pcall E errfunc) ;;
              ret (if r2 =? 0 then 0 else 1)
         else ret 1) ;;
  log (EvDoString at_ L s rv) ;;
  if rv =? 0 then ret tt
  else
    errmsg <- lua_read L (lua_tostring (-1)) ;;
    lua L (lua_pop 1) ;;
    throw (LuaRuntimeException "do_string" errmsg).

(** [do_string(const char *format, ...)] has the same body on [__L]. *)
Definition do_string (at_ : site) (s : string) : M unit :=
  L <- get __L ;;
  do_string_on at_ L s.

(** [do_file(lua_State *L, const char *filename)], with the messages of the
    ROS build. *)
Definition do_file_on (L : handle) (filename : string) : M unit :=
  err <- lua_call L (fun E => luaL_loadfile E filename) ;;
  (if err =? 0 then ret tt
   else
     errmsg <- lua_read L (lua_tostring (-1)) ;;
     lua L (lua_pop 1) ;;
     log (EvDoFile L filename err) ;;
     if err =? LUA_ERRSYNTAX then
       throw (Exception ("Lua syntax error in file " +:+ filename +:+ ": "
                         +:+ errmsg))
     else if err =? LUA_ERRMEM then
       throw (Exception ("Out of Memory. Could not load Lua file "
                         +:+ filename))
     else if err =? LUA_ERRFILE then
       throw (Exception ("Could not open file file " +:+ filename +:+ ": "
                         +:+ errmsg))
     else ret tt) ;;
  tb <- get __enable_tracebacks ;;
  let errfunc := if tb : bool then 1 else 0 in
  err <- lua_call L (fun E => lua_pcall E errfunc) ;;
  log (EvDoFile L filename err) ;;
  if err =? 0 then ret tt
  else
    errmsg <- lua_read L (lua_tostring (-1)) ;;
    lua L (lua_pop 1) ;;
    if err =? LUA_ERRRUN then
      throw (LuaRuntimeException "do_file" errmsg)
    else if err =? LUA_ERRMEM then
      throw (Exception ("Out of Memory. Could not execute Lua file "
                        +:+ filename))
    else if err =? LUA_ERRERR then
      throw (LuaErrorException "do_file" errmsg)
    else
      throw (LuaErrorException "do_file/unknown error" errmsg).

Definition do_file (filename : string) : M unit :=
  L <- get __L ;;
  do_file_on L filename.

(** Calling one of the callbacks of a watcher on a context. *)
Definition notify (ev : nat -> handle -> event)
    (callback : LuaContextWatcher -> lua_State -> option exn * lua_State)
    (w : LuaContextWatcher) (context : LuaContext) : M unit :=
  log (ev (watcher_id w) (__L context)) ;;
  r <- lua_call (__L context) (fun _ => callback w) ;;
  match r with
  | Some e => throw e
  | None => ret tt
  end.

(** [LuaContext(lua_State *L)].  The constructor leaves
    [__enable_tracebacks] as it finds it in memory; [tb] is that value. *)
Definition LuaContext_wrap (L : handle) (tb : bool) : LuaContext :=
  mkLuaContext L false tb None [] [] [] ∅ ∅ ∅ ∅ ∅ ∅ None [].

(** [~LuaContext()] *)
Definition LuaContext_dtor : M unit :=
  update_this (set___fam None) ;;
  owns <- get __owns_L ;;
  when owns
    (ws <- get __watchers ;;
     for_each ws (fun w =>
       c <- get id ;;
       try_catch (notify EvFinalize lua_finalize w c) (fun _ => ret tt)) ;;
     L <- get __L ;;
     lua_close L).

(** [init_state], up to the callbacks: a new state with the libraries, the
    traceback function, the package directories, the packages and the
    recorded globals.  A [std::map] is gone through in the order of its
    keys and [map_to_list] in an order of its own; the names of one map are
    distinct, so the order does not show in the globals. *)
Definition init_replay : M handle :=
  L <- luaL_newstate ;;
  lua L luaL_openlibs ;;
  tb <- get __enable_tracebacks ;;
  when tb
    (lua L (lua_getglobal "debug") ;;
     lua L (lua_getfield (-1) "traceback") ;;
     lua L (lua_remove (-2))) ;;
  dirs <- get __package_dirs ;;
  for_each dirs (fun d => do_string_on AtPackageDir L (package_path_chunk d)) ;;
  cdirs <- get __cpackage_dirs ;;
  for_each cdirs (fun d =>
    do_string_on AtCPackageDir L (package_cpath_chunk d)) ;;
  pkgs <- get __packages ;;
  for_each pkgs (fun p => do_string_on AtPackage L (require_chunk p)) ;;
  usertypes <- get __usertypes ;;
  for_each (map_to_list usertypes) (fun '(name, (data, type_n)) =>
    lua L (tolua_pushusertype data type_n) ;; lua L (lua_setglobal name)) ;;
  strings <- get __strings ;;
  for_each (map_to_list strings) (fun '(name, v) =>
    lua L (lua_pushstring v) ;; lua L (lua_setglobal name)) ;;
  booleans <- get __booleans ;;
  for_each (map_to_list booleans) (fun '(name, v) =>
    lua L (lua_pushboolean (if v : bool then 1 else 0)) ;;
    lua L (lua_setglobal name)) ;;
  numbers <- get __numbers ;;
  for_each (map_to_list numbers) (fun '(name, v) =>
    lua L (lua_pushnumber v) ;; lua L (lua_setglobal name)) ;;
  integers <- get __integers ;;
  for_each (map_to_list integers) (fun '(name, v) =>
    lua L (lua_pushinteger v) ;; lua L (lua_setglobal name)) ;;
  cfunctions <- get __cfunctions ;;
  for_each (map_to_list cfunctions) (fun '(name, v) =>
    lua L (lua_pushcfunction v) ;; lua L (lua_setglobal name)) ;;
  ret L.

(** [access(path, R_OK) == 0] *)
Definition access (path : string) : M bool :=
  fun s => (Normal (access_R_OK (os (world s)) path), s).

(** [init_state], from the callbacks on.  The callbacks of the model use
    the state of the temporary context only, so the value its constructor
    finds for [__enable_tracebacks] does not show. *)
Definition init_finish (L : handle) : M unit :=
  let tmpctx := LuaContext_wrap L false in
  ws <- get __watchers ;;
  for_each ws (fun w =>
    try_catch (notify EvInit lua_init w tmpctx)
      (fun e =>
         on_object tmpctx LuaContext_dtor ;;
         lua_close L ;;
         throw e)) ;;
  on_object tmpctx LuaContext_dtor ;;
  script <- get __start_script ;;
  match script with
  | Some start_script =>
      readable <- access start_script ;;
      if readable : bool then do_file_on L start_script
      else do_string_on AtStartScript L (require_chunk start_script)
  | None => ret tt
  end.

Definition init_state : M handle :=
  L <- init_replay ;;
  init_finish L ;;
  ret L.

(** [LuaContext(bool watch_dirs, bool enable_tracebacks)]: the fields are
    set, then [init_state] runs on the object under construction, whose
    lists and maps are empty and whose [__L] is not set yet. *)
Definition LuaContext_new (watch_dirs enable_tracebacks : bool) (w : World)
  : outcome unit * Sys :=
  let fam := if watch_dirs
             then Some (Fam.add_listener (Fam.add_filter lua_filter Fam.create))
             else None in
  let raw := mkLuaContext 0%nat true enable_tracebacks None [] [] []
               ∅ ∅ ∅ ∅ ∅ ∅ fam [] in
  (L <- init_state ;; update_this (set___L L)) (mkSys raw w).

Definition set_start_script (start_script : option string) : M unit :=
  match start_script with
  | Some script =>
      update_this (set___start_script (Some script)) ;;
      readable <- access script ;;
      if readable : bool then do_file script
      else do_string AtStartScript (require_chunk script)
  | None => update_this (set___start_script None)
  end.

Definition restart : M unit :=
  try_catch
    (L <- init_state ;;
     tL <- get __L ;;
     ws <- get __watchers ;;
     for_each ws (fun w =>
       c <- get id ;;
       try_catch (notify EvFinalize lua_finalize w c) (fun _ => ret tt)) ;;
     update_this (set___L L) ;;
     lua_close tL ;;
     for_each ws (fun w =>
       c <- get id ;;
       try_catch (notify EvRestarted lua_restarted w c) (fun _ => ret tt)))
    (fun _ => ret tt).

Definition fam_watch_dir (path : string) : M unit :=
  update_this (fun c => set___fam (Fam.watch_dir path <$> __fam c) c).

Definition add_package_dir (path : string) : M unit :=
  L <- get __L ;;
  do_string_on AtPackageDir L (package_path_chunk path) ;;
  update_this (fun c => set___package_dirs (__package_dirs c ++ [path]) c) ;;
  fam_watch_dir path.

Definition add_cpackage_dir (path : string) : M unit :=
  L <- get __L ;;
  do_string_on AtCPackageDir L (package_cpath_chunk path) ;;
  update_this (fun c => set___cpackage_dirs (__cpackage_dirs c ++ [path]) c) ;;
  fam_watch_dir path.

Definition add_package (package : string) : M unit :=
  pkgs <- get __packages ;;
  if bool_decide (package ∈ pkgs) then ret tt
  else
    L <- get __L ;;
    do_string_on AtPackage L (require_chunk package) ;;
    update_this (fun c => set___packages (__packages c ++ [package]) c).

Definition add_watchdir (path : string) : M unit := fam_watch_dir path.

Definition add_watchfile (path : string) : M unit :=
  update_this (fun c => set___fam (Fam.watch_file path <$> __fam c) c).

Definition get_lua_state : M handle := get __L.

(** [m.find(name) != m.end()] *)
Definition has {V} (m : gmap string V) (name : string) : bool :=
  bool_decide (is_Some (m !! name)).

Definition assert_unique_name (name type : string) : M unit :=
  c <- get id ;;
  when (negb (type =? "usertype")%string && has (__usertypes c) name)
    (throw (Exception ("User type entry already exists for name " +:+ name))) ;;
  when (negb (type =? "string")%string && has (__strings c) name)
    (throw (Exception ("String entry already exists for name " +:+ name))) ;;
  when (negb (type =? "boolean")%string && has (__booleans c) name)
    (throw (Exception ("Boolean entry already exists for name " +:+ name))) ;;
  when (negb (type =? "number")%string && has (__numbers c) name)
    (throw (Exception ("Number entry already exists for name " +:+ name))) ;;
  when (negb (type =? "integer")%string && has (__integers c) name)
    (throw (Exception ("Integer entry already exists for name " +:+ name))) ;;
  when (negb (type =? "cfunction")%string && has (__cfunctions c) name)
    (throw (Exception ("Cfunction entry already exists for name " +:+ name))).

(** The type name tolua++ is given: the name space, when there is one, is
    put in front. *)
Definition qualified (type_name : string) (name_space : option string)
  : string :=
  match name_space with
  | Some ns => ns +:+ "::" +:+ type_name
  | None => type_name
  end.

Definition set_usertype (name : string) (data : ptr) (type_name : string)
    (name_space : option string) : M unit :=
  let type_n := qualified type_name name_space in
  assert_unique_name name "usertype" ;;
  update_this (fun c =>
    set___usertypes (<[name := (data, type_n)]> (__usertypes c)) c) ;;
  L <- get __L ;;
  lua L (tolua_pushusertype data type_n) ;;
  lua L (lua_setglobal name).

Definition set_string (name value : string) : M unit :=
  assert_unique_name name "string" ;;
  update_this (fun c => set___strings (<[name := value]> (__strings c)) c) ;;
  L <- get __L ;;
  lua L (lua_pushstring value) ;;
  lua L (lua_setglobal name).

Definition set_boolean (name : string) (value : bool) : M unit :=
  assert_unique_name name "boolean" ;;
  update_this (fun c => set___booleans (<[name := value]> (__booleans c)) c) ;;
  L <- get __L ;;
  lua L (lua_pushboolean (if value then 1 else 0)) ;;
  lua L (lua_setglobal name).

Definition set_number (name : string) (value : lua_Number) : M unit :=
  assert_unique_name name "number" ;;
  update_this (fun c => set___numbers (<[name := value]> (__numbers c)) c) ;;
  L <- get __L ;;
  lua L (lua_pushnumber value) ;;
  lua L (lua_setglobal name).

Definition set_integer (name : string) (value : lua_Integer) : M unit :=
  assert_unique_name name "integer" ;;
  update_this (fun c => set___integers (<[name := value]> (__integers c)) c) ;;
  L <- get __L ;;
  lua L (lua_pushinteger value) ;;
  lua L (lua_setglobal name).

Definition set_cfunction (name : string) (function : lua_CFunction) : M unit :=
  assert_unique_name name "cfunction" ;;
  update_this (fun c =>
    set___cfunctions (<[name := function]> (__cfunctions c)) c) ;;
  L <- get __L ;;
  lua L (lua_pushcfunction function) ;;
  lua L (lua_setglobal name).

Definition remove_global (name : string) : M unit :=
  update_this (fun c => set___usertypes (delete name (__usertypes c)) c) ;;
  update_this (fun c => set___strings (delete name (__strings c)) c) ;;
  update_this (fun c => set___booleans (delete name (__booleans c)) c) ;;
  update_this (fun c => set___numbers (delete name (__numbers c)) c) ;;
  update_this (fun c => set___integers (delete name (__integers c)) c) ;;
  update_this (fun c => set___cfunctions (delete name (__cfunctions c)) c) ;;
  L <- get __L ;;
  lua L lua_pushnil ;;
  lua L (lua_setglobal name).

Definition on_L (f : lua_State -> lua_State) : M unit :=
  L <- get __L ;;
  lua L f.

Definition push_boolean (value : bool) : M unit :=
  on_L (lua_pushboolean (if value then 1 else 0)).
Definition push_integer (value : lua_Integer) : M unit :=
  on_L (lua_pushinteger value).
Definition push_nil : M unit := on_L lua_pushnil.
Definition push_number (value : lua_Number) : M unit :=
  on_L (lua_pushnumber value).
Definition push_string (value : string) : M unit :=
  on_L (lua_pushstring value).
Definition push_usertype (data : ptr) (type_name : string)
    (name_space : option string) : M unit :=
  on_L (tolua_pushusertype data (qualified type_name name_space)).
Definition push_cfunction (function : lua_CFunction) : M unit :=
  on_L (lua_pushcfunction function).
Definition set_global (name : string) : M unit := on_L (lua_setglobal name).
Definition get_global (name : string) : M unit := on_L (lua_getglobal name).

Definition stack_size : M Z :=
  L <- get __L ;;
  lua_read L lua_gettop.

Definition pop (n : Z) : M unit :=
  tb <- get __enable_tracebacks ;;
  size <- stack_size ;;
  if (tb : bool) && (n >=? size) then
    throw (LuaRuntimeException "pop"
             "Cannot pop traceback function, invalid n")
  else on_L (lua_pop n).

Definition remove (idx : Z) : M unit :=
  tb <- get __enable_tracebacks ;;
  size <- stack_size ;;
  if (tb : bool) && ((idx =? 1) || (idx =? - size)) then
    throw (LuaRuntimeException "pop" "Cannot remove traceback function")
  else on_L (lua_remove idx).

Definition add_watcher (watcher : LuaContextWatcher) : M unit :=
  update_this (fun c => set___watchers (__watchers c ++ [watcher]) c).

(** [std::list::remove] drops every entry equal to the pointer. *)
Definition remove_watcher (watcher : LuaContextWatcher) : M unit :=
  update_this (fun c =>
    set___watchers
      (filter (fun w => watcher_id w ≠ watcher_id watcher) (__watchers c)) c).

Definition fam_event (filename : string) (mask : Z) : M unit := restart.

(** [process_fam_events]: the monitor, when there is one, processes what is
    pending.  Modelled from the spec: [FileAlterationMonitor::process_events]
    is not among the sources; it calls [fam_event] of the listener for each
    pending notification that [Fam.delivers] lets through. *)
Definition process_fam_events : M unit :=
  fam <- get __fam ;;
  match fam with
  | Some _ =>
      pending <- (fun s => (Normal (inotify (world s)), s)) ;;
      update_world (set_inotify []) ;;
      for_each pending (fun e =>
        fam' <- get __fam ;;
        match fam' with
        | Some f =>
            if Fam.delivers f e then fam_event (fs_name e) (fs_mask e)
            else ret tt
        | None => ret tt
        end)
  | None => ret tt
  end.

(** ** The life of a context *)

(** The calls a host can make on a context. *)
Inductive api : Type :=
| Set_start_script (start_script : option string)
| Restart
| Add_package_dir (path : string)
| Add_cpackage_dir (path : string)
| Add_package (package : string)
| Add_watchdir (path : string)
| Add_watchfile (path : string)
| Do_file (filename : string)
| Do_string (s : string)
| Set_usertype (name : string) (data : ptr) (type_name : string)
    (name_space : option string)
| Set_string (name value : string)
| Set_boolean (name : string) (value : bool)
| Set_number (name : string) (value : lua_Number)
| Set_integer (name : string) (value : lua_Integer)
| Set_cfunction (name : string) (function : lua_CFunction)
| Remove_global (name : string)
| Set_global (name : string)
| Get_global (name : string)
| Push_boolean (value : bool)
| Push_integer (value : lua_Integer)
| Push_nil
| Push_number (value : lua_Number)
| Push_string (value : string)
| Push_usertype (data : ptr) (type_name : string) (name_space : option string)
| Push_cfunction (function : lua_CFunction)
| Pop (n : Z)
| Remove (idx : Z)
| Add_watcher (watcher : LuaContextWatcher)
| Remove_watcher (watcher : LuaContextWatcher)
| Fam_event (filename : string) (mask : Z)
| Process_fam_events.

Definition run (c : api) : M unit :=
  match c with
  | Set_start_script o => set_start_script o
  | Restart => restart
  | Add_package_dir p => add_package_dir p
  | Add_cpackage_dir p => add_cpackage_dir p
  | Add_package p => add_package p
  | Add_watchdir p => add_watchdir p
  | Add_watchfile p => add_watchfile p
  | Do_file f => do_file f
  | Do_string s => do_string AtHost s
  | Set_usertype n d t ns => set_usertype n d t ns
  | Set_string n v => set_string n v
  | Set_boolean n v => set_boolean n v
  | Set_number n v => set_number n v
  | Set_integer n v => set_integer n v
  | Set_cfunction n v => set_cfunction n v
  | Remove_global n => remove_global n
  | Set_global n => set_global n
  | Get_global n => get_global n
  | Push_boolean v => push_boolean v
  | Push_integer v => push_integer v
  | Push_nil => push_nil
  | Push_number v => push_number v
  | Push_string v => push_string v
  | Push_usertype d t ns => push_usertype d t ns
  | Push_cfunction f => push_cfunction f
  | Pop n => pop n
  | Remove idx => remove idx
  | Add_watcher w => add_watcher w
  | Remove_watcher w => remove_watcher w
  | Fam_event f m => fam_event f m
  | Process_fam_events => process_fam_events
  end.

(** The world before anything happened, and a world with one state that
    somebody else opened. *)
Definition initial_world (E : Env) : World := mkWorld ∅ 0%nat E [] [].
Definition foreign_world (E : Env) (S : lua_State) : World :=
  mkWorld {[ 0%nat := S ]} 1%nat E [] [].

(** The systems a host can bring about: it constructs a context, or wraps
    one around a state, and calls its methods, whether they return or
    throw; meanwhile files change, so the interpreter behaves differently
    and notifications arrive. *)
Inductive reachable : Sys -> Prop :=
| reachable_new watch_dirs enable_tracebacks E s :
    LuaContext_new watch_dirs enable_tracebacks (initial_world E)
      = (Normal tt, s) ->
    reachable s
| reachable_wrap E S tb :
    reachable (mkSys (LuaContext_wrap 0%nat tb) (foreign_world E S))
| reachable_call s c :
    reachable s -> reachable (run c s).2
| reachable_os s E :
    reachable s -> reachable (mkSys (this s) (set_os E (world s)))
| reachable_inotify s e :
    reachable s ->
    reachable (mkSys (this s)
                 (set_inotify (inotify (world s) ++ [e]) (world s))).

(** The sequence of calls [cs] from [s], whatever each call returns. *)
Definition run_all (cs : list api) (s : Sys) : Sys :=
  foldl (fun s c => (run c s).2) s cs.

(** ** Vocabulary of the properties *)

(** The six kinds of recorded globals and the names [assert_unique_name]
    knows them by. *)
Inductive kind : Type :=
| KUsertype | KString | KBoolean | KNumber | KInteger | KCFunction.

Definition type_string (k : kind) : string :=
  match k with
  | KUsertype => "usertype"
  | KString => "string"
  | KBoolean => "boolean"
  | KNumber => "number"
  | KInteger => "integer"
  | KCFunction => "cfunction"
  end.

(** Whether the map of kind [k] has an entry for [name]. *)
Definition recorded (k : kind) (c : LuaContext) (name : string) : bool :=
  match k with
  | KUsertype => has (__usertypes c) name
  | KString => has (__strings c) name
  | KBoolean => has (__booleans c) name
  | KNumber => has (__numbers c) name
  | KInteger => has (__integers c) name
  | KCFunction => has (__cfunctions c) name
  end.

(** No name is recorded in two maps. *)
Definition unique_names (c : LuaContext) : Prop :=
  forall name k1 k2,
    recorded k1 c name = true -> recorded k2 c name = true -> k1 = k2.

(** The Lua value of a recorded usertype. *)
Definition usertype_value (data : ptr) (type_n : string) : value :=
  if data =? 0 then VNil else VUsertype data type_n.

(** [records c name v]: one of the maps of [c] binds [name], and [v] is
    the Lua value of what it binds it to. *)
Inductive records (c : LuaContext) (name : string) : value -> Prop :=
| records_usertype data type_n :
    __usertypes c !! name = Some (data, type_n) ->
    records c name (usertype_value data type_n)
| records_string v :
    __strings c !! name = Some v -> records c name (VString v)
| records_boolean v :
    __booleans c !! name = Some v -> records c name (VBoolean v)
| records_number v :
    __numbers c !! name = Some v -> records c name (VNumber v)
| records_integer v :
    __integers c !! name = Some v -> records c name (VInteger v)
| records_cfunction v :
    __cfunctions c !! name = Some v -> records c name (VCFunction v).

(** The entries of a map as a list of names and Lua values. *)
Definition entries {V : Type} (g : string * V -> value) (m : gmap string V)
  : list (string * value) :=
  (fun x => (x.1, g x)) <$> map_to_list m.

(** The recorded maps as such lists, in the order [init_state] goes through
    them. *)
Definition usertype_entries (c : LuaContext) : list (string * value) :=
  entries (fun x => usertype_value x.2.1 x.2.2) (__usertypes c).
Definition string_entries (c : LuaContext) : list (string * value) :=
  entries (fun x => VString x.2) (__strings c).
Definition boolean_entries (c : LuaContext) : list (string * value) :=
  entries (fun x => VBoolean x.2) (__booleans c).
Definition number_entries (c : LuaContext) : list (string * value) :=
  entries (fun x => VNumber x.2) (__numbers c).
Definition integer_entries (c : LuaContext) : list (string * value) :=
  entries (fun x => VInteger x.2) (__integers c).
Definition cfunction_entries (c : LuaContext) : list (string * value) :=
  entries (fun x => VCFunction x.2) (__cfunctions c).

(** Setting the globals of a list of names and values, first to last. *)
Definition replay_list (l : list (string * value)) (S : lua_State)
  : lua_State :=
  foldl (fun S nv => lua_setglobal nv.1 (push nv.2 S)) S l.

Definition replay_maps (c : LuaContext) (S : lua_State) : lua_State :=
  replay_list (cfunction_entries c)
    (replay_list (integer_entries c)
       (replay_list (number_entries c)
          (replay_list (boolean_entries c)
             (replay_list (string_entries c)
                (replay_list (usertype_entries c) S))))).

(** What [init_state] executes in the new state [L] before it sets the
    globals, when everything succeeds. *)
Definition replay_trace (c : LuaContext) (L : handle) : list event :=
  EvNewState L
  :: map (fun d => EvDoString AtPackageDir L (package_path_chunk d) 0)
       (__package_dirs c)
  ++ map (fun d => EvDoString AtCPackageDir L (package_cpath_chunk d) 0)
       (__cpackage_dirs c)
  ++ map (fun p => EvDoString AtPackage L (require_chunk p) 0)
       (__packages c).

Definition ev_handle (e : event) : handle :=
  match e with
  | EvNewState L | EvDoString _ L _ _ | EvDoFile L _ _ | EvInit _ L
  | EvFinalize _ L | EvRestarted _ L | EvClose L => L
  end.

(** The events of running the start script [script] in the state [L] of a
    world where [readable] tells whether the script is a readable file,
    when it succeeds: the file is executed, or the module is required. *)
Definition start_script_events (readable : bool) (L : handle)
    (script : string) (evs : list event) : Prop :=
  if readable
  then exists pre, evs = pre ++ [EvDoFile L script 0]
         /\ Forall (fun e => exists err, e = EvDoFile L script err) pre
  else evs = [EvDoString AtStartScript L (require_chunk script) 0].

Definition start_events (c : LuaContext) (E : Env) (L : handle)
    (evs : list event) : Prop :=
  match __start_script c with
  | Some script => start_script_events (access_R_OK E script) L script evs
  | None => evs = []
  end.

Definition init_events (ws : list LuaContextWatcher) (L : handle)
  : list event :=
  map (fun w => EvInit (watcher_id w) L) ws.
Definition finalize_events (ws : list LuaContextWatcher) (L : handle)
  : list event :=
  map (fun w => EvFinalize (watcher_id w) L) ws.
Definition restarted_events (ws : list LuaContextWatcher) (L : handle)
  : list event :=
  map (fun w => EvRestarted (watcher_id w) L) ws.

Global Instance site_eq_dec : EqDecision site.
Proof. solve_decision. Defined.
Global Instance event_eq_dec : EqDecision event.
Proof. solve_decision. Defined.

(** How often the trace has the package [p] loaded with success into the
    state [L], by [add_package] or by [init_state]. *)
Definition package_loads (tr : list event) (L : handle) (p : string) : nat :=
  length (filter (fun e => e = EvDoString AtPackage L (require_chunk p) 0) tr).

(** What holds of every system a host can bring about. *)
Record well_formed (s : Sys) : Prop := {
  wf_fresh : (__L (this s) < next_state (world s))%nat;
  wf_open : is_open (world s) (__L (this s));
  wf_unique : unique_names (this s);
  wf_nodup : NoDup (__packages (this s));
  wf_trace :
    Forall (fun e => (ev_handle e < next_state (world s))%nat)
      (trace (world s));
  wf_loads : forall p,
    package_loads (trace (world s)) (__L (this s)) p
    = if bool_decide (p ∈ __packages (this s)) then 1%nat else 0%nat
}.

(** The events of a call that neither closes a state nor loads a
    package. *)
Definition host_event (e : event) : Prop :=
  match e with
  | EvClose _ => False
  | EvDoString AtPackage _ _ _ => False
  | _ => True
  end.

Global Instance kind_eq_dec : EqDecision kind.
Proof. solve_decision. Defined.

Definition all_kinds : list kind :=
  [KUsertype; KString; KBoolean; KNumber; KInteger; KCFunction].

(** Whether a map of another kind than [k] has an entry for [name]. *)
Definition recorded_elsewhere (k : kind) (c : LuaContext) (name : string)
  : bool :=
  existsb (fun k' => bool_decide (k' ≠ k) && recorded k' c name) all_kinds.

(** The argument of one of the six setters. *)
Inductive binding : Type :=
| BUsertype (data : ptr) (type_name : string) (name_space : option string)
| BString (value : string)
| BBoolean (value : bool)
| BNumber (value : lua_Number)
| BInteger (value : lua_Integer)
| BCFunction (function : lua_CFunction).

Definition kind_of (b : binding) : kind :=
  match b with
  | BUsertype _ _ _ => KUsertype
  | BString _ => KString
  | BBoolean _ => KBoolean
  | BNumber _ => KNumber
  | BInteger _ => KInteger
  | BCFunction _ => KCFunction
  end.

Definition set_binding (name : string) (b : binding) : M unit :=
  match b with
  | BUsertype data type_name name_space =>
      set_usertype name data type_name name_space
  | BString value => set_string name value
  | BBoolean value => set_boolean name value
  | BNumber value => set_number name value
  | BInteger value => set_integer name value
  | BCFunction function => set_cfunction name function
  end.

(** The Lua value a setter is to give the global. *)
Definition binding_value (b : binding) : value :=
  match b with
  | BUsertype data type_name name_space =>
      usertype_value data (qualified type_name name_space)
  | BString value => VString value
  | BBoolean value => VBoolean value
  | BNumber value => VNumber value
  | BInteger value => VInteger value
  | BCFunction function => VCFunction function
  end.

(** The map of the kind of [b] has [b] under [name]. *)
Definition stored (c : LuaContext) (name : string) (b : binding) : Prop :=
  match b with
  | BUsertype data type_name name_space =>
      __usertypes c !! name = Some (data, qualified type_name name_space)
  | BString value => __strings c !! name = Some value
  | BBoolean value => __booleans c !! name = Some value
  | BNumber value => __numbers c !! name = Some value
  | BInteger value => __integers c !! name = Some value
  | BCFunction function => __cfunctions c !! name = Some function
  end.

(** The context with [b] put into the map of its kind. *)
Definition record_binding (name : string) (b : binding) (c : LuaContext)
  : LuaContext :=
  match b with
  | BUsertype data type_name name_space =>
      set___usertypes
        (<[name := (data, qualified type_name name_space)]> (__usertypes c)) c
  | BString value => set___strings (<[name := value]> (__strings c)) c
  | BBoolean value => set___booleans (<[name := value]> (__booleans c)) c
  | BNumber value => set___numbers (<[name := value]> (__numbers c)) c
  | BInteger value => set___integers (<[name := value]> (__integers c)) c
  | BCFunction function =>
      set___cfunctions (<[name := function]> (__cfunctions c)) c
  end.

(** ** Vocabulary for reasoning about computations *)

(** A computation respects a relation between the system before and the
    system after when every run of it is in the relation. *)
Definition respects (R : Sys -> Sys -> Prop) {A} (m : M A) : Prop :=
  forall s, R s (m s).2.

(** [only_touches P L s s']: from [s] to [s'] the context is the same, no
    state but [L] changed, and the events that happened are about [L] and
    satisfy [P]; [L] is still open unless it was closed. *)
Record only_touches (P : event -> Prop) (L : handle) (s s' : Sys) : Prop := {
  ot_this : this s' = this s;
  ot_next : next_state (world s') = next_state (world s);
  ot_os : os (world s') = os (world s);
  ot_inotify : inotify (world s') = inotify (world s);
  ot_others : forall h, h ≠ L ->
      lua_states (world s') !! h = lua_states (world s) !! h;
  ot_trace : exists evs, trace (world s') = trace (world s) ++ evs
      /\ Forall (fun e => ev_handle e = L /\ P e) evs
      /\ (EvClose L ∉ evs -> is_open (world s) L -> is_open (world s') L)
}.

(** The events of [init_state]. *)
Definition init_event (e : event) : Prop :=
  match e with
  | EvFinalize _ _ | EvRestarted _ _ => False
  | EvClose _ => True
  | _ => True
  end.

(** [went L evs s s']: from [s] to [s'] only the state [L] was worked on,
    and the events [evs] happened. *)
Definition went (L : handle) (evs : list event) (s s' : Sys) : Prop :=
  only_touches (fun _ => True) L s s' /\ trace (world s') = trace (world s) ++ evs.

(** Computations that leave the trace alone. *)
Definition same_trace (s s' : Sys) : Prop :=
  trace (world s') = trace (world s).

(** A context that differs in the fields that do not matter. *)
Definition same_core (c c' : LuaContext) : Prop :=
  __L c' = __L c /\ __packages c' = __packages c
  /\ forall k name, recorded k c' name = recorded k c name.

(** The context works on its own state. *)
Definition own_state (P : event -> Prop) (s s' : Sys) : Prop :=
  only_touches P (__L (this s)) s s'.

(** Well-formedness is kept. *)
Definition keeps_wf (s s' : Sys) : Prop := well_formed s -> well_formed s'.

(** A relation between the context before and after. *)
Definition this_rel (Rc : LuaContext -> LuaContext -> Prop) (s s' : Sys)
  : Prop :=
  Rc (this s) (this s').

(** Whether a call is [set_start_script]. *)
Definition is_set_start_script (c : api) : bool :=
  match c with
  | Set_start_script _ => true
  | _ => false
  end.


(** ** Vocabulary of the file filter *)

(** The words a regular expression matches. *)
Inductive matches : Fam.regex -> list ascii -> Prop :=
| matches_eps : matches Fam.Eps []
| matches_chr c : matches (Fam.Chr c) [c]
| matches_notchr c a : a ≠ c -> matches (Fam.NotChr c) [a]
| matches_any a : matches Fam.AnyChr [a]
| matches_cat r1 r2 s1 s2 :
    matches r1 s1 -> matches r2 s2 -> matches (Fam.Cat r1 r2) (s1 ++ s2)
| matches_alt_l r1 r2 s : matches r1 s -> matches (Fam.Alt r1 r2) s
| matches_alt_r r1 r2 s : matches r2 s -> matches (Fam.Alt r1 r2) s
| matches_star_nil r : matches (Fam.Star r) []
| matches_star_cons r s1 s2 :
    matches r s1 -> matches (Fam.Star r) s2 -> matches (Fam.Star r) (s1 ++ s2).

(** A file is hidden when its name starts with a dot. *)
Definition hidden (name : string) : bool :=
  match name with
  | String c _ => Ascii.eqb c "."
  | EmptyString => false
  end.

Definition has_lua_suffix (name : string) : Prop :=
  exists stem, name = stem +:+ ".lua".

(** The compiled form of the filter of the context. *)
Definition lua_filter_regex : Fam.regex :=
  Fam.Cat Fam.Eps
    (Fam.Cat (Fam.NotChr ".")
       (Fam.Cat (Fam.Star Fam.AnyChr)
          (Fam.Cat (Fam.Chr ".")
             (Fam.Cat (Fam.Chr "l")
                (Fam.Cat (Fam.Chr "u") (Fam.Cat (Fam.Chr "a") Fam.Eps)))))).

(** The monitor is kept, with its filters and its listener, and watches at
    least what it watched. *)
Definition fam_grows (c c' : LuaContext) : Prop :=
  forall f, __fam c = Some f ->
    exists f', __fam c' = Some f'
      /\ Fam.filters f' = Fam.filters f
      /\ Fam.listening f' = Fam.listening f
      /\ Fam.watched_dirs f ⊆ Fam.watched_dirs f'.

(** ** Examples *)

(** An interpreter in which every chunk loads and runs without effect and
    no file can be read. *)
Definition quiet_env : Env :=
  mkEnv (fun _ => false) (fun _ => None) (fun _ => None)
    (fun _ g => (None, g, [])).

(** The same interpreter after the file of the module [module] is gone or
    broken: requiring it fails. *)
Definition missing_module_env (module : string) : Env :=
  mkEnv (fun _ => false) (fun _ => None) (fun _ => None)
    (fun c g =>
       match c with
       | ChunkString src =>
           if String.eqb src (require_chunk module)
           then (Some (ERRRUN, "module not found"%string), g, [])
           else (None, g, [])
       | ChunkFile _ => (None, g, [])
       end).

(** A context as the default constructor makes it. *)
Definition example_new : Sys :=
  (LuaContext_new true true (initial_world quiet_env)).2.

(** A context with a package directory, a package and some globals. *)
Definition example_bound : Sys :=
  run_all
    [Add_package_dir "/opt/lua"; Add_package "skiller";
     Set_string "robot" "fawkes"; Set_integer "answer" 42;
     Set_usertype "logger" 4096 "Logger" (Some "fawkes"%string)]
    example_new.

(** A watcher whose [lua_finalize] and [lua_restarted] throw. *)
Definition throwing_watcher : LuaContextWatcher :=
  mkWatcher 7 (fun S => (None, S))
    (fun S => (Some (Exception "finalize failed"), S))
    (fun S => (Some (Exception "restarted failed"), S)).

(** A context with that watcher and a start script that is a module. *)
Definition example_watched : Sys :=
  run_all [Add_watcher throwing_watcher; Set_start_script (Some "start"%string)]
    example_new.

(** A context with the package [foo], whose module then breaks on disk. *)
Definition example_broken : Sys :=
  let s := (run (Add_package "foo") example_new).2 in
  mkSys (this s) (set_os (missing_module_env "foo") (world s)).

(** The events of [init_state] up to the callbacks. *)
Definition replay_event (e : event) : Prop :=
  match e with
  | EvDoString _ _ _ _ => True
  | _ => False
  end.

(** A context that watches a directory in which a script just changed. *)
Definition example_notified : Sys :=
  let s := (run (Add_watchdir "/opt/lua") example_new).2 in
  mkSys (this s)
    (set_inotify [mkFsEvent "/opt/lua" "skill.lua" 2] (world s)).

(** ** More methods of [LuaContext] *)

(** [load_string], with the messages of the ROS build.  A status that is
    neither [LUA_ERRSYNTAX] nor [LUA_ERRMEM] leaves the [switch] without a
    [throw], after the message was popped. *)
Definition load_string (s : string) : M unit :=
  L <- get __L ;;
  err <- lua_call L (fun E => luaL_loadstring E s) ;;
  if err =? 0 then ret tt
  else
    errmsg <- lua_read L (lua_tostring (-1)) ;;
    lua L (lua_pop 1) ;;
    if err =? LUA_ERRSYNTAX then
      throw (Exception ("Lua syntax error in string '" +:+ s +:+ "': "
                        +:+ errmsg))
    else if err =? LUA_ERRMEM then
      throw (Exception ("Out of Memory. Cannot load string '" +:+ s +:+ "'"))
    else ret tt.

(** [lua_pushvalue] pushes a copy of the element at an index of the stack;
    beyond the top there is nil. *)
Definition lua_pushvalue (idx : Z) (L : lua_State) : lua_State :=
  push (index L idx) L.

Definition push_value (idx : Z) : M unit := on_L (lua_pushvalue idx).

(** Whether [idx] is a valid index, that is, a position of the stack. *)
Definition valid_index (L : lua_State) (idx : Z) : bool :=
  let i := abs_index L idx in
  (1 <=? i) && (i <=? lua_gettop L).

(** [lua_isnil] and [lua_isboolean] compare the type of the element, which
    is [LUA_TNONE] at an index that is not valid. *)
Definition lua_isnil (idx : Z) (L : lua_State) : bool :=
  valid_index L idx
  && match index L idx with
     | VNil => true
     | _ => false
     end.

Definition lua_isboolean (idx : Z) (L : lua_State) : bool :=
  valid_index L idx
  && match index L idx with
     | VBoolean _ => true
     | _ => false
     end.

(** [lua_toboolean]: false for [false] and nil, and for an index that is
    not valid; true for any other value. *)
Definition lua_toboolean (idx : Z) (L : lua_State) : bool :=
  match index L idx with
  | VNil | VBoolean false => false
  | _ => true
  end.

Definition is_nil (idx : Z) : M bool :=
  L <- get __L ;;
  lua_read L (lua_isnil idx).

Definition is_boolean (idx : Z) : M bool :=
  L <- get __L ;;
  lua_read L (lua_isboolean idx).

Definition to_boolean (idx : Z) : M bool :=
  L <- get __L ;;
  lua_read L (lua_toboolean idx).

(** ** More vocabulary of the properties *)

(** The calls that push one value. *)
Definition pushed_value (c : api) : option value :=
  match c with
  | Push_boolean v => Some (VBoolean v)
  | Push_integer v => Some (VInteger v)
  | Push_nil => Some VNil
  | Push_number v => Some (VNumber v)
  | Push_string v => Some (VString v)
  | Push_usertype d t ns => Some (usertype_value d (qualified t ns))
  | Push_cfunction f => Some (VCFunction f)
  | _ => None
  end.

(** The push method for the value of a setter. *)
Definition push_binding (b : binding) : M unit :=
  match b with
  | BUsertype data type_name name_space =>
      push_usertype data type_name name_space
  | BString value => push_string value
  | BBoolean value => push_boolean value
  | BNumber value => push_number value
  | BInteger value => push_integer value
  | BCFunction function => push_cfunction function
  end.

(** The events that are a call of a watcher are calls of the watchers
    named. *)
Definition called_from (ids : list nat) (e : event) : Prop :=
  match e with
  | EvInit n _ | EvFinalize n _ | EvRestarted n _ => n ∈ ids
  | _ => True
  end.

(** The event is no call of the watcher [n]. *)
Definition not_calling (n : nat) (e : event) : Prop :=
  match e with
  | EvInit n' _ | EvFinalize n' _ | EvRestarted n' _ => n' ≠ n
  | _ => True
  end.

(** The state the default constructor makes. *)
Definition fresh_state (enable_tracebacks : bool) : lua_State :=
  mkState (globals (luaL_openlibs empty_state))
    (if enable_tracebacks then [VLib "debug.traceback"] else []).

(** How the message of [assert_unique_name] names the map that has the
    name. *)
Definition entry_words (k : kind) : string :=
  match k with
  | KUsertype => "User type"
  | KString => "String"
  | KBoolean => "Boolean"
  | KNumber => "Number"
  | KInteger => "Integer"
  | KCFunction => "Cfunction"
  end.

(** The events that close no state. *)
Definition not_close (e : event) : Prop :=
  match e with
  | EvClose _ => False
  | _ => True
  end.

(** The states a trace closes, in the order it closes them. *)
Definition closed_states (tr : list event) : list handle :=
  omap (fun e => match e with EvClose h => Some h | _ => None end) tr.

(** No event of the trace is about a state that an event before it
    closed. *)
Fixpoint no_use_after_close (tr : list event) : Prop :=
  match tr with
  | [] => True
  | e :: tr' =>
      match e with
      | EvClose h => Forall (fun e' => ev_handle e' ≠ h) tr'
      | _ => True
      end
      /\ no_use_after_close tr'
  end.

(** What the trace closed is closed, and was not used since. *)
Record closed_for_good (w : World) : Prop := {
  cg_trace : no_use_after_close (trace w);
  cg_closed : forall h, EvClose h ∈ trace w -> lua_states w !! h = None
}.

(** A step of a context that is on the state [L], in the world [w], to the
    world [w']: what happened is about [L] or the state made next, nothing
    was used after it was closed, what was closed is closed, and the other
    states are as they were. *)
Definition world_step (L : handle) (w w' : World) : Prop :=
  exists evs,
    trace w' = trace w ++ evs
    /\ Forall (fun e => ev_handle e = L \/ ev_handle e = next_state w) evs
    /\ no_use_after_close evs
    /\ (forall h, EvClose h ∈ evs -> lua_states w' !! h = None)
    /\ (forall h, h ≠ L -> h ≠ next_state w ->
          lua_states w' !! h = lua_states w !! h).

(** A call keeps the system well formed and what is closed closed. *)
Definition keeps_closed (s s' : Sys) : Prop :=
  well_formed s /\ closed_for_good (world s) ->
  well_formed s' /\ closed_for_good (world s').

(** A call that works on the state of the context and closes nothing. *)
Definition own_step (s s' : Sys) : Prop :=
  __L (this s') = __L (this s)
  /\ next_state (world s') = next_state (world s)
  /\ (forall h, h ≠ __L (this s) ->
        lua_states (world s') !! h = lua_states (world s) !! h)
  /\ exists evs,
       trace (world s') = trace (world s) ++ evs
       /\ Forall (fun e => ev_handle e = __L (this s) /\ not_close e) evs.

(** ** More examples *)

(** An interpreter that finds no file to load. *)
Definition no_file_env : Env :=
  mkEnv (fun _ => false) (fun _ => None)
    (fun _ => Some (ERRFILE, "cannot open file"%string))
    (fun _ g => (None, g, [])).

(** A fresh context for which no file can be loaded. *)
Definition example_no_file : Sys :=
  mkSys (this example_new) (set_os no_file_env (world example_new)).


(** A context made without a monitor. *)
Definition example_unwatched : Sys :=
  (LuaContext_new false true (initial_world quiet_env)).2.

(** A context with a watcher and a start script, restarted once. *)
Definition example_restarted : Sys := run_all [Restart] example_watched.

(** A fresh context on whose state the host set a global by hand. *)
Definition example_unrecorded : Sys :=
  run_all [Push_string "fawkes"; Set_global "robot"] example_new.

(** ** The state a restart builds *)

(** Running chunks one after the other in a state, as [do_string] does:
    the state after the last one, when each of them compiles and returns. *)
Fixpoint run_chunks (E : Env) (strs : list string) (S : lua_State)
  : option lua_State :=
  match strs with
  | [] => Some S
  | str :: strs' =>
      match Lua.load_string E str with
      | Some _ => None
      | None =>
          match call E (ChunkString str) (globals S) with
          | (None, g, results) =>
              run_chunks E strs' (mkState g (stack S ++ results))
          | (Some _, _, _) => None
          end
      end
  end.

(** The chunks [init_state] executes for the recorded directories and
    packages, in its order. *)
Definition replay_chunks (c : LuaContext) : list string :=
  (package_path_chunk <$> __package_dirs c)
  ++ (package_cpath_chunk <$> __cpackage_dirs c)
  ++ (require_chunk <$> __packages c).

(** The state [init_state] has built when it comes to the callbacks: the
    fresh state, after the chunks, with the recorded globals. *)
Definition replayed_state (c : LuaContext) (E : Env) : option lua_State :=
  replay_maps c
  <$> run_chunks E (replay_chunks c) (fresh_state (__enable_tracebacks c)).

(** * Properties *)

(** ** The stack and the globals of a state *)

Lemma state_eta (L : lua_State) : mkState (globals L) (stack L) = L.
Proof. by destruct L. Qed.

Lemma index_push_top (v : value) (L : lua_State) : index (push v L) (-1) = v.
Proof.
  unfold index, abs_index, lua_gettop, push. simpl.
  rewrite length_app. simpl.
  replace (Z.of_nat (length (stack L) + 1) + -1 + 1)
    with (Z.of_nat (length (stack L)) + 1) by lia.
  destruct (Z.leb_spec 1 (Z.of_nat (length (stack L)) + 1)); [|lia].
  replace (Z.to_nat (Z.of_nat (length (stack L)) + 1 - 1))
    with (length (stack L)) by lia.
  by rewrite list_lookup_middle.
Qed.

Lemma lua_pop_push (v : value) (L : lua_State) : lua_pop 1 (push v L) = L.
Proof.
  unfold lua_pop, lua_settop, lua_gettop, push, set_stack. simpl.
  rewrite length_app. simpl.
  rewrite resize_app by lia. apply state_eta.
Qed.

(** Pushing a value and popping it into a global changes that global and
    nothing else. *)
Lemma setglobal_push (name : string) (v : value) (L : lua_State) :
  lua_setglobal name (push v L)
  = set_globals (match v with
                 | VNil => delete name (globals L)
                 | _ => <[name := v]> (globals L)
                 end) L.
Proof.
  unfold lua_setglobal. rewrite index_push_top, lua_pop_push.
  by destruct v.
Qed.

Lemma global_setglobal_push (name : string) (v : value) (L : lua_State) :
  global (lua_setglobal name (push v L)) name = v.
Proof.
  rewrite setglobal_push. unfold global. simpl.
  destruct v; by rewrite ?lookup_delete_eq, ?lookup_insert_eq.
Qed.

Lemma global_setglobal_push_ne (name n : string) (v : value) (L : lua_State) :
  name ≠ n -> global (lua_setglobal name (push v L)) n = global L n.
Proof.
  intros Hne. rewrite setglobal_push. unfold global. simpl.
  destruct v; by rewrite ?lookup_delete_ne, ?lookup_insert_ne.
Qed.

Lemma stack_setglobal_push (name : string) (v : value) (L : lua_State) :
  stack (lua_setglobal name (push v L)) = stack L.
Proof. rewrite setglobal_push. done. Qed.

(** ** Handles *)

Lemma state_of_store (L : handle) (S : lua_State) (w : World) :
  is_open w L -> state_of (store_state L S w) L = S.
Proof.
  intros [S0 HS0]. unfold state_of, store_state. simpl.
  by rewrite lookup_alter_eq, HS0.
Qed.

Lemma state_of_store_ne (L h : handle) (S : lua_State) (w : World) :
  L ≠ h -> state_of (store_state L S w) h = state_of w h.
Proof.
  intros Hne. unfold state_of, store_state. simpl.
  by rewrite lookup_alter_ne.
Qed.

Lemma is_open_store (L h : handle) (S : lua_State) (w : World) :
  is_open (store_state L S w) h <-> is_open w h.
Proof.
  unfold is_open, store_state. simpl.
  destruct (decide (L = h)) as [->|Hne].
  - rewrite lookup_alter_eq. by rewrite fmap_is_Some.
  - by rewrite lookup_alter_ne.
Qed.

Lemma store_store (L : handle) (S1 S2 : lua_State) (w : World) :
  store_state L S2 (store_state L S1 w) = store_state L S2 w.
Proof.
  unfold store_state, set_lua_states. simpl. f_equal.
  apply map_eq. intros h. destruct (decide (L = h)) as [->|Hne].
  - rewrite !lookup_alter_eq. by destruct (lua_states w !! h).
  - by rewrite !lookup_alter_ne.
Qed.

(** ** Reasoning about computations *)

Lemma bind_inv {A B} (m : M A) (k : A -> M B) s r s' :
  bind m k s = (r, s') ->
  (exists a s1, m s = (Normal a, s1) /\ k a s1 = (r, s'))
  \/ (exists e, m s = (Thrown e, s') /\ r = Thrown e).
Proof.
  unfold bind. destruct (m s) as [[a|e] s1]; intros H.
  - left. eauto.
  - right. exists e. by inversion H.
Qed.

Lemma bind_inv_ok {A B} (m : M A) (k : A -> M B) s b s' :
  bind m k s = (Normal b, s') ->
  exists a s1, m s = (Normal a, s1) /\ k a s1 = (Normal b, s').
Proof.
  intros H. apply bind_inv in H as [H|(e & _ & H)]; [done|discriminate].
Qed.

Lemma bind_ok {A B} (m : M A) (k : A -> M B) s a s1 :
  m s = (Normal a, s1) -> bind m k s = k a s1.
Proof. unfold bind. by intros ->. Qed.

Lemma bind_thrown {A B} (m : M A) (k : A -> M B) s e s1 :
  m s = (Thrown e, s1) -> bind m k s = (Thrown e, s1).
Proof. unfold bind. by intros ->. Qed.

(** A relation between the system before and after that every step of a
    computation respects is respected by the computation. *)
Section Respects.
Context (R : Sys -> Sys -> Prop) `{!PreOrder R}.

Lemma respects_ret {A} (a : A) : respects R (ret a).
Proof. intros s. simpl. reflexivity. Qed.

Lemma respects_throw {A} (e : exn) : respects R (@throw A e).
Proof. intros s. simpl. reflexivity. Qed.

Lemma respects_get {A} (f : LuaContext -> A) : respects R (get f).
Proof. intros s. simpl. reflexivity. Qed.

Lemma respects_lua_read {A} L (f : lua_State -> A) : respects R (lua_read L f).
Proof. intros s. simpl. reflexivity. Qed.

Lemma respects_access path : respects R (access path).
Proof. intros s. simpl. reflexivity. Qed.

Lemma respects_bind {A B} (m : M A) (k : A -> M B) :
  respects R m -> (forall a, respects R (k a)) -> respects R (bind m k).
Proof.
  intros Hm Hk s. unfold bind. specialize (Hm s).
  destruct (m s) as [[a|e] s1]; simpl in *; [|done].
  etransitivity; [exact Hm|apply Hk].
Qed.

Lemma respects_try_catch {A} (m : M A) (h : exn -> M A) :
  respects R m -> (forall e, respects R (h e)) -> respects R (try_catch m h).
Proof.
  intros Hm Hh s. unfold try_catch. specialize (Hm s).
  destruct (m s) as [[a|e] s1]; simpl in *; [done|].
  etransitivity; [exact Hm|apply Hh].
Qed.

Lemma respects_when (b : bool) (m : M unit) :
  respects R m -> respects R (when b m).
Proof. destruct b; [done|]. intros _. apply respects_ret. Qed.

Lemma respects_if {A} (b : bool) (m1 m2 : M A) :
  respects R m1 -> respects R m2 -> respects R (if b then m1 else m2).
Proof. by destruct b. Qed.

Lemma respects_for_each {A} (l : list A) (body : A -> M unit) :
  (forall x, respects R (body x)) -> respects R (for_each l body).
Proof.
  intros Hb. induction l as [|x l IH]; simpl.
  - apply respects_ret.
  - apply respects_bind; [apply Hb|by intros _].
Qed.
End Respects.

(** The temporary context of [init_state] owns nothing: destroying it
    changes nothing. *)
Lemma dtor_wrapper (L : handle) (tb : bool) (s : Sys) :
  on_object (LuaContext_wrap L tb) LuaContext_dtor s = (Normal tt, s).
Proof. by destruct s. Qed.

(** *** What stays as it is while a computation works on one state *)

Global Instance only_touches_preorder P L : PreOrder (only_touches P L).
Proof.
  split.
  - intros s. split; try done. exists []. by rewrite app_nil_r.
  - intros s1 s2 s3 [T1 N1 O1 I1 H1 (e1 & E1 & F1 & C1)]
      [T2 N2 O2 I2 H2 (e2 & E2 & F2 & C2)].
    split; try congruence.
    + intros h Hh. rewrite H2, H1; done.
    + exists (e1 ++ e2). rewrite E2, E1, app_assoc. split; [done|].
      split; [by apply Forall_app|].
      intros Hc Ho. apply C2, C1; try done; set_solver.
Qed.

Lemma touches_lua P L (f : lua_State -> lua_State) :
  respects (only_touches P L) (lua L f).
Proof.
  intros s. split; simpl; try done.
  - intros h Hh. by rewrite lookup_alter_ne.
  - exists []. rewrite app_nil_r. split_and!; try done.
    intros _. by rewrite is_open_store.
Qed.

Lemma touches_lua_call {A} P L (f : Env -> lua_State -> A * lua_State) :
  respects (only_touches P L) (lua_call L f).
Proof.
  intros s. unfold lua_call.
  destruct (f (os (world s)) (state_of (world s) L)) as [a S'].
  split; simpl; try done.
  - intros h Hh. by rewrite lookup_alter_ne.
  - exists []. rewrite app_nil_r. split_and!; try done.
    intros _. by rewrite is_open_store.
Qed.

Lemma touches_log (P : event -> Prop) L (e : event) :
  ev_handle e = L -> P e -> respects (only_touches P L) (log e).
Proof.
  intros He HP s. split; simpl; try done. exists [e]. split_and!; try done.
  by constructor.
Qed.

Lemma touches_close (P : event -> Prop) L :
  P (EvClose L) -> respects (only_touches P L) (lua_close L).
Proof.
  intros HP s. split; simpl; try done.
  - intros h Hh. by rewrite lookup_delete_ne.
  - exists [EvClose L]. split_and!; try done.
    + by constructor.
    + set_solver.
Qed.

Lemma touches_dtor_wrapper P L L' tb :
  respects (only_touches P L) (on_object (LuaContext_wrap L' tb) LuaContext_dtor).
Proof. intros s. rewrite dtor_wrapper. simpl. reflexivity. Qed.

Ltac touches :=
  repeat match goal with
  | |- respects ?R (ret _) => apply (respects_ret R)
  | |- respects ?R (throw _) => apply (respects_throw R)
  | |- respects ?R (get _) => apply (respects_get R)
  | |- respects ?R (lua_read _ _) => apply (respects_lua_read R)
  | |- respects ?R (access _) => apply (respects_access R)
  | |- respects _ (lua _ _) => apply touches_lua
  | |- respects _ (lua_call _ _) => apply touches_lua_call
  | |- respects _ (log _) => apply touches_log; [reflexivity|exact I]
  | |- respects _ (lua_close _) => apply touches_close; exact I
  | |- respects _ (on_object (LuaContext_wrap _ _) LuaContext_dtor) =>
      apply touches_dtor_wrapper
  | |- respects ?R (when _ _) => apply (respects_when R)
  | |- respects ?R (for_each _ _) => apply (respects_for_each R); intro
  | |- respects ?R (try_catch _ _) =>
      apply (respects_try_catch R); [|intro]
  | |- respects ?R (bind _ _) => apply (respects_bind R); [|intro]
  | |- respects _ (match ?x with _ => _ end) => destruct x
  | |- respects _ (let _ := _ in _) => cbv zeta
  end.

Lemma touches_do_string_on (P : event -> Prop) at_ L s :
  (forall rv, P (EvDoString at_ L s rv)) ->
  respects (only_touches P L) (do_string_on at_ L s).
Proof.
  intros HP. unfold do_string_on.
  repeat (apply (respects_bind _); [solve [touches]|intro]).
  apply (respects_bind _); [by apply touches_log|intro]. touches.
Qed.

Lemma touches_do_file_on (P : event -> Prop) L filename :
  (forall err, P (EvDoFile L filename err)) ->
  respects (only_touches P L) (do_file_on L filename).
Proof.
  intros HP. unfold do_file_on.
  apply (respects_bind _); [touches|intros err].
  apply (respects_bind _).
  { destruct (err =? 0); [touches|].
    repeat (apply (respects_bind _); [solve [touches]|intro]).
    apply (respects_bind _); [by apply touches_log|intro]. touches. }
  intros _. repeat (apply (respects_bind _); [solve [touches]|intro]).
  apply (respects_bind _); [by apply touches_log|intro]. touches.
Qed.

Lemma touches_notify_init (P : event -> Prop) w L tb :
  P (EvInit (watcher_id w) L) ->
  respects (only_touches P L) (notify EvInit lua_init w (LuaContext_wrap L tb)).
Proof.
  intros HP. unfold notify.
  apply (respects_bind _); [by apply touches_log|intro]. touches.
Qed.

Lemma touches_notify (P : event -> Prop) ev cb w c L :
  (forall n, ev_handle (ev n L) = L) -> P (ev (watcher_id w) L) -> __L c = L ->
  respects (only_touches P L) (notify ev cb w c).
Proof.
  intros Hev HP <-. unfold notify.
  apply (respects_bind _); [by apply touches_log|intros _]. touches.
Qed.

Lemma touches_init_finish L :
  respects (only_touches init_event L) (init_finish L).
Proof.
  unfold init_finish. cbv zeta.
  apply (respects_bind _); [touches|intros ws].
  apply (respects_bind _).
  { apply (respects_for_each _). intros w.
    apply (respects_try_catch _); [by apply touches_notify_init|intros e].
    touches. }
  intros _. apply (respects_bind _); [touches|intros _].
  apply (respects_bind _); [touches|intros [script|]]; [|touches].
  apply (respects_bind _); [touches|intros []].
  - by apply touches_do_file_on.
  - by apply touches_do_string_on.
Qed.

(** ** Replaying recorded globals *)

Lemma stack_replay_list l S : stack (replay_list l S) = stack S.
Proof.
  revert S. induction l as [|[n v] l IH]; intros S; simpl; [done|].
  unfold replay_list in *. simpl. by rewrite IH, stack_setglobal_push.
Qed.

Lemma global_replay_list_notin l S n :
  n ∉ l.*1 -> global (replay_list l S) n = global S n.
Proof.
  revert S. induction l as [|[n0 v0] l IH]; intros S Hn; [done|].
  simpl in Hn. apply not_elem_of_cons in Hn as [Hne Hn].
  unfold replay_list in *. simpl. rewrite IH by done.
  by apply global_setglobal_push_ne.
Qed.

Lemma global_replay_list_in l S n v :
  NoDup l.*1 -> (n, v) ∈ l -> global (replay_list l S) n = v.
Proof.
  revert S. induction l as [|[n0 v0] l IH]; intros S Hnd Hin.
  - by apply elem_of_nil in Hin.
  - simpl in Hnd. apply NoDup_cons in Hnd as [Hn0 Hnd].
    apply elem_of_cons in Hin as [Heq|Hin].
    + inversion Heq; subst n0 v0.
      change (replay_list ((n, v) :: l) S)
        with (replay_list l (lua_setglobal n (push v S))).
      rewrite global_replay_list_notin by done.
      apply global_setglobal_push.
    + change (replay_list ((n0, v0) :: l) S)
        with (replay_list l (lua_setglobal n0 (push v0 S))).
      by apply IH.
Qed.

(** A loop whose body pushes a value and pops it into a global, on an open
    state, replays the list of what it pushes. *)
Lemma for_each_set_globals {A} (L : handle) (l : list A) (body : A -> M unit)
    (nv : A -> string * value) (s : Sys) :
  (forall x s, body x s
     = (lua L (push (nv x).2) ;; lua L (lua_setglobal (nv x).1)) s) ->
  is_open (world s) L ->
  for_each l body s
  = (Normal tt,
     mkSys (this s)
       (store_state L (replay_list (nv <$> l) (state_of (world s) L))
          (world s))).
Proof.
  intros Hbody. revert s. induction l as [|x l IH]; intros [c w] Hopen; simpl.
  - f_equal. f_equal. unfold store_state, set_lua_states. simpl.
    destruct w as [st ? ? ? ?]; simpl. f_equal.
    apply map_eq. intros h. destruct Hopen as [S0 HS0]. simpl in HS0.
    unfold state_of. simpl.
    destruct (decide (L = h)) as [->|Hne].
    + by rewrite lookup_alter_eq, HS0.
    + by rewrite lookup_alter_ne.
  - unfold bind at 1. rewrite Hbody. simpl in *.
    rewrite IH; simpl.
    + rewrite !state_of_store by (by rewrite ?is_open_store).
      by rewrite !store_store.
    + by rewrite !is_open_store.
Qed.

(** *** A computation that returned *)

Lemma went_refl L s : went L [] s s.
Proof. split; [reflexivity|by rewrite app_nil_r]. Qed.

Lemma went_trans L e1 e2 s1 s2 s3 :
  went L e1 s1 s2 -> went L e2 s2 s3 -> went L (e1 ++ e2) s1 s3.
Proof.
  intros [T1 E1] [T2 E2]. split; [by etransitivity|].
  by rewrite E2, E1, app_assoc.
Qed.

Lemma went_open L evs s s' :
  went L evs s s' -> EvClose L ∉ evs ->
  is_open (world s) L -> is_open (world s') L.
Proof.
  intros [[_ _ _ _ _ (evs' & E' & _ & Ho)] E] Hc. rewrite E in E'.
  apply app_inv_head in E'. subst evs'. by apply Ho.
Qed.

Lemma went_other L evs s s' h :
  went L evs s s' -> h ≠ L ->
  lua_states (world s') !! h = lua_states (world s) !! h.
Proof. intros [T _] Hh. by apply T. Qed.

Lemma went_this L evs s s' : went L evs s s' -> this s' = this s.
Proof. intros [T _]. apply T. Qed.

Lemma went_quiet {A} L (m : M A) s r s' :
  respects (only_touches (fun _ => True) L) m ->
  m s = (r, s') -> trace (world s') = trace (world s) -> went L [] s s'.
Proof.
  intros Hm Heq Htr. split; [|by rewrite app_nil_r].
  specialize (Hm s). by rewrite Heq in Hm.
Qed.

Lemma lua_went L f s r s' : lua L f s = (r, s') -> went L [] s s'.
Proof.
  intros H. eapply went_quiet; [apply touches_lua|exact H|].
  by inversion H.
Qed.

Lemma lua_call_went {A} L (f : Env -> lua_State -> A * lua_State) s r s' :
  lua_call L f s = (r, s') -> went L [] s s'.
Proof.
  intros H. eapply went_quiet; [apply touches_lua_call|exact H|].
  unfold lua_call in H.
  destruct (f (os (world s)) (state_of (world s) L)). by inversion H.
Qed.

Lemma log_went L e s r s' :
  ev_handle e = L -> log e s = (r, s') -> went L [e] s s'.
Proof.
  intros He H. split.
  - pose proof (touches_log (fun _ => True) L e He I s) as Hm. by rewrite H in Hm.
  - by inversion H.
Qed.

(** Taking a computation that returned apart, one step at a time. *)
Tactic Notation "step" hyp(H) "as" ident(a) ident(s) ident(Hm) :=
  apply bind_inv_ok in H as (a & s & Hm & H); cbv beta in H;
  match type of a with unit => destruct a | _ => idtac end.

(** The same when the step only reads. *)
Tactic Notation "step_get" hyp(H) :=
  let a := fresh "a" in
  let s := fresh "s" in
  let Hm := fresh "Hm" in
  apply bind_inv_ok in H as (a & s & Hm & H); cbv beta in H;
  inversion Hm; subst a s; clear Hm.

Lemma do_string_on_went at_ L str s s' :
  do_string_on at_ L str s = (Normal tt, s') ->
  went L [EvDoString at_ L str 0] s s'.
Proof.
  intros H. split.
  { pose proof (touches_do_string_on (fun _ => True) at_ L str (fun _ => I) s) as Hm. by rewrite H in Hm. }
  unfold do_string_on in H. step_get H. step H as r1 s1 H1.
  apply lua_call_went in H1 as [_ E1]. rewrite app_nil_r in E1.
  step H as rv s2 H2.
  assert (trace (world s2) = trace (world s1)) as E2.
  { destruct (r1 =? 0).
    - step H2 as r2 s3 H3. apply lua_call_went in H3 as [_ E].
      rewrite app_nil_r in E. by inversion H2; subst.
    - by inversion H2. }
  step H as u s3 H3. inversion H3; subst s3; clear H3. simpl in *.
  destruct (rv =? 0) eqn:Hrv.
  - inversion H; subst. simpl. apply Z.eqb_eq in Hrv. subst rv.
    by rewrite E2, E1.
  - step H as m s4 H4. step H as u s5 H5. discriminate.
Qed.

Lemma for_each_do_string_went {A} at_ L (mk : A -> string) l s s' :
  for_each l (fun x => do_string_on at_ L (mk x)) s = (Normal tt, s') ->
  went L (map (fun x => EvDoString at_ L (mk x) 0) l) s s'.
Proof.
  revert s. induction l as [|x l IH]; intros s H; simpl in *.
  - inversion H. apply went_refl.
  - step H as u s1 Hm. apply do_string_on_went in Hm. apply IH in H.
    exact (went_trans _ _ _ _ _ _ Hm H).
Qed.

Global Instance same_trace_preorder : PreOrder same_trace.
Proof. split; unfold same_trace; [done|congruence]. Qed.

Lemma quiet_lua L f : respects same_trace (lua L f).
Proof. by intros s. Qed.

Lemma quiet_lua_call {A} L (f : Env -> lua_State -> A * lua_State) :
  respects same_trace (lua_call L f).
Proof.
  intros s. unfold lua_call.
  by destruct (f (os (world s)) (state_of (world s) L)).
Qed.

Lemma when_went L (b : bool) (m : M unit) s r s' :
  respects (only_touches (fun _ => True) L) m -> respects same_trace m ->
  when b m s = (r, s') -> went L [] s s'.
Proof.
  intros Ht Hq H. eapply went_quiet; [by apply (respects_when _)|exact H|].
  pose proof (respects_when _ b m Hq s) as Hs. by rewrite H in Hs.
Qed.

Lemma store_went L X s :
  went L [] s (mkSys (this s) (store_state L X (world s))).
Proof. by apply (lua_went L (fun _ => X) s (Normal tt)). Qed.

Lemma close_not_in_map {A} L (f : A -> event) (l : list A) :
  (forall x, f x ≠ EvClose L) -> EvClose L ∉ map f l.
Proof.
  intros Hf Hin. apply list_elem_of_fmap in Hin as (x & Hx & _).
  by apply (Hf x).
Qed.

(** [init_state] up to the callbacks, when it returns. *)
Lemma init_replay_ok s L s_r :
  init_replay s = (Normal L, s_r) ->
  L = next_state (world s)
  /\ this s_r = this s
  /\ next_state (world s_r) = S L
  /\ os (world s_r) = os (world s)
  /\ inotify (world s_r) = inotify (world s)
  /\ (forall h, h ≠ L ->
        lua_states (world s_r) !! h = lua_states (world s) !! h)
  /\ trace (world s_r) = trace (world s) ++ replay_trace (this s) L
  /\ is_open (world s_r) L
  /\ exists S_p, state_of (world s_r) L = replay_maps (this s) S_p.
Proof.
  intros H. unfold init_replay in H.
  step H as L0 s0 H0. unfold luaL_newstate in H0. simpl in H0.
  inversion H0. subst L0 s0. clear H0.
  remember (next_state (world s)) as L0 eqn:HL0.
  remember (mkSys (this s)
             (mkWorld (<[L0 := empty_state]> (lua_states (world s))) (S L0)
                (os (world s)) (inotify (world s))
                (trace (world s) ++ [EvNewState L0]))) as s0 eqn:Hs0.
  assert (is_open (world s0) L0) as Hopen0.
  { subst s0. unfold is_open. simpl. by rewrite lookup_insert_eq. }
  step H as u s1 H1. apply lua_went in H1 as W1.
  step_get H.
  step H as u s2 H2. apply when_went with (L := L0) in H2 as W2; [|touches|].
  2:{ repeat (apply (respects_bind _); [|intro]); apply quiet_lua. }
  step_get H. step H as u s3 H3. apply for_each_do_string_went in H3 as W3.
  step_get H. step H as u s4 H4. apply for_each_do_string_went in H4 as W4.
  step_get H. step H as u s5 H5. apply for_each_do_string_went in H5 as W5.
  pose proof (went_trans _ _ _ _ _ _ W1
    (went_trans _ _ _ _ _ _ W2
      (went_trans _ _ _ _ _ _ W3 (went_trans _ _ _ _ _ _ W4 W5)))) as W.
  simpl in W.
  rewrite (went_this _ _ _ _ W4), (went_this _ _ _ _ W3),
    (went_this _ _ _ _ W2), (went_this _ _ _ _ W1) in W.
  assert (this s5 = this s0) as Hthis by apply (went_this _ _ _ _ W).
  assert (is_open (world s5) L0) as Hopen5.
  { eapply went_open; [exact W| |exact Hopen0].
    rewrite !not_elem_of_app.
    split_and!; try (by apply not_elem_of_nil);
      by apply close_not_in_map. }
  clear H1 H2 H3 H4 H5 W1 W2 W3 W4 W5.
  (* the six maps *)
  step_get H. step H as u s6 H6.
  rewrite (for_each_set_globals L0 _ _
             (fun x => (x.1, usertype_value x.2.1 x.2.2))) in H6;
    [|by intros [n [d t]] ?|done].
  inversion H6; subst s6; clear H6.
  step_get H. step H as u s6 H6.
  rewrite (for_each_set_globals L0 _ _ (fun x => (x.1, VString x.2))) in H6;
    [|by intros [n v] ?|by (simpl; rewrite !is_open_store)].
  inversion H6; subst s6; clear H6.
  step_get H. step H as u s6 H6.
  rewrite (for_each_set_globals L0 _ _ (fun x => (x.1, VBoolean x.2))) in H6;
    [|by intros [n []] ?|by (simpl; rewrite !is_open_store)].
  inversion H6; subst s6; clear H6.
  step_get H. step H as u s6 H6.
  rewrite (for_each_set_globals L0 _ _ (fun x => (x.1, VNumber x.2))) in H6;
    [|by intros [n v] ?|by (simpl; rewrite !is_open_store)].
  inversion H6; subst s6; clear H6.
  step_get H. step H as u s6 H6.
  rewrite (for_each_set_globals L0 _ _ (fun x => (x.1, VInteger x.2))) in H6;
    [|by intros [n v] ?|by (simpl; rewrite !is_open_store)].
  inversion H6; subst s6; clear H6.
  step_get H. step H as u s6 H6.
  rewrite (for_each_set_globals L0 _ _ (fun x => (x.1, VCFunction x.2))) in H6;
    [|by intros [n v] ?|by (simpl; rewrite !is_open_store)].
  inversion H6; subst s6; clear H6.
  inversion H; subst L s_r; clear H. simpl.
  rewrite !state_of_store by (by rewrite ?is_open_store).
  destruct W as [[T N O I Hoth _] E]. simpl in *.
  rewrite Hthis. subst s0. simpl in *.
  split_and!; try done.
  - intros h Hh. rewrite !lookup_alter_ne by done. rewrite Hoth by done.
    by rewrite lookup_insert_ne.
  - rewrite E. unfold replay_trace. by rewrite <- app_assoc.
  - by rewrite !is_open_store.
  - by exists (state_of (world s5) L0).
Qed.

(** *** What the replayed globals are *)

Lemma has_true {V} (m : gmap string V) name :
  has m name = true <-> is_Some (m !! name).
Proof. unfold has. by rewrite bool_decide_eq_true. Qed.

Lemma has_false {V} (m : gmap string V) name :
  has m name = false <-> m !! name = None.
Proof.
  unfold has. rewrite bool_decide_eq_false. by rewrite eq_None_not_Some.
Qed.

Section Entries.
Context {V : Type} (g : string * V -> value) (m : gmap string V).

Lemma entries_fst : (entries g m).*1 = (map_to_list m).*1.
Proof.
  unfold entries. rewrite <- list_fmap_compose. by apply list_fmap_ext.
Qed.

Lemma entries_NoDup : NoDup (entries g m).*1.
Proof. rewrite entries_fst. apply NoDup_fst_map_to_list. Qed.

Lemma entries_in name x : m !! name = Some x -> (name, g (name, x)) ∈ entries g m.
Proof.
  intros Hx. unfold entries. apply list_elem_of_fmap.
  exists (name, x). split; [done|]. by apply elem_of_map_to_list.
Qed.

Lemma entries_notin name : m !! name = None -> name ∉ (entries g m).*1.
Proof.
  intros Hx. rewrite entries_fst. intros Hin.
  apply list_elem_of_fmap in Hin as ([n x] & -> & Hin).
  apply elem_of_map_to_list in Hin. simpl in *. congruence.
Qed.

Lemma global_replay_entries_in S name x :
  m !! name = Some x ->
  global (replay_list (entries g m) S) name = g (name, x).
Proof.
  intros Hx. apply global_replay_list_in; [apply entries_NoDup|].
  by apply entries_in.
Qed.

Lemma global_replay_entries_notin S name :
  m !! name = None ->
  global (replay_list (entries g m) S) name = global S name.
Proof. intros Hx. by apply global_replay_list_notin, entries_notin. Qed.
End Entries.

Lemma unique_names_absent c name k1 k2 :
  unique_names c -> recorded k1 c name = true -> k1 ≠ k2 ->
  recorded k2 c name = false.
Proof.
  intros Hu H1 Hne. destruct (recorded k2 c name) eqn:H2; [|done].
  by destruct Hne; apply (Hu name).
Qed.

Lemma records_recorded c name v :
  records c name v -> exists k, recorded k c name = true.
Proof.
  intros [d t H|x H|x H|x H|x H|x H];
    [exists KUsertype|exists KString|exists KBoolean|exists KNumber
    |exists KInteger|exists KCFunction];
    simpl; by apply has_true.
Qed.

(** When no name is recorded twice, the globals that replaying the maps
    sets are the recorded ones. *)
Lemma global_replay_maps c S name v :
  unique_names c -> records c name v ->
  global (replay_maps c S) name = v.
Proof.
  intros Hu Hrec. unfold replay_maps, cfunction_entries, integer_entries,
    number_entries, boolean_entries, string_entries, usertype_entries.
  assert (forall k1 k2, recorded k1 c name = true -> k1 ≠ k2 ->
            recorded k2 c name = false) as Habs
    by (intros; by eapply unique_names_absent).
  assert (forall k, recorded k c name = true ->
    (k ≠ KUsertype -> __usertypes c !! name = None)
    /\ (k ≠ KString -> __strings c !! name = None)
    /\ (k ≠ KBoolean -> __booleans c !! name = None)
    /\ (k ≠ KNumber -> __numbers c !! name = None)
    /\ (k ≠ KInteger -> __integers c !! name = None)
    /\ (k ≠ KCFunction -> __cfunctions c !! name = None)) as Hnone.
  { intros k Hk. split_and!; intros Hne; apply has_false;
      by apply (Habs k _ Hk Hne). }
  destruct Hrec as [d t H|x H|x H|x H|x H|x H].
  - destruct (Hnone KUsertype) as (_ & A1 & A2 & A3 & A4 & A5);
      [by apply has_true|].
    rewrite (global_replay_entries_notin (fun x => VCFunction x.2)) by auto.
    rewrite (global_replay_entries_notin (fun x => VInteger x.2)) by auto.
    rewrite (global_replay_entries_notin (fun x => VNumber x.2)) by auto.
    rewrite (global_replay_entries_notin (fun x => VBoolean x.2)) by auto.
    rewrite (global_replay_entries_notin (fun x => VString x.2)) by auto.
    by rewrite (global_replay_entries_in
                  (fun x => usertype_value x.2.1 x.2.2) _ _ name (d, t)).
  - destruct (Hnone KString) as (_ & _ & A2 & A3 & A4 & A5);
      [by apply has_true|].
    rewrite (global_replay_entries_notin (fun x => VCFunction x.2)) by auto.
    rewrite (global_replay_entries_notin (fun x => VInteger x.2)) by auto.
    rewrite (global_replay_entries_notin (fun x => VNumber x.2)) by auto.
    rewrite (global_replay_entries_notin (fun x => VBoolean x.2)) by auto.
    by rewrite (global_replay_entries_in (fun x => VString x.2) _ _ name x).
  - destruct (Hnone KBoolean) as (_ & _ & _ & A3 & A4 & A5);
      [by apply has_true|].
    rewrite (global_replay_entries_notin (fun x => VCFunction x.2)) by auto.
    rewrite (global_replay_entries_notin (fun x => VInteger x.2)) by auto.
    rewrite (global_replay_entries_notin (fun x => VNumber x.2)) by auto.
    by rewrite (global_replay_entries_in (fun x => VBoolean x.2) _ _ name x).
  - destruct (Hnone KNumber) as (_ & _ & _ & _ & A4 & A5);
      [by apply has_true|].
    rewrite (global_replay_entries_notin (fun x => VCFunction x.2)) by auto.
    rewrite (global_replay_entries_notin (fun x => VInteger x.2)) by auto.
    by rewrite (global_replay_entries_in (fun x => VNumber x.2) _ _ name x).
  - destruct (Hnone KInteger) as (_ & _ & _ & _ & _ & A5);
      [by apply has_true|].
    rewrite (global_replay_entries_notin (fun x => VCFunction x.2)) by auto.
    by rewrite (global_replay_entries_in (fun x => VInteger x.2) _ _ name x).
  - by rewrite (global_replay_entries_in (fun x => VCFunction x.2) _ _ name x).
Qed.

(** ** Callbacks *)

Lemma notify_went ev cb w c s r s' :
  (forall n L, ev_handle (ev n L) = L) ->
  notify ev cb w c s = (r, s') ->
  went (__L c) [ev (watcher_id w) (__L c)] s s'.
Proof.
  intros Hev H. split.
  - pose proof (touches_notify (fun _ => True) ev cb w c (__L c)
                  (fun n => Hev n _) I eq_refl s) as Hm.
    by rewrite H in Hm.
  - unfold notify, bind, log, update_world, lua_call in H. simpl in H.
    destruct (cb w _) as [[e|] S']; by inversion H.
Qed.

(** The loops of [restart] and of the destructor: every watcher is called,
    whatever the ones before it did. *)
Lemma for_each_swallow ev cb ws s :
  (forall n L, ev_handle (ev n L) = L) ->
  exists s',
    for_each ws (fun w =>
      c <- get id ;;
      try_catch (notify ev cb w c) (fun _ => ret tt)) s = (Normal tt, s')
    /\ went (__L (this s)) (map (fun w => ev (watcher_id w) (__L (this s))) ws)
         s s'.
Proof.
  intros Hev. revert s. induction ws as [|w ws IH]; intros s; simpl.
  - exists s. split; [done|apply went_refl].
  - unfold bind at 1. unfold bind at 1. simpl. unfold try_catch.
    destruct (notify ev cb w (this s) s) as [r s1] eqn:Hn.
    apply notify_went in Hn as W; [|done].
    destruct (IH s1) as (s' & Hs' & W').
    rewrite (went_this _ _ _ _ W) in W'.
    exists s'. split.
    + by destruct r.
    + exact (went_trans _ _ _ _ _ _ W W').
Qed.

(** The loop of [init_state], when it returns. *)
Lemma for_each_init_ok L tb ws s s' :
  for_each ws (fun w =>
    try_catch (notify EvInit lua_init w (LuaContext_wrap L tb))
      (fun e =>
         on_object (LuaContext_wrap L tb) LuaContext_dtor ;;
         lua_close L ;;
         throw e)) s = (Normal tt, s') ->
  went L (init_events ws L) s s'.
Proof.
  revert s. induction ws as [|w ws IH]; intros s H; simpl in *.
  - inversion H. apply went_refl.
  - step H as u s1 H1. unfold try_catch in H1.
    destruct (notify EvInit lua_init w (LuaContext_wrap L tb) s)
      as [[[]|e] s2] eqn:Hn.
    + inversion H1; subst s2. apply notify_went in Hn; [|done].
      exact (went_trans _ _ _ _ _ _ Hn (IH _ H)).
    + rewrite (bind_ok _ _ _ tt s2) in H1 by apply dtor_wrapper.
      discriminate.
Qed.

Lemma do_file_on_went L filename s s' :
  do_file_on L filename s = (Normal tt, s') ->
  exists pre, went L (pre ++ [EvDoFile L filename 0]) s s'
    /\ Forall (fun e => exists err, e = EvDoFile L filename err) pre.
Proof.
  intros H.
  assert (only_touches (fun _ => True) L s s') as T.
  { pose proof (touches_do_file_on (fun _ => True) L filename (fun _ => I) s)
      as Hm. by rewrite H in Hm. }
  unfold do_file_on in H. step H as err s1 H1.
  apply lua_call_went in H1 as [_ E1]. rewrite app_nil_r in E1.
  step H as u s2 H2.
  assert (exists pre, trace (world s2) = trace (world s1) ++ pre
            /\ Forall (fun e => exists err, e = EvDoFile L filename err) pre)
    as (pre & E2 & Hpre).
  { destruct (err =? 0).
    - inversion H2; subst. exists []. by rewrite app_nil_r.
    - step H2 as msg s3 H3. inversion H3; subst msg s3; clear H3.
      step H2 as u s3 H3. inversion H3; subst s3; clear H3.
      step H2 as u s3 H3. inversion H3; subst s3; clear H3.
      simpl in H2.
      destruct (err =? LUA_ERRSYNTAX); [discriminate|].
      destruct (err =? LUA_ERRMEM); [discriminate|].
      destruct (err =? LUA_ERRFILE); [discriminate|].
      inversion H2; subst s2. simpl. exists [EvDoFile L filename err].
      split; [done|]. constructor; [by eexists|constructor]. }
  step_get H. step H as err2 s3 H3.
  apply lua_call_went in H3 as [_ E3]. rewrite app_nil_r in E3.
  step H as u s4 H4. inversion H4; subst s4; clear H4.
  destruct (err2 =? 0) eqn:Herr2.
  - inversion H; subst s'. apply Z.eqb_eq in Herr2. subst err2.
    exists pre. split; [|done]. split; [done|].
    simpl. by rewrite E3, E2, E1, <- app_assoc.
  - step H as msg s4 H4. step H as u s5 H5.
    destruct (err2 =? LUA_ERRRUN); [discriminate|].
    destruct (err2 =? LUA_ERRMEM); [discriminate|].
    destruct (err2 =? LUA_ERRERR); discriminate.
Qed.

(** [init_state] from the callbacks on, when it returns. *)
Lemma init_finish_ok L s s' :
  init_finish L s = (Normal tt, s') ->
  exists sevs,
    went L (init_events (__watchers (this s)) L ++ sevs) s s'
    /\ start_events (this s) (os (world s)) L sevs.
Proof.
  intros H. unfold init_finish in H. cbv zeta in H.
  step_get H. step H as u s1 H1. apply for_each_init_ok in H1 as W1.
  rewrite (bind_ok _ _ _ tt s1) in H by apply dtor_wrapper.
  step_get H.
  pose proof (went_this _ _ _ _ W1) as Hthis.
  assert (os (world s1) = os (world s)) as Hos by apply W1.
  unfold start_events. rewrite Hthis in H.
  destruct (__start_script (this s)) as [script|].
  - step H as readable s2 H2. inversion H2; subst readable s2; clear H2.
    rewrite Hos in H. unfold start_script_events.
    destruct (access_R_OK (os (world s)) script).
    + apply do_file_on_went in H as (pre & W2 & Hpre).
      exists (pre ++ [EvDoFile L script 0]). split; [|by exists pre].
      exact (went_trans _ _ _ _ _ _ W1 W2).
    + apply do_string_on_went in H as W2. eexists. split; [|done].
      exact (went_trans _ _ _ _ _ _ W1 W2).
  - inversion H; subst s'. exists []. split; [|done].
    by rewrite app_nil_r.
Qed.

(** ** [init_state] and [restart] *)

Lemma start_events_no_close c E L evs h :
  start_events c E L evs -> EvClose h ∉ evs.
Proof.
  unfold start_events, start_script_events.
  destruct (__start_script c) as [script|]; [|intros ->; apply not_elem_of_nil].
  destruct (access_R_OK E script).
  - intros (pre & -> & Hpre). rewrite not_elem_of_app. split.
    + intros Hin. rewrite Forall_forall in Hpre.
      destruct (Hpre _ Hin) as [err Herr]. discriminate.
    + by intros ?%list_elem_of_singleton.
  - intros ->. by intros ?%list_elem_of_singleton.
Qed.

Lemma init_state_ok s L s1 :
  init_state s = (Normal L, s1) ->
  exists s_r sevs,
    init_replay s = (Normal L, s_r)
    /\ L = next_state (world s)
    /\ this s1 = this s
    /\ next_state (world s1) = S L
    /\ os (world s1) = os (world s)
    /\ inotify (world s1) = inotify (world s)
    /\ (forall h, h ≠ L ->
          lua_states (world s1) !! h = lua_states (world s) !! h)
    /\ trace (world s1)
       = trace (world s) ++ replay_trace (this s) L
           ++ init_events (__watchers (this s)) L ++ sevs
    /\ start_events (this s) (os (world s)) L sevs
    /\ is_open (world s1) L
    /\ (exists S_p, state_of (world s_r) L = replay_maps (this s) S_p).
Proof.
  intros H. unfold init_state in H.
  step H as L0 s_r Hr. step H as u s2 Hf. inversion H; subst L0 s2; clear H.
  apply init_replay_ok in Hr as Hr'.
  destruct Hr' as (HL & Hthis & Hnext & Hos & Hino & Hoth & Htr & Hopen & HS).
  apply init_finish_ok in Hf as (sevs & W & Hsevs).
  rewrite Hthis, Hos in *.
  exists s_r, sevs.
  pose proof W as [[T1 N1 O1 I1 Ho1 _] E].
  split_and!; try congruence.
  - intros h Hh. by rewrite Ho1, Hoth.
  - by rewrite E, Htr, <- app_assoc.
  - eapply went_open; [exact W| |done].
    rewrite not_elem_of_app. split.
    + by apply close_not_in_map.
    + by eapply start_events_no_close.
Qed.

(** What [init_state] leaves alone, however it ends. *)
Lemma init_replay_frame s r s' :
  init_replay s = (r, s') ->
  only_touches init_event (next_state (world s)) (luaL_newstate s).2 s'
  /\ forall L, r = Normal L -> L = next_state (world s).
Proof.
  intros H. unfold init_replay in H.
  apply bind_inv in H as [(L0 & s0 & H0 & H)|(e & H0 & _)];
    [|by inversion H0].
  cbv beta in H. unfold luaL_newstate in *. simpl in *.
  inversion H0; subst L0 s0; clear H0. split.
  - match type of H with ?m ?s0 = _ =>
      assert (respects (only_touches init_event (next_state (world s))) m)
        as Hm; [|specialize (Hm s0); by rewrite H in Hm]
    end.
    repeat (apply (respects_bind _); [solve [touches]|intro]).
    apply (respects_bind _).
    { apply (respects_for_each _). intro. by apply touches_do_string_on. }
    intro. apply (respects_bind _); [touches|intro].
    apply (respects_bind _).
    { apply (respects_for_each _). intro. by apply touches_do_string_on. }
    intro. apply (respects_bind _); [touches|intro].
    apply (respects_bind _).
    { apply (respects_for_each _). intro. by apply touches_do_string_on. }
    intro. touches.
  - intros L ->. repeat (apply bind_inv_ok in H as (? & ? & _ & H)).
    by inversion H.
Qed.

Lemma init_state_frame s r s1 :
  init_state s = (r, s1) ->
  let L := next_state (world s) in
  this s1 = this s
  /\ next_state (world s1) = S L
  /\ os (world s1) = os (world s)
  /\ inotify (world s1) = inotify (world s)
  /\ (forall h, h ≠ L ->
        lua_states (world s1) !! h = lua_states (world s) !! h)
  /\ exists evs, trace (world s1) = trace (world s) ++ EvNewState L :: evs
       /\ Forall (fun e => ev_handle e = L /\ init_event e) evs.
Proof.
  intros H. cbv zeta. unfold init_state in H.
  assert (only_touches init_event (next_state (world s))
            (luaL_newstate s).2 s1) as T.
  { apply bind_inv in H as [(L0 & s0 & H0 & H)|(e & H0 & _)].
    - apply init_replay_frame in H0 as [T0 HL]. specialize (HL _ eq_refl).
      subst L0. etransitivity; [exact T0|].
      pose proof (touches_init_finish (next_state (world s)) s0) as Hf.
      apply bind_inv in H as [(u & s2 & H2 & H)|(e & H2 & _)].
      + rewrite H2 in Hf. by inversion H; subst.
      + by rewrite H2 in Hf.
    - by apply init_replay_frame in H0 as [T0 _]. }
  destruct T as [T N O I Hoth (evs & E & F & _)].
  unfold luaL_newstate in *. simpl in *. split_and!; try done.
  - intros h Hh. rewrite Hoth by done. by rewrite lookup_insert_ne.
  - exists evs. by rewrite E, <- app_assoc.
Qed.

Lemma bind_get {A B} (f : LuaContext -> A) (k : A -> M B) s :
  bind (get f) k s = k (f (this s)) s.
Proof. done. Qed.

Lemma bind_update_this {B} (f : LuaContext -> LuaContext) (k : unit -> M B) s :
  bind (update_this f) k s = k tt (mkSys (f (this s)) (world s)).
Proof. done. Qed.

Lemma bind_update_world {B} (f : World -> World) (k : unit -> M B) s :
  bind (update_world f) k s = k tt (mkSys (this s) (f (world s))).
Proof. done. Qed.

Lemma try_catch_ok {A} (m : M A) (h : exn -> M A) s a s' :
  m s = (Normal a, s') -> try_catch m h s = (Normal a, s').
Proof. unfold try_catch. by intros ->. Qed.

(** A restart whose [init_state] throws ends there. *)
Lemma restart_failed s e s1 :
  init_state s = (Thrown e, s1) -> restart s = (Normal tt, s1).
Proof.
  intros H. unfold restart, try_catch.
  by rewrite (bind_thrown _ _ _ e s1 H).
Qed.

(** A restart whose [init_state] returns goes on to the end, whatever the
    callbacks do. *)
Lemma restart_ok s L s1 :
  init_state s = (Normal L, s1) ->
  let old := __L (this s) in
  let ws := __watchers (this s) in
  exists s2 s3,
    restart s = (Normal tt, s3)
    /\ went old (finalize_events ws old) s1 s2
    /\ went L (restarted_events ws L)
         (mkSys (set___L L (this s)) (world_close old (world s2))) s3.
Proof.
  intros H old ws. subst old ws.
  pose proof (init_state_frame _ _ _ H) as (Hthis & _).
  destruct (for_each_swallow EvFinalize lua_finalize (__watchers (this s1)) s1)
    as (s2 & H2 & W2); [done|].
  destruct (for_each_swallow EvRestarted lua_restarted (__watchers (this s1))
              (mkSys (set___L L (this s2))
                 (world_close (__L (this s1)) (world s2))))
    as (s3 & H3 & W3); [done|].
  exists s2, s3. rewrite (went_this _ _ _ _ W2), Hthis in *.
  split_and!; try done.
  unfold restart. apply try_catch_ok. rewrite (bind_ok _ _ _ _ _ H).
  rewrite bind_get, bind_get, Hthis. rewrite (bind_ok _ _ _ _ _ H2).
  unfold lua_close. rewrite bind_update_this, bind_update_world. simpl.
  rewrite (went_this _ _ _ _ W2), Hthis. exact H3.
Qed.


(** ** What holds of every reachable system *)

Lemma list_ascii_of_string_app s1 s2 :
  list_ascii_of_string (s1 +:+ s2)
  = list_ascii_of_string s1 ++ list_ascii_of_string s2.
Proof. induction s1 as [|a s1 IH]; simpl; [done|]. by rewrite IH. Qed.

Lemma string_app_inv_tail s1 s2 t : s1 +:+ t = s2 +:+ t -> s1 = s2.
Proof.
  intros H. apply (f_equal list_ascii_of_string) in H.
  rewrite !list_ascii_of_string_app in H. apply app_inv_tail in H.
  apply (f_equal string_of_list_ascii) in H.
  by rewrite !string_of_list_ascii_of_string in H.
Qed.

Lemma require_chunk_inj p q : require_chunk p = require_chunk q -> p = q.
Proof.
  unfold require_chunk. intros H.
  apply (inj (String.app _)) in H. apply (inj (String.app _)) in H.
  by apply string_app_inv_tail in H.
Qed.

Lemma package_loads_app tr1 tr2 L p :
  package_loads (tr1 ++ tr2) L p
  = (package_loads tr1 L p + package_loads tr2 L p)%nat.
Proof. unfold package_loads. by rewrite filter_app, length_app. Qed.

Lemma package_loads_none tr L p :
  Forall (fun e => e ≠ EvDoString AtPackage L (require_chunk p) 0) tr ->
  package_loads tr L p = 0%nat.
Proof.
  unfold package_loads. induction 1 as [|e tr He _ IH]; [done|].
  rewrite filter_cons. by destruct (decide _).
Qed.

Lemma package_loads_other_handle tr L L' p :
  Forall (fun e => ev_handle e = L') tr -> L ≠ L' ->
  package_loads tr L p = 0%nat.
Proof.
  intros Htr Hne. apply package_loads_none.
  eapply Forall_impl; [exact Htr|]. intros e He ->. by apply Hne.
Qed.

Lemma package_loads_host tr L L' p :
  Forall (fun e => ev_handle e = L' /\ host_event e) tr ->
  package_loads tr L p = 0%nat.
Proof.
  intros Htr. apply package_loads_none.
  eapply Forall_impl; [exact Htr|]. by intros e [_ He] ->.
Qed.

(** The loads of the package loop of [init_state]. *)
Lemma package_loads_packages L p (pkgs : list string) :
  NoDup pkgs ->
  package_loads
    (map (fun q => EvDoString AtPackage L (require_chunk q) 0) pkgs) L p
  = if bool_decide (p ∈ pkgs) then 1%nat else 0%nat.
Proof.
  induction 1 as [|q pkgs Hq Hnd IH]; [done|].
  unfold package_loads in *. simpl. rewrite filter_cons.
  destruct (decide (EvDoString AtPackage L (require_chunk q) 0
                    = EvDoString AtPackage L (require_chunk p) 0)) as [Heq|Hne].
  - assert (q = p) as -> by (apply require_chunk_inj; congruence).
    simpl. rewrite IH. rewrite bool_decide_eq_false_2 by done.
    rewrite bool_decide_eq_true_2; [done|apply list_elem_of_here].
  - rewrite IH.
    assert (bool_decide (p ∈ q :: pkgs) = bool_decide (p ∈ pkgs)) as ->;
      [|done].
    apply bool_decide_ext. rewrite elem_of_cons.
    split; [|by right]. intros [->|?]; [by destruct Hne|done].
Qed.

Lemma wf_same_core c c' w :
  same_core c c' -> well_formed (mkSys c w) -> well_formed (mkSys c' w).
Proof.
  intros (HL & Hp & Hrec) [F O U N T Lo]; simpl in *.
  split; simpl; rewrite ?HL, ?Hp; try done.
  intros name k1 k2. rewrite !Hrec. apply U.
Qed.

(** Calls that work on the state of the context keep it well formed. *)
Lemma wf_touches s s' :
  well_formed s -> only_touches host_event (__L (this s)) s s' ->
  well_formed s'.
Proof.
  intros [F O U N T Lo] [Hthis Hnext _ _ _ (evs & E & Hevs & Hopen)].
  split; rewrite ?Hthis, ?Hnext; try done.
  - apply Hopen; [|done]. intros Hin. rewrite Forall_forall in Hevs.
    by destruct (Hevs _ Hin) as [_ ?].
  - rewrite E. apply Forall_app. split; [done|].
    eapply Forall_impl; [exact Hevs|]. intros e [-> _]. done.
  - intros p. rewrite E, package_loads_app, Lo.
    by rewrite (package_loads_host evs _ (__L (this s))), Nat.add_0_r.
Qed.

(** *** [assert_unique_name] *)

Lemma assert_unique_name_state name type s :
  (assert_unique_name name type s).2 = s.
Proof.
  unfold assert_unique_name, bind, get, when, throw, ret. simpl.
  repeat match goal with
         | |- context [if ?b then _ else _] => destruct b; simpl; try done
         end.
Qed.

Lemma assert_unique_name_ok name k s :
  (assert_unique_name name (type_string k) s).1 = Normal tt
  <-> forall k', k' ≠ k -> recorded k' (this s) name = false.
Proof.
  unfold assert_unique_name, bind, get, when, throw, ret.
  split.
  - intros H k' Hne.
    destruct k, k'; try (by destruct Hne); simpl in *;
      repeat match goal with
             | |- has ?m ?n = false => destruct (has m n) eqn:?; [|done]
             | H : context [has ?m ?n] |- _ =>
                 destruct (has m n) eqn:?; simpl in H; try discriminate
             end.
  - intros H.
    pose proof (H KUsertype) as H1. pose proof (H KString) as H2.
    pose proof (H KBoolean) as H3. pose proof (H KNumber) as H4.
    pose proof (H KInteger) as H5. pose proof (H KCFunction) as H6.
    destruct k; simpl in *;
      rewrite ?H1, ?H2, ?H3, ?H4, ?H5, ?H6 by done; done.
Qed.

Lemma assert_unique_name_normal name k s :
  (forall k', k' ≠ k -> recorded k' (this s) name = false) ->
  assert_unique_name name (type_string k) s = (Normal tt, s).
Proof.
  intros H. apply assert_unique_name_ok in H.
  pose proof (assert_unique_name_state name (type_string k) s) as Hs.
  destruct (assert_unique_name name (type_string k) s) as [r s'].
  simpl in *. by subst.
Qed.

Lemma assert_unique_name_throws name k k' s :
  k' ≠ k -> recorded k' (this s) name = true ->
  exists e, assert_unique_name name (type_string k) s = (Thrown e, s).
Proof.
  intros Hne Hrec.
  pose proof (assert_unique_name_state name (type_string k) s) as Hs.
  pose proof (assert_unique_name_ok name k s) as Hok.
  destruct (assert_unique_name name (type_string k) s) as [[[]|e] s'];
    simpl in *; subst s'.
  - destruct Hok as [Hok _]. rewrite (Hok eq_refl k' Hne) in Hrec.
    discriminate.
  - by exists e.
Qed.

(** *** The setters *)

Lemma lua_lua L f g s :
  (lua L f ;; lua L g) s = lua L (fun S => g (f S)) s.
Proof.
  unfold bind, lua, update_world, store_state, set_lua_states, state_of.
  simpl. f_equal. f_equal. f_equal.
  apply map_eq. intros h. destruct (decide (L = h)) as [->|Hne].
  - rewrite !lookup_alter_eq. by destruct (lua_states (world s) !! h).
  - by rewrite !lookup_alter_ne.
Qed.

Lemma recorded_elsewhere_false k c name :
  recorded_elsewhere k c name = false
  <-> forall k', k' ≠ k -> recorded k' c name = false.
Proof.
  unfold recorded_elsewhere. split.
  - intros H k' Hne. destruct (recorded k' c name) eqn:Hrec; [|done].
    assert (existsb (fun k' => bool_decide (k' ≠ k) && recorded k' c name)
              all_kinds = true) as Hex; [|congruence].
    apply existsb_exists. exists k'. split.
    + destruct k'; unfold all_kinds; simpl; tauto.
    + by rewrite bool_decide_eq_true_2, Hrec.
  - intros H. destruct (existsb _ _) eqn:Hex; [|done].
    apply existsb_exists in Hex as (k' & _ & Hk').
    apply andb_true_iff in Hk' as [Hne%bool_decide_eq_true Hrec].
    by rewrite H in Hrec.
Qed.

Lemma recorded_elsewhere_true k c name :
  recorded_elsewhere k c name = true
  <-> exists k', k' ≠ k /\ recorded k' c name = true.
Proof.
  unfold recorded_elsewhere. rewrite existsb_exists. split.
  - intros (k' & _ & Hk').
    apply andb_true_iff in Hk' as [Hne%bool_decide_eq_true Hrec]. eauto.
  - intros (k' & Hne & Hrec). exists k'. split.
    + destruct k'; unfold all_kinds; simpl; tauto.
    + by rewrite bool_decide_eq_true_2, Hrec.
Qed.

(** Every setter checks the name, records the value, and sets the
    global. *)
Lemma set_binding_eq name b s :
  set_binding name b s
  = (assert_unique_name name (type_string (kind_of b)) ;;
     update_this (record_binding name b) ;;
     on_L (fun S => lua_setglobal name (push (binding_value b) S))) s.
Proof.
  destruct b as [d t ns|v|v|v|v|v]; simpl;
    unfold set_usertype, set_string, set_boolean, set_number, set_integer,
      set_cfunction; cbv zeta;
    unfold bind at 1; unfold bind at 4; simpl;
    destruct (assert_unique_name _ _ s) as [[[]|e] s1]; try done;
    rewrite !bind_update_this; unfold on_L; rewrite !bind_get;
    rewrite lua_lua; try done.
  by destruct v.
Qed.

Lemma set_binding_throws name b s :
  recorded_elsewhere (kind_of b) (this s) name = true ->
  exists e, set_binding name b s = (Thrown e, s).
Proof.
  intros (k' & Hne & Hrec)%recorded_elsewhere_true.
  destruct (assert_unique_name_throws name (kind_of b) k' s Hne Hrec)
    as [e He].
  exists e. rewrite set_binding_eq. by apply bind_thrown.
Qed.

Lemma set_binding_normal name b s :
  recorded_elsewhere (kind_of b) (this s) name = false ->
  set_binding name b s
  = (Normal tt,
     mkSys (record_binding name b (this s))
       (store_state (__L (this s))
          (lua_setglobal name
             (push (binding_value b) (state_of (world s) (__L (this s)))))
          (world s))).
Proof.
  intros H. pose proof (proj1 (recorded_elsewhere_false _ _ _) H) as H'.
  clear H. rename H' into H. rewrite set_binding_eq.
  rewrite (bind_ok _ _ _ _ _ (assert_unique_name_normal _ _ _ H)).
  rewrite bind_update_this. unfold on_L. rewrite bind_get.
  by destruct b.
Qed.

Lemma stored_record_binding name b c : stored (record_binding name b c) name b.
Proof. destruct b; simpl; apply lookup_insert_eq. Qed.

Lemma records_record_binding name b c :
  records (record_binding name b c) name (binding_value b).
Proof.
  destruct b; simpl; constructor; simpl; apply lookup_insert_eq.
Qed.

Lemma L_record_binding name b c : __L (record_binding name b c) = __L c.
Proof. by destruct b. Qed.

Lemma recorded_record_binding name b c k n :
  recorded k (record_binding name b c) n
  = if decide (k = kind_of b /\ n = name) then true else recorded k c n.
Proof.
  destruct (decide (k = kind_of b /\ n = name)) as [[-> ->]|Hne].
  - destruct b; simpl; apply has_true; rewrite lookup_insert_eq; eauto.
  - destruct (decide (k = kind_of b)) as [->|Hk].
    + assert (n ≠ name) as Hn by (intros ->; by apply Hne).
      destruct b; simpl; unfold has; apply bool_decide_ext;
        by rewrite lookup_insert_ne.
    + destruct b, k; simpl in *; try done.
Qed.

Lemma unique_names_record_binding name b c :
  unique_names c -> recorded_elsewhere (kind_of b) c name = false ->
  unique_names (record_binding name b c).
Proof.
  intros Hu He' n k1 k2.
  pose proof (proj1 (recorded_elsewhere_false _ _ _) He') as He.
  rewrite !recorded_record_binding.
  destruct (decide (k1 = kind_of b /\ n = name)) as [[E1 En]|H1];
    destruct (decide (k2 = kind_of b /\ n = name)) as [[E2 En']|H2];
    try congruence.
  - subst k1 n. intros _ Hrec.
    destruct (decide (k2 = kind_of b)) as [->|Hk]; [done|].
    by rewrite He in Hrec.
  - subst k2 n. intros Hrec _.
    destruct (decide (k1 = kind_of b)) as [->|Hk]; [done|].
    by rewrite He in Hrec.
  - apply Hu.
Qed.

(** *** Calls that work on the state of the context *)

Global Instance own_state_preorder P : PreOrder (own_state P).
Proof.
  split.
  - intros s. unfold own_state. reflexivity.
  - intros s1 s2 s3 H1 H2. unfold own_state in *.
    etransitivity; [exact H1|]. by rewrite <- (ot_this _ _ _ _ H1).
Qed.

Lemma own_on_L P f : respects (own_state P) (on_L f).
Proof. intros s. apply (touches_lua P (__L (this s)) f s). Qed.

Lemma own_stack_size P : respects (own_state P) stack_size.
Proof. intros s. unfold own_state. simpl. reflexivity. Qed.

Lemma own_do_string (P : event -> Prop) at_ str :
  (forall L rv, P (EvDoString at_ L str rv)) ->
  respects (own_state P) (do_string at_ str).
Proof.
  intros HP s.
  apply (touches_do_string_on P at_ (__L (this s)) str (HP _) s).
Qed.

Lemma own_do_file (P : event -> Prop) filename :
  (forall L err, P (EvDoFile L filename err)) ->
  respects (own_state P) (do_file filename).
Proof.
  intros HP s. apply (touches_do_file_on P (__L (this s)) filename (HP _) s).
Qed.

Lemma wf_own s s' : well_formed s -> own_state host_event s s' -> well_formed s'.
Proof. intros. by eapply wf_touches. Qed.

Lemma wf_update_this f s :
  same_core (this s) (f (this s)) -> well_formed s ->
  well_formed (update_this f s).2.
Proof. destruct s as [c w]. simpl. apply wf_same_core. Qed.

Lemma same_core_refl c : same_core c c.
Proof. by split_and!. Qed.

(** **** The setters and [remove_global] *)

Lemma wf_set_binding name b s :
  well_formed s -> well_formed (set_binding name b s).2.
Proof.
  intros Hwf.
  destruct (recorded_elsewhere (kind_of b) (this s) name) eqn:He.
  - destruct (set_binding_throws name b s He) as [e ->]. done.
  - rewrite set_binding_normal by done. simpl.
    apply (wf_touches (mkSys (record_binding name b (this s)) (world s))).
    + destruct Hwf as [F O U N T Lo]. split; simpl;
        rewrite ?L_record_binding; try done.
      * by apply unique_names_record_binding.
      * by destruct b.
      * by destruct b.
    + simpl. rewrite L_record_binding.
      apply (touches_lua host_event (__L (this s))
               (fun S => lua_setglobal name (push (binding_value b) S))
               (mkSys (record_binding name b (this s)) (world s))).
Qed.

Lemma wf_remove_global name s :
  well_formed s -> well_formed (remove_global name s).2.
Proof.
  intros [F O U N T Lo]. unfold remove_global.
  rewrite !bind_update_this. rewrite bind_get. rewrite lua_lua.
  match goal with |- well_formed (lua ?L ?f ?s0).2 =>
    apply (wf_touches s0); [|apply (touches_lua host_event L f s0)]
  end.
  split; simpl; try done.
  intros n k1 k2 H1 H2. apply (U n).
  - destruct k1; simpl in *; apply has_true in H1; apply has_true;
      destruct (decide (name = n)) as [->|?];
      by rewrite ?lookup_delete_eq, ?lookup_delete_ne in H1 by done;
      try destruct H1.
  - destruct k2; simpl in *; apply has_true in H2; apply has_true;
      destruct (decide (name = n)) as [->|?];
      by rewrite ?lookup_delete_eq, ?lookup_delete_ne in H2 by done;
      try destruct H2.
Qed.

(** **** [restart] *)

Lemma package_loads_fresh tr L p :
  Forall (fun e => (ev_handle e < L)%nat) tr -> package_loads tr L p = 0%nat.
Proof.
  intros Htr. apply package_loads_none.
  eapply Forall_impl; [exact Htr|]. intros e He ->. simpl in He. lia.
Qed.

Lemma package_loads_map {A} (f : A -> event) (l : list A) L p :
  (forall x, f x ≠ EvDoString AtPackage L (require_chunk p) 0) ->
  package_loads (map f l) L p = 0%nat.
Proof.
  intros Hf. apply package_loads_none. apply Forall_forall.
  intros e (x & -> & _)%list_elem_of_fmap. apply Hf.
Qed.

Lemma package_loads_start c E L' evs L p :
  start_events c E L' evs -> package_loads evs L p = 0%nat.
Proof.
  unfold start_events, start_script_events.
  destruct (__start_script c) as [script|]; [|by intros ->].
  destruct (access_R_OK E script).
  - intros (pre & -> & Hpre). rewrite package_loads_app.
    rewrite (package_loads_none pre), (package_loads_none [_]); try done.
    + by repeat constructor.
    + eapply Forall_impl; [exact Hpre|]. by intros e [err ->].
  - intros ->. apply package_loads_none. by repeat constructor.
Qed.

Lemma package_loads_replay c L p :
  NoDup (__packages c) ->
  package_loads (replay_trace c L) L p
  = if bool_decide (p ∈ __packages c) then 1%nat else 0%nat.
Proof.
  intros Hnd. unfold replay_trace.
  change (EvNewState L :: ?l) with ([EvNewState L] ++ l).
  rewrite !package_loads_app.
  rewrite (package_loads_none [_]) by (by repeat constructor).
  rewrite !package_loads_map by done.
  by rewrite package_loads_packages.
Qed.

Lemma Forall_handle_map {A} (f : A -> event) (l : list A) (n : nat) :
  (forall x, (ev_handle (f x) < n)%nat) ->
  Forall (fun e => (ev_handle e < n)%nat) (map f l).
Proof.
  intros Hf. apply Forall_forall. intros e (x & -> & _)%list_elem_of_fmap.
  apply Hf.
Qed.

Lemma start_events_handle c E L evs :
  start_events c E L evs -> Forall (fun e => ev_handle e = L) evs.
Proof.
  unfold start_events, start_script_events.
  destruct (__start_script c) as [script|]; [|by intros ->].
  destruct (access_R_OK E script).
  - intros (pre & -> & Hpre). apply Forall_app. split.
    + eapply Forall_impl; [exact Hpre|]. by intros e [err ->].
    + by repeat constructor.
  - intros ->. by repeat constructor.
Qed.

Lemma wf_restart s : well_formed s -> well_formed (restart s).2.
Proof.
  intros [F O U N T Lo].
  destruct (init_state s) as [[L|e] s1] eqn:Hinit.
  - (* the new state is swapped in *)
    destruct (restart_ok _ _ _ Hinit) as (s2 & s3 & -> & W2 & W3). simpl.
    destruct (init_state_ok _ _ _ Hinit)
      as (s_r & sevs & _ & HL & Hthis & Hnext & _ & _ & Hoth & Htr & Hsevs
          & Hopen & _).
    pose proof W2 as [[T2 N2 _ _ Hoth2 _] E2].
    pose proof W3 as [[T3 N3 _ _ _ _] E3]. simpl in T3, N3, E3.
    assert (__L (this s) ≠ L) as Hne by lia.
    split; rewrite ?T3, ?N3, ?N2, ?Hnext; simpl; try done.
    + lia.
    + eapply went_open; [exact W3| |].
      * unfold restarted_events. by apply close_not_in_map.
      * unfold is_open. simpl. rewrite lookup_delete_ne by done.
        by rewrite Hoth2.
    + rewrite E3. simpl. rewrite E2, Htr.
      repeat (apply Forall_app; split).
      * eapply Forall_impl; [exact T|]. simpl. lia.
      * unfold replay_trace. constructor; [simpl; lia|].
        repeat (apply Forall_app; split);
          apply Forall_handle_map; simpl; lia.
      * apply Forall_handle_map. simpl. lia.
      * eapply Forall_impl; [by eapply start_events_handle|].
        simpl. intros ? ->. lia.
      * apply Forall_handle_map. simpl. lia.
      * repeat constructor. simpl. lia.
      * apply Forall_handle_map. simpl. lia.
    + intros p. rewrite E3. simpl. rewrite E2, Htr.
      rewrite !package_loads_app.
      rewrite (package_loads_fresh (trace (world s))) by (by rewrite HL).
      rewrite package_loads_replay by done.
      unfold init_events, finalize_events, restarted_events.
      rewrite !package_loads_map by done.
      rewrite (package_loads_start _ _ _ _ _ _ Hsevs).
      rewrite (package_loads_none [_]) by (by repeat constructor).
      lia.
  - (* the old state is kept *)
    rewrite (restart_failed _ _ _ Hinit). simpl.
    destruct (init_state_frame _ _ _ Hinit)
      as (Hthis & Hnext & _ & _ & Hoth & evs & E & Hevs).
    split; rewrite ?Hthis, ?Hnext; try done.
    + lia.
    + unfold is_open. rewrite Hoth; [done|lia].
    + rewrite E. apply Forall_app. split.
      * eapply Forall_impl; [exact T|]. simpl. lia.
      * constructor; [simpl; lia|].
        eapply Forall_impl; [exact Hevs|]. simpl. intros ? [-> _]. lia.
    + intros p. rewrite E, package_loads_app, Lo.
      rewrite (package_loads_other_handle _ _ (next_state (world s)));
        [lia| |lia].
      constructor; [done|]. eapply Forall_impl; [exact Hevs|]. by intros ? [].
Qed.

(** **** The other calls *)

Global Instance keeps_wf_preorder : PreOrder keeps_wf.
Proof. split; unfold keeps_wf; [by intros ?|intros ???; tauto]. Qed.

Lemma keeps_wf_own {A} (m : M A) :
  respects (own_state host_event) m -> respects keeps_wf m.
Proof. intros Hm s Hwf. by eapply wf_own. Qed.

Lemma keeps_wf_update_this f :
  (forall c, same_core c (f c)) -> respects keeps_wf (update_this f).
Proof. intros Hf s Hwf. by apply wf_update_this. Qed.

Lemma wf_bind_own {A B} (m : M A) (k : A -> M B) s :
  own_state host_event s (m s).2 -> (forall a, respects keeps_wf (k a)) ->
  well_formed s -> well_formed (bind m k s).2.
Proof.
  intros Hm Hk Hwf. unfold bind.
  destruct (m s) as [[a|e] s1]; simpl in *.
  - apply Hk. by eapply wf_own.
  - by eapply wf_own.
Qed.

Ltac own :=
  repeat match goal with
  | |- respects ?R (ret _) => apply (respects_ret R)
  | |- respects ?R (throw _) => apply (respects_throw R)
  | |- respects ?R (get _) => apply (respects_get R)
  | |- respects ?R (lua_read _ _) => apply (respects_lua_read R)
  | |- respects ?R (access _) => apply (respects_access R)
  | |- respects _ (on_L _) => apply own_on_L
  | |- respects _ stack_size => apply own_stack_size
  | |- respects _ (do_string _ _) => apply own_do_string; done
  | |- respects _ (do_file _) => apply own_do_file; done
  | |- respects ?R (when _ _) => apply (respects_when R)
  | |- respects ?R (bind _ _) => apply (respects_bind R); [|intro]
  | |- respects _ (match ?x with _ => _ end) => destruct x
  end.

Lemma do_string_on_any at_ L str s r s' :
  do_string_on at_ L str s = (r, s') ->
  exists rv, went L [EvDoString at_ L str rv] s s'
    /\ (r = Normal tt /\ rv = 0 \/ (exists e, r = Thrown e) /\ rv = 1).
Proof.
  intros H.
  assert (only_touches (fun _ => True) L s s') as T.
  { pose proof (touches_do_string_on (fun _ => True) at_ L str (fun _ => I) s)
      as Hm. by rewrite H in Hm. }
  unfold do_string_on in H. rewrite bind_get in H.
  unfold bind at 1 in H.
  destruct (lua_call L _ s) as [r1 s1] eqn:H1.
  pose proof (lua_call_went _ _ _ _ _ H1) as [_ E1]. rewrite app_nil_r in E1.
  unfold lua_call in H1.
  destruct (luaL_loadstring _ _ _) as [r1' S1]. inversion H1; subst r1 s1.
  clear H1. unfold bind at 1 in H.
  match type of H with
    context [(if ?b then ?m1 else ?m2) ?s1] =>
      destruct ((if b then m1 else m2) s1) as [rv2 s2] eqn:H2
  end.
  assert (trace (world s2) = trace (world s)
          /\ exists rv, rv2 = Normal rv /\ (rv = 0 \/ rv = 1))
    as (E2 & rv & -> & Hrv).
  { destruct (r1' =? 0).
    - unfold bind at 1 in H2.
      destruct (lua_call L _ _) as [r2 s3] eqn:H3 in H2.
      pose proof (lua_call_went _ _ _ _ _ H3) as [_ E3].
      rewrite app_nil_r in E3. unfold lua_call in H3.
      destruct (lua_pcall _ _ _) as [r2' S2]. inversion H3; subst r2 s3.
      inversion H2; subst. split; [by rewrite E3|].
      eexists. split; [done|]. destruct (r2' =? 0); auto.
    - inversion H2; subst. split; [done|]. eauto. }
  unfold log in H. rewrite bind_update_world in H. exists rv.
  destruct Hrv as [->| ->]; simpl in H; inversion H; subst; simpl.
  - split; [|by left]. split; [done|]. simpl. by rewrite E2.
  - split; [|right; eauto]. split; [done|]. simpl. by rewrite E2.
Qed.

Lemma wf_add_package p s : well_formed s -> well_formed (add_package p s).2.
Proof.
  intros Hwf. unfold add_package. rewrite bind_get.
  destruct (bool_decide (p ∈ __packages (this s))) eqn:Hin; [done|].
  apply bool_decide_eq_false in Hin. rewrite bind_get.
  destruct (do_string_on AtPackage (__L (this s)) (require_chunk p) s)
    as [r s1] eqn:Hdo.
  destruct (do_string_on_any _ _ _ _ _ _ Hdo) as (rv & W & Hr).
  pose proof W as [[Hthis Hnext _ _ _ _] E].
  pose proof Hwf as [F O U N T Lo].
  assert (is_open (world s1) (__L (this s))) as Hopen.
  { eapply went_open; [exact W| |done]. by intros ?%list_elem_of_singleton. }
  assert (Forall (fun e => (ev_handle e < next_state (world s))%nat)
            (trace (world s1))) as Htr.
  { rewrite E. apply Forall_app. split; [done|]. by repeat constructor. }
  unfold bind. rewrite Hdo.
  destruct Hr as [[-> ->]|[[e ->] ->]]; simpl.
  - split; simpl; rewrite ?Hthis, ?Hnext; try done.
    + apply NoDup_app. split; [done|]. split; [|apply NoDup_singleton].
      intros x Hx Hx'. apply list_elem_of_singleton in Hx'. by subst.
    + intros q. rewrite E, package_loads_app, Lo.
      unfold package_loads at 1. simpl. rewrite filter_cons, filter_nil.
      destruct (decide (EvDoString AtPackage (__L (this s)) (require_chunk p) 0
          = EvDoString AtPackage (__L (this s)) (require_chunk q) 0))
        as [Heq|Hne].
      * assert (p = q) as <- by (apply require_chunk_inj; congruence).
        rewrite bool_decide_eq_false_2 by done.
        rewrite bool_decide_eq_true_2; [done|].
        apply elem_of_app. right. apply list_elem_of_here.
      * simpl. rewrite Nat.add_0_r.
        assert (bool_decide (q ∈ __packages (this s) ++ [p])
                = bool_decide (q ∈ __packages (this s))) as ->; [|done].
        apply bool_decide_ext. rewrite elem_of_app, list_elem_of_singleton.
        split; [|by left]. intros [?| ->]; [done|by destruct Hne].
  - split; simpl; rewrite ?Hthis, ?Hnext; try done.
    intros q. rewrite E, package_loads_app, Lo.
    rewrite (package_loads_none [_]) by (by repeat constructor). lia.
Qed.

Lemma keeps_wf_restart : respects keeps_wf restart.
Proof. intros s Hwf. by apply wf_restart. Qed.

Lemma keeps_wf_set_inotify q : respects keeps_wf (update_world (set_inotify q)).
Proof. intros s Hwf. destruct Hwf. by split. Qed.

Lemma keeps_wf_process_fam_events : respects keeps_wf process_fam_events.
Proof.
  unfold process_fam_events.
  apply (respects_bind _); [apply (respects_get _)|intros [f|]];
    [|apply (respects_ret _)].
  apply (respects_bind _); [by intros s|intros pending].
  apply (respects_bind _); [apply keeps_wf_set_inotify|intros _].
  apply (respects_for_each _). intros e.
  apply (respects_bind _); [apply (respects_get _)|intros [f'|]];
    [|apply (respects_ret _)].
  destruct (Fam.delivers f' e); [apply keeps_wf_restart|apply (respects_ret _)].
Qed.

Lemma wf_add_package_dir path s :
  well_formed s -> well_formed (add_package_dir path s).2.
Proof.
  unfold add_package_dir. rewrite bind_get. apply wf_bind_own.
  - by apply (touches_do_string_on host_event).
  - intros _. unfold fam_watch_dir.
    apply (respects_bind _); [|intros _]; apply keeps_wf_update_this;
      intros c; by split_and!.
Qed.

Lemma wf_add_cpackage_dir path s :
  well_formed s -> well_formed (add_cpackage_dir path s).2.
Proof.
  unfold add_cpackage_dir. rewrite bind_get. apply wf_bind_own.
  - by apply (touches_do_string_on host_event).
  - intros _. unfold fam_watch_dir.
    apply (respects_bind _); [|intros _]; apply keeps_wf_update_this;
      intros c; by split_and!.
Qed.

Lemma wf_set_start_script o s :
  well_formed s -> well_formed (set_start_script o s).2.
Proof.
  revert s. change (respects keeps_wf (set_start_script o)).
  destruct o as [script|]; simpl.
  - apply (respects_bind _);
      [apply keeps_wf_update_this; intros c; by split_and!|intros _].
    apply keeps_wf_own. own.
  - apply keeps_wf_update_this. intros c. by split_and!.
Qed.

Lemma wf_pop n s : well_formed s -> well_formed (pop n s).2.
Proof.
  revert s. change (respects keeps_wf (pop n)).
  apply keeps_wf_own. unfold pop. own.
Qed.

Lemma wf_remove idx s : well_formed s -> well_formed (remove idx s).2.
Proof.
  revert s. change (respects keeps_wf (remove idx)).
  apply keeps_wf_own. unfold remove. own.
Qed.

Lemma wf_own_run {A} (m : M A) s :
  respects (own_state host_event) m -> well_formed s -> well_formed (m s).2.
Proof. intros Hm Hwf. by eapply wf_own. Qed.

Lemma wf_update_run f s :
  (forall c, same_core c (f c)) -> well_formed s ->
  well_formed (update_this f s).2.
Proof. intros Hf. by apply wf_update_this. Qed.

(** Every call keeps the system well formed. *)
Lemma wf_run c s : well_formed s -> well_formed (run c s).2.
Proof.
  destruct c as [o| |p|p|p|p|p|f|str|n d t ns|n v|n v|n v|n v|n v|n|n|n
                |v|v| |v|v|d t ns|f|k|idx|w|w|f m| ].
  - apply wf_set_start_script.
  - apply wf_restart.
  - apply wf_add_package_dir.
  - apply wf_add_cpackage_dir.
  - apply wf_add_package.
  - apply wf_update_run. intros c. by split_and!.
  - apply wf_update_run. intros c. by split_and!.
  - apply (wf_own_run (do_file f)). own.
  - apply (wf_own_run (do_string AtHost str)). own.
  - apply (wf_set_binding n (BUsertype d t ns)).
  - apply (wf_set_binding n (BString v)).
  - apply (wf_set_binding n (BBoolean v)).
  - apply (wf_set_binding n (BNumber v)).
  - apply (wf_set_binding n (BInteger v)).
  - apply (wf_set_binding n (BCFunction v)).
  - apply wf_remove_global.
  - apply (wf_own_run (set_global n)). apply own_on_L.
  - apply (wf_own_run (get_global n)). apply own_on_L.
  - apply (wf_own_run (push_boolean v)). apply own_on_L.
  - apply (wf_own_run (push_integer v)). apply own_on_L.
  - apply (wf_own_run push_nil). apply own_on_L.
  - apply (wf_own_run (push_number v)). apply own_on_L.
  - apply (wf_own_run (push_string v)). apply own_on_L.
  - apply (wf_own_run (push_usertype d t ns)). apply own_on_L.
  - apply (wf_own_run (push_cfunction f)). apply own_on_L.
  - apply wf_pop.
  - apply wf_remove.
  - apply wf_update_run. intros c. by split_and!.
  - apply wf_update_run. intros c. by split_and!.
  - apply wf_restart.
  - apply keeps_wf_process_fam_events.
Qed.

Lemma wf_new watch_dirs enable_tracebacks E s :
  LuaContext_new watch_dirs enable_tracebacks (initial_world E)
    = (Normal tt, s) ->
  well_formed s.
Proof.
  unfold LuaContext_new. intros H.
  apply bind_inv_ok in H as (L & s1 & H1 & H). inversion H; subst s; clear H.
  destruct (init_state_ok _ _ _ H1)
    as (s_r & sevs & _ & HL & Hthis & Hnext & _ & _ & _ & Htr & Hsevs
        & Hopen & _).
  simpl in *. subst L. rewrite Hthis in *. simpl in *.
  unfold start_events in Hsevs. simpl in Hsevs. subst sevs.
  split; simpl; rewrite ?Hnext, ?Htr; try done.
  - lia.
  - intros n k1 k2. by destruct k1.
  - apply NoDup_nil_2.
  - unfold replay_trace. simpl. repeat constructor.
Qed.

Lemma wf_wrap E S tb :
  well_formed (mkSys (LuaContext_wrap 0%nat tb) (foreign_world E S)).
Proof.
  split; simpl; try done.
  - lia.
  - unfold is_open. simpl. by rewrite lookup_singleton_eq.
  - intros n k1 k2. by destruct k1.
  - apply NoDup_nil_2.
Qed.

Theorem reachable_well_formed s : reachable s -> well_formed s.
Proof.
  induction 1 as [w t E s Hnew|E S tb|s c _ IH|s E _ IH|s e _ IH].
  - by eapply wf_new.
  - apply wf_wrap.
  - by apply wf_run.
  - destruct IH. by split.
  - destruct IH. by split.
Qed.

(** ** How the calls change the fields of the context *)

Lemma restart_this s :
  this (restart s).2 = this s
  \/ exists L, this (restart s).2 = set___L L (this s).
Proof.
  destruct (init_state s) as [[L|e] s1] eqn:Hinit.
  - destruct (restart_ok _ _ _ Hinit) as (s2 & s3 & -> & W2 & W3).
    right. exists L. apply (went_this _ _ _ _ W3).
  - rewrite (restart_failed _ _ _ Hinit). left.
    by destruct (init_state_frame _ _ _ Hinit) as (? & _).
Qed.

Section ThisRel.
Context (Rc : LuaContext -> LuaContext -> Prop) `{!PreOrder Rc}.
Hypothesis H_L : forall v c, Rc c (set___L v c).
Hypothesis H_package_dirs : forall v c, Rc c (set___package_dirs v c).
Hypothesis H_cpackage_dirs : forall v c, Rc c (set___cpackage_dirs v c).
Hypothesis H_packages : forall v c, Rc c (set___packages v c).
Hypothesis H_usertypes : forall v c, Rc c (set___usertypes v c).
Hypothesis H_strings : forall v c, Rc c (set___strings v c).
Hypothesis H_booleans : forall v c, Rc c (set___booleans v c).
Hypothesis H_numbers : forall v c, Rc c (set___numbers v c).
Hypothesis H_integers : forall v c, Rc c (set___integers v c).
Hypothesis H_cfunctions : forall v c, Rc c (set___cfunctions v c).
Hypothesis H_watchers : forall v c, Rc c (set___watchers v c).
Hypothesis H_watch_dir :
  forall p c, Rc c (set___fam (Fam.watch_dir p <$> __fam c) c).
Hypothesis H_watch_file :
  forall p c, Rc c (set___fam (Fam.watch_file p <$> __fam c) c).

Global Instance this_rel_preorder : PreOrder (this_rel Rc).
Proof.
  split; unfold this_rel.
  - intros s. reflexivity.
  - intros s1 s2 s3 H1 H2. by etransitivity.
Qed.

Lemma this_rel_same {A} (m : M A) s :
  this (m s).2 = this s -> this_rel Rc s (m s).2.
Proof. unfold this_rel. intros ->. reflexivity. Qed.

Lemma this_rel_own {A} P (m : M A) :
  respects (own_state P) m -> respects (this_rel Rc) m.
Proof. intros Hm s. apply this_rel_same. apply (Hm s). Qed.

Lemma this_rel_touches {A} P L (m : M A) :
  respects (only_touches P L) m -> respects (this_rel Rc) m.
Proof. intros Hm s. apply this_rel_same. apply (Hm s). Qed.

Lemma this_rel_update f :
  (forall c, Rc c (f c)) -> respects (this_rel Rc) (update_this f).
Proof. intros Hf s. apply Hf. Qed.

Lemma this_rel_restart : respects (this_rel Rc) restart.
Proof.
  intros s. unfold this_rel.
  destruct (restart_this s) as [->|[L ->]]; [reflexivity|apply H_L].
Qed.

Lemma this_rel_set_binding name b : respects (this_rel Rc) (set_binding name b).
Proof.
  intros s. unfold this_rel.
  destruct (recorded_elsewhere (kind_of b) (this s) name) eqn:He.
  - destruct (set_binding_throws name b s He) as [e ->]. reflexivity.
  - rewrite set_binding_normal by done. simpl. destruct b; simpl; auto.
Qed.

Lemma this_rel_process_fam_events : respects (this_rel Rc) process_fam_events.
Proof.
  unfold process_fam_events.
  apply (respects_bind _); [apply (respects_get _)|intros [f|]];
    [|apply (respects_ret _)].
  apply (respects_bind _); [by intros s; apply this_rel_same|intros pending].
  apply (respects_bind _); [by intros s; apply this_rel_same|intros _].
  apply (respects_for_each _). intros e.
  apply (respects_bind _); [apply (respects_get _)|intros [f'|]];
    [|apply (respects_ret _)].
  destruct (Fam.delivers f' e);
    [apply this_rel_restart|apply (respects_ret _)].
Qed.

(** Every call but [set_start_script] relates the contexts. *)
Lemma this_rel_run c :
  is_set_start_script c = false -> respects (this_rel Rc) (run c).
Proof.
  destruct c as [o| |p|p|p|p|p|f|str|n d t ns|n v|n v|n v|n v|n v|n|n|n
                |v|v| |v|v|d t ns|f|k|idx|w|w|f m| ]; intros Hc;
    try discriminate; simpl.
  - apply this_rel_restart.
  - intros s. unfold add_package_dir. rewrite bind_get.
    revert s. apply (respects_bind _).
    { intros s'. apply this_rel_same.
      apply (touches_do_string_on (fun _ => True) _ _ _ (fun _ => I) s'). }
    intros _. unfold fam_watch_dir.
    apply (respects_bind _); [|intros _]; by apply this_rel_update.
  - intros s. unfold add_cpackage_dir. rewrite bind_get.
    revert s. apply (respects_bind _).
    { intros s'. apply this_rel_same.
      apply (touches_do_string_on (fun _ => True) _ _ _ (fun _ => I) s'). }
    intros _. unfold fam_watch_dir.
    apply (respects_bind _); [|intros _]; by apply this_rel_update.
  - unfold add_package.
    apply (respects_bind _); [apply (respects_get _)|intros pkgs].
    destruct (bool_decide _); [apply (respects_ret _)|].
    apply (respects_bind _); [apply (respects_get _)|intros L].
    apply (respects_bind _); [|intros _; by apply this_rel_update].
    apply (this_rel_touches (fun _ => True) L).
    by apply touches_do_string_on.
  - by apply this_rel_update.
  - by apply this_rel_update.
  - apply (this_rel_own (fun _ => True)). own.
  - apply (this_rel_own (fun _ => True)). own.
  - apply (this_rel_set_binding n (BUsertype d t ns)).
  - apply (this_rel_set_binding n (BString v)).
  - apply (this_rel_set_binding n (BBoolean v)).
  - apply (this_rel_set_binding n (BNumber v)).
  - apply (this_rel_set_binding n (BInteger v)).
  - apply (this_rel_set_binding n (BCFunction v)).
  - unfold remove_global.
    repeat (apply (respects_bind _); [by apply this_rel_update|intros _]).
    intros s. by apply this_rel_same.
  - apply (this_rel_own (fun _ => True)). apply own_on_L.
  - apply (this_rel_own (fun _ => True)). apply own_on_L.
  - apply (this_rel_own (fun _ => True)). apply own_on_L.
  - apply (this_rel_own (fun _ => True)). apply own_on_L.
  - apply (this_rel_own (fun _ => True)). apply own_on_L.
  - apply (this_rel_own (fun _ => True)). apply own_on_L.
  - apply (this_rel_own (fun _ => True)). apply own_on_L.
  - apply (this_rel_own (fun _ => True)). apply own_on_L.
  - apply (this_rel_own (fun _ => True)). apply own_on_L.
  - apply (this_rel_own (fun _ => True)). unfold pop. own.
  - apply (this_rel_own (fun _ => True)). unfold remove. own.
  - by apply this_rel_update.
  - by apply this_rel_update.
  - apply this_rel_restart.
  - apply this_rel_process_fam_events.
Qed.
End ThisRel.



(** * The claims *)






(** *** The stack below the top *)

Lemma index_1 (S : lua_State) : index S 1 = default VNil (stack S !! 0%nat).
Proof. done. Qed.




(** C10.  [add_package] is idempotent.  For a system a host can bring
    about: adding a package that is recorded changes nothing, neither the
    list nor the trace nor any state; the recorded list has no package
    twice; and every recorded package has been loaded with success exactly
    once into the state the context is on, by [add_package] or by the
    [init_state] that made the state. *)
Theorem add_package_is_idempotent (s : Sys) (p : string) :
  reachable s ->
  (p ∈ __packages (this s) -> add_package p s = (Normal tt, s))
  /\ NoDup (__packages (this s))
  /\ (p ∈ __packages (this s) ->
        package_loads (trace (world s)) (__L (this s)) p = 1%nat)
  /\ (p ∉ __packages (this s) ->
        package_loads (trace (world s)) (__L (this s)) p = 0%nat).
Proof.
  intros Hreach. destruct (reachable_well_formed _ Hreach) as [_ _ _ N _ Lo].
  split_and!; try done.
  - intros Hin. unfold add_package. rewrite bind_get.
    by rewrite bool_decide_eq_true_2.
  - intros Hin. by rewrite Lo, bool_decide_eq_true_2.
  - intros Hin. by rewrite Lo, bool_decide_eq_false_2.
Qed.

(** C5.  A setter that returns has set the global and recorded it.  For a
    system a host can bring about and any of the six setters: when the call
    returns, the global [name] of the state the context is on has the value,
    the map of the kind has the value under [name], and a restart that
    succeeds right after sets the global [name] of the new state to the
    value again. *)
Theorem setter_sets_global_and_records (s : Sys) (name : string) (b : binding)
    (s' : Sys) :
  reachable s ->
  set_binding name b s = (Normal tt, s') ->
  global (state_of (world s') (__L (this s'))) name = binding_value b
  /\ stored (this s') name b
  /\ (forall L s1,
        init_state s' = (Normal L, s1) ->
        exists s_r,
          init_replay s' = (Normal L, s_r)
          /\ global (state_of (world s_r) L) name = binding_value b).
Proof.
  intros Hreach Hset.
  pose proof (reachable_well_formed _ Hreach) as Hwf.
  pose proof (wf_set_binding name b s Hwf) as Hwf'. rewrite Hset in Hwf'.
  simpl in Hwf'.
  destruct (recorded_elsewhere (kind_of b) (this s) name) eqn:He.
  { destruct (set_binding_throws name b s He) as [e He']. congruence. }
  rewrite set_binding_normal in Hset by done. inversion Hset; subst s'.
  clear Hset. simpl. rewrite L_record_binding. split_and!.
  - rewrite state_of_store by apply Hwf. apply global_setglobal_push.
  - apply stored_record_binding.
  - intros L s1 Hinit.
    destruct (init_state_ok _ _ _ Hinit)
      as (s_r & sevs & Hr & _ & _ & _ & _ & _ & _ & _ & _ & _ & S_p & HS).
    exists s_r. split; [done|]. rewrite HS. simpl.
    apply global_replay_maps; [apply Hwf'|]. apply records_record_binding.
Qed.

(** C8.  Names are unique across the kinds.  A setter whose name is
    recorded in the map of another kind [k'] throws and leaves the context,
    the states and the trace as they are.  A setter whose name is recorded
    in no map of another kind returns, and the map of its kind has the new
    value under the name, whatever it had before, as has the global when the
    state of the context is open. *)
Theorem setter_checks_name_first (s : Sys) (name : string) (b : binding)
    (k' : kind) :
  (k' ≠ kind_of b -> recorded k' (this s) name = true ->
     exists e, set_binding name b s = (Thrown e, s))
  /\ (recorded_elsewhere (kind_of b) (this s) name = false ->
        exists s',
          set_binding name b s = (Normal tt, s')
          /\ stored (this s') name b
          /\ (is_open (world s) (__L (this s)) ->
                global (state_of (world s') (__L (this s'))) name
                = binding_value b))
  /\ (recorded_elsewhere (kind_of b) (this s) name = false
        <-> forall k, k ≠ kind_of b -> recorded k (this s) name = false).
Proof.
  split_and!.
  - intros Hne Hrec. apply set_binding_throws.
    apply recorded_elsewhere_true. eauto.
  - intros He. eexists. split; [by apply set_binding_normal|]. simpl.
    split; [apply stored_record_binding|]. intros Hopen.
    rewrite L_record_binding, state_of_store by done.
    apply global_setglobal_push.
  - apply recorded_elsewhere_false.
Qed.

(** ** The filter of the monitor *)

Lemma nullable_matches r : Fam.nullable r = true <-> matches r [].
Proof.
  induction r as [| |c|c| |r1 IH1 r2 IH2|r1 IH1 r2 IH2|r IH]; simpl.
  - split; [done|]. inversion 1.
  - split; [constructor|done].
  - split; [done|]. inversion 1.
  - split; [done|]. inversion 1.
  - split; [done|]. inversion 1.
  - rewrite andb_true_iff, IH1, IH2. split.
    + intros [H1 H2]. by apply (matches_cat _ _ [] []).
    + inversion 1 as [| | | |? ? s1 s2 H1 H2 [E1 E2] E| | | |]; subst.
      apply app_eq_nil in E as [-> ->]. done.
  - rewrite orb_true_iff, IH1, IH2. split.
    + intros [H|H]; [by apply matches_alt_l|by apply matches_alt_r].
    + inversion 1; subst; auto.
  - split; [constructor|done].
Qed.

Lemma matches_star_cons_inv r a s :
  matches (Fam.Star r) (a :: s) ->
  exists s1 s2, s = s1 ++ s2 /\ matches r (a :: s1) /\ matches (Fam.Star r) s2.
Proof.
  intros H. remember (Fam.Star r) as r' eqn:Hr'.
  remember (a :: s) as w eqn:Hw. revert a s Hw.
  induction H as [| | | | | | | |r0 s1 s2 H1 _ H2 IH2]; try discriminate.
  intros a s Hw. inversion Hr'; subst r0.
  destruct s1 as [|a' s1]; simpl in Hw.
  - by apply IH2.
  - inversion Hw; subst. eauto.
Qed.

Lemma deriv_matches a r s : matches (Fam.deriv a r) s <-> matches r (a :: s).
Proof.
  revert s. induction r as [| |c|c| |r1 IH1 r2 IH2|r1 IH1 r2 IH2|r IH];
    intros s; simpl.
  - split; inversion 1.
  - split; inversion 1.
  - destruct (Ascii.eqb_spec a c) as [->|Hne]; split; inversion 1; subst;
      try constructor; done.
  - destruct (Ascii.eqb_spec a c) as [->|Hne]; split; inversion 1; subst;
      try (by constructor); done.
  - split; inversion 1; subst; constructor.
  - assert (matches (Fam.Cat (Fam.deriv a r1) r2) s
            <-> exists s1 s2, s = s1 ++ s2 /\ matches r1 (a :: s1)
                              /\ matches r2 s2) as Hcat.
    { split.
      - inversion 1 as [| | | |? ? s1 s2 H1 H2| | | |]; subst.
        exists s1, s2. by rewrite <- IH1.
      - intros (s1 & s2 & -> & H1 & H2). constructor; [by apply IH1|done]. }
    destruct (Fam.nullable r1) eqn:Hn.
    + split.
      * inversion 1 as [| | | | |? ? ? H1|? ? ? H1| |]; subst.
        -- apply Hcat in H1 as (s1 & s2 & -> & H1 & H2).
           by apply (matches_cat _ _ (a :: s1) s2).
        -- apply IH2 in H1. apply (matches_cat _ _ [] (a :: s)); [|done].
           by apply nullable_matches.
      * inversion 1 as [| | | |? ? s1 s2 H1 H2 [E1 E2] E| | | |]; subst.
        destruct s1 as [|a' s1]; simpl in E.
        -- subst s2. apply matches_alt_r. by apply IH2.
        -- inversion E; subst. apply matches_alt_l. apply Hcat. eauto.
    + rewrite Hcat. split.
      * intros (s1 & s2 & -> & H1 & H2).
        by apply (matches_cat _ _ (a :: s1) s2).
      * inversion 1 as [| | | |? ? s1 s2 H1 H2 [E1 E2] E| | | |]; subst.
        destruct s1 as [|a' s1]; simpl in E.
        -- apply nullable_matches in H1. congruence.
        -- inversion E; subst. eauto.
  - split.
    + inversion 1; subst; [apply matches_alt_l|apply matches_alt_r];
        first [by apply IH1|by apply IH2].
    + inversion 1; subst; [apply matches_alt_l|apply matches_alt_r];
        first [by apply IH1|by apply IH2].
  - split.
    + inversion 1 as [| | | |? ? s1 s2 H1 H2| | | |]; subst.
      apply IH in H1. by apply (matches_star_cons _ (a :: s1) s2).
    + intros (s1 & s2 & -> & H1 & H2)%matches_star_cons_inv.
      constructor; [by apply IH|done].
Qed.

(** The matcher decides the words of the expression. *)
Lemma accepts_matches r s : Fam.accepts r s = true <-> matches r s.
Proof.
  revert r. induction s as [|a s IH]; intros r; simpl.
  - apply nullable_matches.
  - by rewrite IH, deriv_matches.
Qed.

Lemma regcomp_lua_filter : Fam.regcomp lua_filter = Some lua_filter_regex.
Proof. reflexivity. Qed.

Lemma matches_star_any s : matches (Fam.Star Fam.AnyChr) s.
Proof.
  induction s as [|a s IH]; [constructor|].
  apply (matches_star_cons _ [a] s); [constructor|done].
Qed.

Lemma matches_chr_cat c r s :
  matches (Fam.Cat (Fam.Chr c) r) s <-> exists s', s = c :: s' /\ matches r s'.
Proof.
  split.
  - inversion 1 as [| | | |? ? s1 s2 H1 H2| | | |]; subst.
    inversion H1; subst. eauto.
  - intros (s' & -> & H). apply (matches_cat _ _ [c] s'); [constructor|done].
Qed.

Lemma matches_lua_filter_regex s :
  matches lua_filter_regex s
  <-> exists c mid, s = c :: mid ++ ["."; "l"; "u"; "a"]%char /\ c ≠ "."%char.
Proof.
  unfold lua_filter_regex. split.
  - inversion 1 as [| | | |? ? s1 s2 H1 H2| | | |]; subst.
    inversion H1; subst. simpl.
    inversion H2 as [| | | |? ? s3 s4 H3 H4| | | |]; subst.
    inversion H3 as [| |? c Hc| | | | | |]; subst.
    inversion H4 as [| | | |? ? mid s6 H5 H6| | | |]; subst.
    apply matches_chr_cat in H6 as (s7 & -> & H6).
    apply matches_chr_cat in H6 as (s8 & -> & H6).
    apply matches_chr_cat in H6 as (s9 & -> & H6).
    apply matches_chr_cat in H6 as (s10 & -> & H6).
    inversion H6; subst. by exists c, mid.
  - intros (c & mid & -> & Hc).
    apply (matches_cat _ _ [] (c :: mid ++ _)); [constructor|].
    apply (matches_cat _ _ [c] (mid ++ _)); [by constructor|].
    apply matches_cat; [apply matches_star_any|].
    repeat (apply matches_chr_cat; eexists; split; [reflexivity|]).
    constructor.
Qed.

Lemma string_of_list_ascii_app l1 l2 :
  string_of_list_ascii (l1 ++ l2)
  = string_of_list_ascii l1 +:+ string_of_list_ascii l2.
Proof. induction l1 as [|a l1 IH]; simpl; [done|]. by rewrite IH. Qed.

(** The filter lets through the names that do not start with a dot and
    end in [.lua]. *)
Lemma regexec_lua_filter name :
  Fam.regexec lua_filter name = true
  <-> hidden name = false /\ has_lua_suffix name.
Proof.
  unfold Fam.regexec. rewrite regcomp_lua_filter, accepts_matches.
  rewrite matches_lua_filter_regex. unfold has_lua_suffix. split.
  - intros (c & mid & Hname & Hc).
    apply (f_equal string_of_list_ascii) in Hname.
    rewrite string_of_list_ascii_of_string in Hname. subst name. simpl.
    split.
    + by apply Ascii.eqb_neq.
    + exists (String c (string_of_list_ascii mid)). simpl. f_equal.
      by rewrite string_of_list_ascii_app.
  - intros [Hh [stem ->]]. destruct stem as [|c stem]; [done|].
    simpl in Hh. apply Ascii.eqb_neq in Hh.
    exists c, (list_ascii_of_string stem). split; [|done].
    simpl. f_equal. by rewrite list_ascii_of_string_app.
Qed.

Global Instance fam_grows_preorder : PreOrder fam_grows.
Proof.
  split.
  - intros c f Hf. exists f. by split_and!.
  - intros c1 c2 c3 H12 H23 f Hf.
    destruct (H12 f Hf) as (f2 & Hf2 & E2 & L2 & D2).
    destruct (H23 f2 Hf2) as (f3 & Hf3 & E3 & L3 & D3).
    exists f3. split_and!; [done|congruence|congruence|].
    by etransitivity.
Qed.

Lemma fam_grows_same c c' : __fam c' = __fam c -> fam_grows c c'.
Proof. intros H f Hf. exists f. rewrite H. by split_and!. Qed.

Lemma fam_grows_run c s : fam_grows (this s) (this (run c s).2).
Proof.
  destruct (is_set_start_script c) eqn:Hc.
  - destruct c; try discriminate. simpl. apply fam_grows_same.
    destruct start_script as [script|]; [|done].
    unfold set_start_script. rewrite bind_update_this.
    match goal with |- __fam (this (?m ?s0).2) = _ =>
      assert (respects (own_state (fun _ => True)) m) as Hm by own;
      specialize (Hm s0); destruct Hm as [-> _ _ _ _ _]
    end.
    done.
  - apply (this_rel_run fam_grows); try done;
      try (intros v c'; by apply fam_grows_same).
    + intros p c' f Hf. simpl. rewrite Hf. simpl. eexists.
      split_and!; try done. simpl. set_solver.
    + intros p c' f Hf. simpl. rewrite Hf. simpl. eexists.
      split_and!; done.
Qed.

Lemma bind_ret_tt (m : M unit) s : bind m (fun _ => ret tt) s = m s.
Proof. unfold bind, ret. by destruct (m s) as [[[]|e] s']. Qed.

Lemma add_dir_fam at_ chunk (upd : LuaContext -> LuaContext) path s s' f :
  (forall c, __fam (upd c) = __fam c) ->
  __fam (this s) = Some f ->
  (L <- get __L ;;
   do_string_on at_ L chunk ;;
   update_this upd ;;
   fam_watch_dir path) s = (Normal tt, s') ->
  __fam (this s') = Some (Fam.watch_dir path f).
Proof.
  intros Hupd Hf H. rewrite bind_get in H. step H as u s1 H1.
  apply do_string_on_went in H1 as W. rewrite bind_update_this in H.
  inversion H; subst s'. simpl.
  by rewrite Hupd, (went_this _ _ _ _ W), Hf.
Qed.

(** C4.  Hot reload.  Modelled from the spec as far as the monitor goes.
    The constructor with [watch_dirs] makes a monitor whose one filter is
    the filter of the context and whose listener is the context; the filter
    lets through exactly the names that do not start with a dot and end in
    [.lua], so the monitor hands a notification to the context exactly when
    it is for a watched directory and for such a name; [fam_event] is
    [restart], whatever the file and the mask; processing one pending
    notification restarts the interpreter when the monitor hands it over and
    does nothing otherwise; a directory added with [add_package_dir] or
    [add_cpackage_dir], when the call returns, or with [add_watchdir], is
    watched; and no call takes the monitor, its filter, its listener or a
    watched directory away. *)
Theorem file_changes_restart_the_interpreter :
  (forall enable_tracebacks w s,
     LuaContext_new true enable_tracebacks w = (Normal tt, s) ->
     __fam (this s) = Some (Fam.mkFam [lua_filter] [] [] true))
  /\ (forall filename mask s, fam_event filename mask s = restart s)
  /\ (forall name,
        Fam.regexec lua_filter name = true
        <-> hidden name = false /\ has_lua_suffix name)
  /\ (forall f e,
        Fam.filters f = [lua_filter] -> Fam.listening f = true ->
        (Fam.delivers f e = true
         <-> fs_dir e ∈ Fam.watched_dirs f
             /\ hidden (fs_name e) = false /\ has_lua_suffix (fs_name e)))
  /\ (forall s f e,
        __fam (this s) = Some f -> inotify (world s) = [e] ->
        process_fam_events s
        = (if Fam.delivers f e then restart else ret tt)
            (mkSys (this s) (set_inotify [] (world s))))
  /\ (forall path s f,
        __fam (this s) = Some f ->
        (forall s', add_package_dir path s = (Normal tt, s') ->
                    __fam (this s') = Some (Fam.watch_dir path f))
        /\ (forall s', add_cpackage_dir path s = (Normal tt, s') ->
                       __fam (this s') = Some (Fam.watch_dir path f))
        /\ __fam (this (add_watchdir path s).2) = Some (Fam.watch_dir path f)
        /\ path ∈ Fam.watched_dirs (Fam.watch_dir path f))
  /\ (forall c s, fam_grows (this s) (this (run c s).2)).
Proof.
  split_and!.
  - intros tb w s H. unfold LuaContext_new in H.
    apply bind_inv_ok in H as (L & s1 & H1 & H). inversion H; subst s.
    destruct (init_state_frame _ _ _ H1) as (Hthis & _). simpl.
    by rewrite Hthis.
  - done.
  - apply regexec_lua_filter.
  - intros f e Hfilters Hlisten. unfold Fam.delivers.
    rewrite Hfilters, Hlisten. simpl. rewrite andb_true_r.
    rewrite andb_true_iff, bool_decide_eq_true, regexec_lua_filter. done.
  - intros s f e Hf Hq. unfold process_fam_events.
    rewrite bind_get, Hf. unfold bind at 1. simpl. rewrite Hq.
    rewrite bind_update_world. simpl. rewrite bind_ret_tt.
    rewrite bind_get. simpl. rewrite Hf. by destruct (Fam.delivers f e).
  - intros path s f Hf. split_and!.
    + intros s' H. by eapply add_dir_fam; [|exact Hf|exact H].
    + intros s' H. by eapply add_dir_fam; [|exact Hf|exact H].
    + simpl. by rewrite Hf.
    + simpl. set_solver.
  - apply fam_grows_run.
Qed.

(** ** A restart that fails *)

Lemma pair_eta {A B} (x : A * B) (a : A) : x.1 = a -> x = (a, x.2).
Proof. destruct x. simpl. by intros ->. Qed.

Lemma run_all_reachable cs s : reachable s -> reachable (run_all cs s).
Proof.
  revert s. induction cs as [|c cs IH]; intros s Hs; [done|].
  simpl. apply IH. by apply reachable_call.
Qed.

Lemma example_new_reachable : reachable example_new.
Proof. by apply (reachable_new true true quiet_env). Qed.

(** When [init_state] throws, [restart] returns with the context as it was
    and on its old state; no state but the new one changed, and no watcher
    was told to finalize or that a restart happened. *)
Lemma restart_keeps_old_state s e s1 :
  init_state s = (Thrown e, s1) ->
  restart s = (Normal tt, s1)
  /\ this s1 = this s
  /\ (forall h, h ≠ next_state (world s) ->
        lua_states (world s1) !! h = lua_states (world s) !! h)
  /\ exists evs, trace (world s1) = trace (world s) ++ evs
       /\ Forall init_event evs.
Proof.
  intros H. split; [exact (restart_failed _ _ _ H)|].
  destruct (init_state_frame _ _ _ H) as (Hthis & _ & _ & _ & Hoth & evs & E & F).
  split_and!; try done. eexists. split; [exact E|].
  constructor; [done|]. eapply Forall_impl; [exact F|]. by intros ? [].
Qed.

(** When a callback [lua_init] throws, the new state is closed before the
    exception goes on. *)
Lemma lua_init_throw_closes L tb ws s e s' :
  for_each ws (fun w =>
    try_catch (notify EvInit lua_init w (LuaContext_wrap L tb))
      (fun e =>
         on_object (LuaContext_wrap L tb) LuaContext_dtor ;;
         lua_close L ;;
         throw e)) s = (Thrown e, s') ->
  ~ is_open (world s') L /\ last (trace (world s')) = Some (EvClose L).
Proof.
  revert s. induction ws as [|w ws IH]; intros s H; simpl in H; [done|].
  apply bind_inv in H as [(u & s1 & H1 & H)|(e' & H1 & _)]; [by eapply IH|].
  unfold try_catch in H1.
  destruct (notify EvInit lua_init w (LuaContext_wrap L tb) s)
    as [[[]|e0] s2]; [done|].
  rewrite (bind_ok _ _ _ tt s2) in H1 by apply dtor_wrapper.
  unfold lua_close in H1. rewrite bind_update_world in H1.
  inversion H1; subst. simpl. split.
  - unfold is_open. simpl. rewrite lookup_delete_eq. by intros [? ?].
  - by rewrite last_snoc.
Qed.

(** C2.  A restart that fails.  The claim has the new state closed whenever
    creating or initializing it throws.  Here a context has the package
    [foo], and the module breaks on disk; the restart that follows fails in
    [init_state] when it requires the package again.  [restart] catches the
    exception and the context stays as it was, on its old state; but the new
    state, number 1, is still open afterwards and was never closed: it is
    lost. *)
Theorem restart_leaves_new_state_open_when_package_fails :
  reachable example_broken
  /\ exists e s1,
       init_state example_broken = (Thrown e, s1)
       /\ restart example_broken = (Normal tt, s1)
       /\ this s1 = this example_broken
       /\ __L (this s1) = 0%nat
       /\ next_state (world example_broken) = 1%nat
       /\ is_open (world s1) 1%nat
       /\ EvClose 1%nat ∉ trace (world s1).
Proof.
  split.
  - apply (reachable_os
             (run (Add_package "foo") example_new).2 (missing_module_env "foo")).
    apply reachable_call, example_new_reachable.
  - exists (LuaRuntimeException "do_string" "module not found"),
      (init_state example_broken).2.
    assert (init_state example_broken
            = (Thrown (LuaRuntimeException "do_string" "module not found"),
               (init_state example_broken).2)) as H
      by (apply pair_eta; vm_compute; reflexivity).
    split; [exact H|]. split; [exact (restart_failed _ _ _ H)|].
    split_and!.
    + vm_compute. reflexivity.
    + vm_compute. reflexivity.
    + vm_compute. reflexivity.
    + eexists. vm_compute. reflexivity.
    + apply (bool_decide_unpack _). vm_compute. exact I.
Qed.

(** * The claims at work *)



Lemma setter_sets_global_and_records_witness :
  reachable example_new
  /\ set_binding "robot" (BString "fawkes") example_new
     = (Normal tt, (set_binding "robot" (BString "fawkes") example_new).2)
  /\ global
       (state_of (world (set_binding "robot" (BString "fawkes") example_new).2)
          0%nat) "robot" = VString "fawkes"
  /\ __strings (this (set_binding "robot" (BString "fawkes") example_new).2)
       !! "robot" = Some "fawkes"%string.
Proof.
  assert (set_binding "robot" (BString "fawkes") example_new
          = (Normal tt, (set_binding "robot" (BString "fawkes") example_new).2))
    as Hset by (apply pair_eta; vm_compute; reflexivity).
  split; [exact example_new_reachable|]. split; [exact Hset|].
  destruct (setter_sets_global_and_records example_new "robot"
              (BString "fawkes") _ example_new_reachable Hset)
    as (Hglobal & Hstored & _).
  split; [exact Hglobal|exact Hstored].
Defined.



Lemma setter_checks_name_first_witness :
  KString ≠ kind_of (BNumber 3)
  /\ recorded KString (this example_bound) "robot" = true
  /\ exists e,
       set_binding "robot" (BNumber 3) example_bound = (Thrown e, example_bound).
Proof.
  assert (KString ≠ kind_of (BNumber 3)) as Hne by discriminate.
  assert (recorded KString (this example_bound) "robot" = true) as Hrec
    by (vm_compute; reflexivity).
  split; [exact Hne|]. split; [exact Hrec|].
  exact (proj1 (setter_checks_name_first example_bound "robot" (BNumber 3)
                  KString) Hne Hrec).
Defined.


Lemma add_package_is_idempotent_witness :
  reachable example_bound
  /\ "skiller"%string ∈ __packages (this example_bound)
  /\ add_package "skiller" example_bound = (Normal tt, example_bound)
  /\ package_loads (trace (world example_bound)) (__L (this example_bound))
       "skiller" = 1%nat.
Proof.
  assert (reachable example_bound) as Hreach
    by apply run_all_reachable, example_new_reachable.
  assert ("skiller"%string ∈ __packages (this example_bound)) as Hin
    by (apply (bool_decide_unpack _); vm_compute; exact I).
  split; [exact Hreach|]. split; [exact Hin|].
  destruct (add_package_is_idempotent example_bound "skiller" Hreach)
    as (Hadd & _ & Hloads & _).
  split; [exact (Hadd Hin)|exact (Hloads Hin)].
Defined.

Lemma file_changes_restart_the_interpreter_witness :
  __fam (this example_notified)
  = Some (Fam.mkFam [lua_filter] ["/opt/lua"%string] [] true)
  /\ inotify (world example_notified)
     = [mkFsEvent "/opt/lua" "skill.lua" 2]
  /\ process_fam_events example_notified
     = restart
         (mkSys (this example_notified)
            (set_inotify [] (world example_notified))).
Proof.
  assert (__fam (this example_notified)
          = Some (Fam.mkFam [lua_filter] ["/opt/lua"%string] [] true)) as Hfam
    by reflexivity.
  assert (inotify (world example_notified)
          = [mkFsEvent "/opt/lua" "skill.lua" 2]) as Hq by reflexivity.
  split; [exact Hfam|]. split; [exact Hq|].
  destruct file_changes_restart_the_interpreter
    as (_ & _ & _ & _ & Hprocess & _).
  exact (Hprocess example_notified _ _ Hfam Hq).
Defined.
(** * More properties of the context *)

(** ** Invariants of the systems a host can bring about *)

(** X1.  In every system a host can bring about, no name is recorded in two
    of the six maps of the context: whatever setters, [remove_global] and
    restarts happened, a name has at most one recorded type. *)
Theorem recorded_names_stay_unique (s : Sys) :
  reachable s -> unique_names (this s).
Proof. intros Hs. exact (wf_unique _ (reachable_well_formed s Hs)). Qed.

(** X2.  In every system a host can bring about, the state [get_lua_state]
    returns is open: the context is never left on a state that was closed,
    neither by a restart that succeeded nor by one that failed.  The state
    was made before the one [luaL_newstate] returns next. *)
Theorem current_state_is_open (s : Sys) :
  reachable s ->
  get_lua_state s = (Normal (__L (this s)), s)
  /\ is_open (world s) (__L (this s))
  /\ (__L (this s) < next_state (world s))%nat.
Proof.
  intros Hs. pose proof (reachable_well_formed s Hs) as Hwf.
  split; [done|]. split; [apply Hwf|apply Hwf].
Qed.

(** ** Removing a global *)

Lemma remove_global_eq (name : string) (s : Sys) :
  remove_global name s
  = (Normal tt,
     mkSys
       (set___cfunctions (delete name (__cfunctions (this s)))
          (set___integers (delete name (__integers (this s)))
             (set___numbers (delete name (__numbers (this s)))
                (set___booleans (delete name (__booleans (this s)))
                   (set___strings (delete name (__strings (this s)))
                      (set___usertypes (delete name (__usertypes (this s)))
                         (this s)))))))
       (store_state (__L (this s))
          (lua_setglobal name (push VNil (state_of (world s) (__L (this s)))))
          (world s))).
Proof.
  unfold remove_global. rewrite !bind_update_this, bind_get. simpl.
  by rewrite lua_lua.
Qed.

(** X3.  [remove_global] forgets the name and clears the global.  It
    returns; afterwards none of the six maps has the name, so that a restart
    will not set it again; the global is nil in the state of the context; the
    stack is as before; and the entries and the globals of all other names
    are as they were. *)
Theorem remove_global_forgets (s : Sys) (name : string) :
  is_open (world s) (__L (this s)) ->
  exists s',
    remove_global name s = (Normal tt, s')
    /\ __L (this s') = __L (this s)
    /\ (forall k, recorded k (this s') name = false)
    /\ (forall v, ~ records (this s') name v)
    /\ global (state_of (world s') (__L (this s'))) name = VNil
    /\ stack (state_of (world s') (__L (this s')))
       = stack (state_of (world s) (__L (this s)))
    /\ trace (world s') = trace (world s)
    /\ (forall n, n ≠ name ->
          (forall k, recorded k (this s') n = recorded k (this s) n)
          /\ (forall v, records (this s') n v <-> records (this s) n v)
          /\ global (state_of (world s') (__L (this s'))) n
             = global (state_of (world s) (__L (this s))) n).
Proof.
  intros Hopen. eexists. split; [apply remove_global_eq|]. simpl.
  rewrite state_of_store by done.
  assert (forall k, recorded k
            (set___cfunctions (delete name (__cfunctions (this s)))
              (set___integers (delete name (__integers (this s)))
                (set___numbers (delete name (__numbers (this s)))
                  (set___booleans (delete name (__booleans (this s)))
                    (set___strings (delete name (__strings (this s)))
                      (set___usertypes (delete name (__usertypes (this s)))
                        (this s))))))) name = false) as Hrec.
  { intros []; simpl; apply has_false, lookup_delete_eq. }
  split_and!; try done.
  - intros v Hv. apply records_recorded in Hv as [k Hk].
    by rewrite Hrec in Hk.
  - apply global_setglobal_push.
  - apply stack_setglobal_push.
  - intros n Hn. split_and!.
    + intros []; simpl; unfold has; by rewrite lookup_delete_ne.
    + intros v. split; intros Hv; inversion Hv; subst; simpl in *.
      all: try (rewrite lookup_delete_ne in * by done).
      all: first [by apply records_usertype | by apply records_string
                 | by apply records_boolean | by apply records_number
                 | by apply records_integer | by apply records_cfunction
                 | idtac].
      all: first [apply records_usertype | apply records_string
                 | apply records_boolean | apply records_number
                 | apply records_integer | apply records_cfunction]; simpl;
           by rewrite lookup_delete_ne.
    + by apply global_setglobal_push_ne.
Qed.

(** X4.  A name is free again after [remove_global]: whatever was recorded
    under the name, and of whatever type, any of the six setters accepts the
    name right after [remove_global], and records its value. *)
Theorem name_is_free_after_remove_global (s : Sys) (name : string)
    (b : binding) :
  exists s1 s2,
    remove_global name s = (Normal tt, s1)
    /\ set_binding name b s1 = (Normal tt, s2)
    /\ stored (this s2) name b
    /\ forall k, recorded k (this s2) name = bool_decide (k = kind_of b).
Proof.
  eexists. eexists. split; [apply remove_global_eq|].
  match goal with |- set_binding _ _ ?s1 = _ /\ _ =>
    assert (forall k, recorded k (this s1) name = false) as Hrec
  end.
  { intros []; simpl; apply has_false, lookup_delete_eq. }
  split.
  { apply set_binding_normal. apply recorded_elsewhere_false.
    intros k _. apply Hrec. }
  split; [apply stored_record_binding|].
  intros k. cbn [this]. rewrite recorded_record_binding. rewrite Hrec.
  destruct (decide (k = kind_of b)) as [->|Hk].
  - rewrite decide_True by done. by rewrite bool_decide_eq_true_2.
  - rewrite decide_False by tauto. by rewrite bool_decide_eq_false_2.
Qed.

(** ** Executing strings and files *)

Lemma store_state_same (L : handle) (w : World) :
  store_state L (state_of w L) w = w.
Proof.
  destruct w as [m n E q t]. unfold store_state, set_lua_states, state_of.
  simpl. f_equal. apply map_eq. intros h.
  destruct (decide (h = L)) as [->|Hh].
  - rewrite lookup_alter_eq. by destruct (m !! L).
  - by rewrite lookup_alter_ne.
Qed.

Lemma store_state_log (L : handle) (S : lua_State) (e : event) (w : World) :
  store_state L S (log_event e w) = log_event e (store_state L S w).
Proof. done. Qed.

Lemma state_of_log (L : handle) (e : event) (w : World) :
  state_of (log_event e w) L = state_of w L.
Proof. done. Qed.

Lemma code_nonzero (f : failure) : (code f =? 0) = false.
Proof. by destruct f. Qed.

Lemma tostring_push (msg : string) (S : lua_State) :
  lua_tostring (-1) (push (VString msg) S) = msg.
Proof. unfold lua_tostring. by rewrite index_push_top. Qed.

(** What [do_string] does, by what the interpreter says of the string. *)
Lemma do_string_on_eq (at_ : site) (L : handle) (str : string) (s : Sys) :
  is_open (world s) L ->
  let S := state_of (world s) L in
  do_string_on at_ L str s
  = match Lua.load_string (os (world s)) str with
    | Some (f, msg) =>
        (Thrown (LuaRuntimeException "do_string" msg),
         mkSys (this s) (log_event (EvDoString at_ L str 1) (world s)))
    | None =>
        match call (os (world s)) (ChunkString str) (globals S) with
        | (None, g, results) =>
            (Normal tt,
             mkSys (this s)
               (log_event (EvDoString at_ L str 0)
                  (store_state L (mkState g (stack S ++ results)) (world s))))
        | (Some (f, msg), g, _) =>
            (Thrown (LuaRuntimeException "do_string" msg),
             mkSys (this s)
               (log_event (EvDoString at_ L str 1)
                  (store_state L (mkState g (stack S)) (world s))))
        end
    end.
Proof.
  intros Hopen S. unfold do_string_on. rewrite bind_get.
  unfold bind at 1. unfold lua_call at 1, luaL_loadstring.
  destruct (Lua.load_string (os (world s)) str) as [[f msg]|] eqn:Hload.
  - fold S. rewrite code_nonzero. cbn [bind ret log update_world].
    change (1 =? 0) with false. cbn [this world].
    unfold bind, lua_read, lua, update_world, throw. cbn [this world].
    rewrite state_of_log, state_of_store by done.
    rewrite tostring_push. rewrite lua_pop_push.
    rewrite store_state_log, store_store. unfold S.
    by rewrite store_state_same.
  - fold S. change (0 =? 0) with true. cbn [this world].
    unfold bind at 1. unfold bind at 1. unfold lua_call at 1.
    cbn [this world]. rewrite state_of_store by done.
    unfold lua_pcall. rewrite index_push_top, lua_pop_push.
    change (os (store_state L (push (VFunction (ChunkString str)) S)
                  (world s))) with (os (world s)).
    destruct (call (os (world s)) (ChunkString str) (globals S))
      as [[[[f msg]|] g] results] eqn:Hcall.
    + rewrite code_nonzero. cbn [ret bind log update_world this world].
      change (1 =? 0) with false.
      unfold bind, lua_read, lua, update_world, throw. cbn [this world].
      rewrite state_of_log, state_of_store by (by apply is_open_store).
      rewrite tostring_push, lua_pop_push.
      by rewrite store_state_log, !store_store.
    + cbn [ret bind log update_world this world].
      change (0 =? 0) with true. unfold ret.
      by rewrite store_store.
Qed.


(** X6.  When [do_string] returns, the string compiled and ran; the state
    of the context has the globals as the chunk left them, and everything
    the chunk returned is on the stack, above what was there: [do_string]
    calls with [LUA_MULTRET] and pops nothing. *)
Theorem do_string_success_keeps_results (at_ : site) (s : Sys) (str : string)
    (s' : Sys) :
  is_open (world s) (__L (this s)) ->
  do_string at_ str s = (Normal tt, s') ->
  let L := __L (this s) in
  let S := state_of (world s) L in
  this s' = this s
  /\ trace (world s') = trace (world s) ++ [EvDoString at_ L str 0]
  /\ Lua.load_string (os (world s)) str = None
  /\ exists g results,
       call (os (world s)) (ChunkString str) (globals S) = (None, g, results)
       /\ state_of (world s') L = mkState g (stack S ++ results).
Proof.
  intros Hopen H L S. unfold do_string in H. rewrite bind_get in H.
  rewrite do_string_on_eq in H by done. fold L S in H.
  destruct (Lua.load_string (os (world s)) str) as [[f msg]|]; [discriminate|].
  destruct (call (os (world s)) (ChunkString str) (globals S))
    as [[[[f msg]|] g] results]; [discriminate|].
  inversion H; subst. cbn [this world]. rewrite state_of_log.
  fold L. rewrite state_of_store by done. split_and!; try done.
  by exists g, results.
Qed.

(** What [do_file] does when the file does not load. *)
Lemma do_file_on_load_failure (L : handle) (filename : string) (s : Sys)
    (f : failure) (msg : string) :
  is_open (world s) L ->
  load_file (os (world s)) filename = Some (f, msg) ->
  f = ERRSYNTAX \/ f = ERRMEM \/ f = ERRFILE ->
  do_file_on L filename s
  = (Thrown
       (Exception
          match f with
          | ERRSYNTAX =>
              "Lua syntax error in file " +:+ filename +:+ ": " +:+ msg
          | ERRMEM => "Out of Memory. Could not load Lua file " +:+ filename
          | _ => "Could not open file file " +:+ filename +:+ ": " +:+ msg
          end),
     mkSys (this s) (log_event (EvDoFile L filename (code f)) (world s))).
Proof.
  intros Hopen Hload Hf. unfold do_file_on.
  unfold bind at 1. unfold lua_call at 1, luaL_loadfile. rewrite Hload.
  rewrite code_nonzero. cbn [this world].
  unfold bind at 1. unfold bind at 1. unfold bind at 1.
  unfold lua_read at 1. cbn [this world].
  rewrite state_of_store, tostring_push by done.
  unfold bind at 1. unfold lua at 1, update_world at 1. cbn [this world].
  rewrite state_of_store, lua_pop_push, store_store, store_state_same by done.
  unfold bind at 1. unfold log at 1, update_world at 1. cbn [this world].
  destruct Hf as [->|[->| ->]]; reflexivity.
Qed.


(** X7.  [do_file] on a file that does not load, because it cannot be
    opened, has a syntax error or memory ran out, throws an [Exception] that
    names the file, and the message of the interpreter for the first two; the
    file is not executed: the state of the interpreter, stack and globals,
    is as before, as is the context. *)
Theorem do_file_that_does_not_load (s : Sys) (filename : string)
    (f : failure) (msg : string) :
  is_open (world s) (__L (this s)) ->
  load_file (os (world s)) filename = Some (f, msg) ->
  f = ERRSYNTAX \/ f = ERRMEM \/ f = ERRFILE ->
  exists s',
    do_file filename s
    = (Thrown
         (Exception
            match f with
            | ERRSYNTAX =>
                "Lua syntax error in file " +:+ filename +:+ ": " +:+ msg
            | ERRMEM => "Out of Memory. Could not load Lua file " +:+ filename
            | _ => "Could not open file file " +:+ filename +:+ ": " +:+ msg
            end), s')
    /\ this s' = this s
    /\ lua_states (world s') = lua_states (world s)
    /\ trace (world s')
       = trace (world s) ++ [EvDoFile (__L (this s)) filename (code f)].
Proof.
  intros Hopen Hload Hf. eexists. unfold do_file. rewrite bind_get.
  split; [by apply do_file_on_load_failure|]. done.
Qed.


(** ** Loading without running *)

(** X9.  [load_string] compiles and does not run.  A string that compiles
    is left as a function on top of the stack, and nothing else changes: no
    global, no event.  A string with a syntax error makes [load_string]
    throw an [Exception] with the string and the message of the interpreter,
    and when memory runs out one with the string; the message is popped, so
    the system is as before. *)
Theorem load_string_compiles_only (s : Sys) (str : string) :
  is_open (world s) (__L (this s)) ->
  let L := __L (this s) in
  let S := state_of (world s) L in
  (Lua.load_string (os (world s)) str = None ->
     load_string str s
     = (Normal tt,
        mkSys (this s)
          (store_state L (push (VFunction (ChunkString str)) S) (world s))))
  /\ (forall msg,
        Lua.load_string (os (world s)) str = Some (ERRSYNTAX, msg) ->
        load_string str s
        = (Thrown (Exception ("Lua syntax error in string '" +:+ str +:+ "': "
                              +:+ msg)), s))
  /\ (forall msg,
        Lua.load_string (os (world s)) str = Some (ERRMEM, msg) ->
        load_string str s
        = (Thrown (Exception ("Out of Memory. Cannot load string '" +:+ str
                              +:+ "'")), s)).
Proof.
  intros Hopen L S.
  assert (forall (r : string -> M unit) msg,
    (errmsg <- lua_read L (lua_tostring (-1)) ;;
     lua L (lua_pop 1) ;; r errmsg)
      (mkSys (this s) (store_state L (push (VString msg) S) (world s)))
    = r msg s) as Hpop.
  { intros r msg. unfold bind at 1. unfold lua_read at 1. cbn [this world].
    rewrite state_of_store, tostring_push by done.
    unfold bind at 1. unfold lua at 1, update_world at 1. cbn [this world].
    rewrite state_of_store, lua_pop_push, store_store by done.
    unfold S. rewrite store_state_same. by destruct s. }
  split_and!.
  - intros Hload. unfold load_string. rewrite bind_get. fold L.
    unfold bind at 1. unfold lua_call at 1, luaL_loadstring. by rewrite Hload.
  - intros msg Hload. unfold load_string. rewrite bind_get. fold L.
    unfold bind at 1. unfold lua_call at 1, luaL_loadstring. rewrite Hload.
    fold S. cbn [code].
    exact (Hpop (fun errmsg =>
      throw (Exception ("Lua syntax error in string '" +:+ str +:+ "': "
                        +:+ errmsg))) msg).
  - intros msg Hload. unfold load_string. rewrite bind_get. fold L.
    unfold bind at 1. unfold lua_call at 1, luaL_loadstring. rewrite Hload.
    fold S. cbn [code].
    exact (Hpop (fun errmsg =>
      throw (Exception ("Out of Memory. Cannot load string '" +:+ str
                        +:+ "'"))) msg).
Qed.

(** ** Calls that fail record nothing *)



(** ** The start script, cleared *)

(** X11.  [set_start_script] with no script forgets the script and executes
    nothing: the world is as before.  In a restart that succeeds afterwards
    nothing runs in the new state after the callbacks [lua_init]. *)
Theorem clearing_the_start_script (s : Sys) :
  set_start_script None s
  = (Normal tt, mkSys (set___start_script None (this s)) (world s))
  /\ forall L s1,
       init_state (mkSys (set___start_script None (this s)) (world s))
       = (Normal L, s1) ->
       trace (world s1)
       = trace (world s) ++ replay_trace (this s) L
           ++ init_events (__watchers (this s)) L.
Proof.
  split; [done|]. intros L s1 H.
  apply init_state_ok in H
    as (s_r & sevs & _ & _ & _ & _ & _ & _ & _ & Htr & Hsevs & _).
  unfold start_events in Hsevs. cbn [this __start_script set___start_script]
    in Hsevs. subst sevs. rewrite Htr. cbn [this world].
  by rewrite app_nil_r.
Qed.

(** ** Restarts *)



(** ** The stack *)

Lemma on_L_eq (f : lua_State -> lua_State) (s : Sys) :
  on_L f s
  = (Normal tt,
     mkSys (this s)
       (store_state (__L (this s)) (f (state_of (world s) (__L (this s))))
          (world s))).
Proof. done. Qed.

(** X14.  The guard of [pop] does not look at a negative count.
    [pop n] with [n] below zero returns, with tracebacks enabled or not, and
    sets the height of the stack to [-n-1], as [lua_settop] does: the stack
    is cut or filled with nil to that height.  [pop (-1)] empties the stack,
    whatever was at its bottom. *)
Theorem pop_of_a_negative_count (s : Sys) (n : Z) :
  n < 0 ->
  is_open (world s) (__L (this s)) ->
  exists s',
    pop n s = (Normal tt, s')
    /\ this s' = this s
    /\ globals (state_of (world s') (__L (this s)))
       = globals (state_of (world s) (__L (this s)))
    /\ stack (state_of (world s') (__L (this s)))
       = resize (Z.to_nat (- n - 1)) VNil
           (stack (state_of (world s) (__L (this s))))
    /\ (n = -1 -> stack (state_of (world s') (__L (this s))) = []).
Proof.
  intros Hn Hopen. unfold pop. rewrite bind_get.
  unfold bind at 1. unfold stack_size at 1. rewrite bind_get.
  unfold lua_read at 1.
  assert ((n >=? lua_gettop (state_of (world s) (__L (this s)))) = false)
    as ->.
  { rewrite Z.geb_leb. apply Z.leb_gt. unfold lua_gettop. lia. }
  rewrite andb_false_r, on_L_eq. eexists. split; [done|]. cbn [this world].
  rewrite state_of_store by done. unfold lua_pop, lua_settop. cbn [globals stack set_stack].
  assert ((0 <=? - n - 1) = true) as -> by (apply Z.leb_le; lia).
  split_and!; try done. intros ->. apply resize_0.
Qed.

Lemma push_pop_eq (v : value) (s : Sys) :
  is_open (world s) (__L (this s)) ->
  __enable_tracebacks (this s) = false
  \/ 1 <= lua_gettop (state_of (world s) (__L (this s))) ->
  (on_L (push v) ;; pop 1) s = (Normal tt, s).
Proof.
  intros Hopen Htb. unfold bind at 1. rewrite on_L_eq.
  unfold pop. rewrite bind_get. cbn [this world].
  unfold bind at 1. unfold stack_size at 1. rewrite bind_get.
  unfold lua_read at 1. cbn [this world]. rewrite state_of_store by done.
  assert (__enable_tracebacks (this s)
          && (1 >=? lua_gettop (push v (state_of (world s) (__L (this s)))))
          = false) as ->.
  { unfold lua_gettop, push in *. cbn [stack set_stack]. rewrite length_app.
    simpl. destruct Htb as [->|Htb]; [done|]. apply andb_false_iff. right.
    rewrite Z.geb_leb. apply Z.leb_gt. lia. }
  rewrite on_L_eq. cbn [this world]. rewrite state_of_store by done.
  rewrite lua_pop_push, store_store, store_state_same. by destruct s.
Qed.

(** X15.  Pushing a value and popping it gives the system back.  Each of
    the push methods puts its value on top of the stack, [push_value] a
    copy of the element at the index; [pop 1] right after the push returns
    and the system is as before the push, provided that tracebacks are
    disabled or that the stack was not empty: with tracebacks enabled, [pop]
    refuses to pop the only element. *)
Theorem push_then_pop (s : Sys) :
  is_open (world s) (__L (this s)) ->
  __enable_tracebacks (this s) = false
  \/ 1 <= lua_gettop (state_of (world s) (__L (this s))) ->
  let L := __L (this s) in
  let S := state_of (world s) L in
  (forall c v,
     pushed_value c = Some v ->
     run c s = (Normal tt, mkSys (this s) (store_state L (push v S) (world s)))
     /\ (run c ;; pop 1) s = (Normal tt, s))
  /\ (forall idx,
        push_value idx s
        = (Normal tt,
           mkSys (this s) (store_state L (push (index S idx) S) (world s)))
        /\ (push_value idx ;; pop 1) s = (Normal tt, s)).
Proof.
  intros Hopen Htb L S. split.
  - intros c v Hc.
    assert (run c = on_L (push v)) as ->; [|split; [done|by apply push_pop_eq]].
    destruct c; try discriminate; simpl in Hc; inversion Hc; subst; try done.
    match goal with b : bool |- _ => by destruct b end.
  - intros idx. split; [done|].
    assert (forall s0, s0 = s ->
              (push_value idx ;; pop 1) s0
              = (on_L (push (index S idx)) ;; pop 1) s0) as Heq.
    { intros s0 ->. done. }
    rewrite Heq by done. by apply push_pop_eq.
Qed.

(** ** Globals set and read *)

Lemma valid_index_top (v : value) (S : lua_State) :
  valid_index (push v S) (-1) = true.
Proof.
  unfold valid_index, abs_index, lua_gettop, push. cbn [stack set_stack].
  rewrite length_app. simpl. apply andb_true_iff. split; apply Z.leb_le; lia.
Qed.

(** X16.  A global set by a setter reads back.  In a system a host can
    bring about, after a setter returned, [get_global] of the name pushes
    the value that was set, and changes nothing else; on that stack,
    [is_nil] of the top tells whether the value is nil, which it is only for
    a usertype with a null pointer, and for a boolean [to_boolean] gives the
    boolean back and [is_boolean] holds. *)
Theorem global_reads_back (s : Sys) (name : string) (b : binding) (s1 : Sys) :
  reachable s ->
  set_binding name b s = (Normal tt, s1) ->
  exists s2,
    get_global name s1 = (Normal tt, s2)
    /\ this s2 = this s1
    /\ stack (state_of (world s2) (__L (this s2)))
       = stack (state_of (world s) (__L (this s))) ++ [binding_value b]
    /\ globals (state_of (world s2) (__L (this s2)))
       = globals (state_of (world s1) (__L (this s1)))
    /\ is_nil (-1) s2
       = (Normal match binding_value b with VNil => true | _ => false end, s2)
    /\ forall v, b = BBoolean v ->
         to_boolean (-1) s2 = (Normal v, s2)
         /\ is_boolean (-1) s2 = (Normal true, s2).
Proof.
  intros Hs H. pose proof (reachable_well_formed s Hs) as Hwf.
  pose proof (wf_open _ Hwf) as Hopen.
  destruct (recorded_elsewhere (kind_of b) (this s) name) eqn:Hrec.
  { apply set_binding_throws with (b := b) (s := s) in Hrec as [e He].
    rewrite He in H. discriminate. }
  rewrite set_binding_normal in H by done. inversion H; subst s1; clear H.
  unfold get_global. rewrite on_L_eq. eexists. split; [done|].
  cbn [this world]. rewrite !L_record_binding.
  rewrite !state_of_store by (done || by apply is_open_store).
  set (S1 := lua_setglobal name (push (binding_value b)
                                   (state_of (world s) (__L (this s))))).
  assert (lua_getglobal name S1 = push (binding_value b) S1) as HS.
  { unfold lua_getglobal. f_equal. apply global_setglobal_push. }
  rewrite HS. split; [done|].
  split. { unfold push. cbn [stack set_stack]. unfold S1.
           by rewrite stack_setglobal_push. }
  split; [done|].
  unfold is_nil, to_boolean, is_boolean. rewrite !bind_get.
  unfold lua_read. cbn [this world]. rewrite !L_record_binding.
  rewrite !state_of_store by (done || by apply is_open_store).
  unfold lua_isnil, lua_toboolean, lua_isboolean.
  rewrite valid_index_top, index_push_top.
  split; [done|]. intros v ->. simpl. by destruct v.
Qed.

Lemma store_state_closed (L : handle) (S : lua_State) (w : World) :
  lua_states w !! L = None -> store_state L S w = w.
Proof.
  intros HL. destruct w as [m n E q t]. unfold store_state, set_lua_states.
  simpl in *. f_equal. apply map_eq. intros h.
  destruct (decide (h = L)) as [->|Hh].
  - rewrite lookup_alter_eq. by rewrite HL.
  - by rewrite lookup_alter_ne.
Qed.

Lemma store_state_twice (L : handle) (f g : lua_State -> lua_State)
    (w : World) :
  store_state L (g (state_of (store_state L (f (state_of w L)) w) L))
    (store_state L (f (state_of w L)) w)
  = store_state L (g (f (state_of w L))) w.
Proof.
  destruct (lua_states w !! L) as [S|] eqn:HL.
  - rewrite state_of_store by (by exists S). apply store_store.
  - rewrite (store_state_closed L (f (state_of w L)) w HL).
    by rewrite !(store_state_closed L _ w HL).
Qed.

(** X17.  [set_global] does not record.  Pushing a value and calling
    [set_global] does to the interpreter what the setter of the value does,
    when that returns: the worlds are the same.  But the context is as it
    was before: none of the six maps has the value, so a restart will not
    set the global again, and [assert_unique_name] does not know the
    name. *)
Theorem set_global_does_not_record (s : Sys) (name : string) (b : binding) :
  recorded_elsewhere (kind_of b) (this s) name = false ->
  exists s1 s2,
    set_binding name b s = (Normal tt, s1)
    /\ (push_binding b ;; set_global name) s = (Normal tt, s2)
    /\ world s2 = world s1
    /\ this s2 = this s
    /\ stored (this s1) name b.
Proof.
  intros Hrec. eexists. eexists. split; [by apply set_binding_normal|].
  assert (push_binding b s = on_L (push (binding_value b)) s) as Hpush.
  { destruct b as [| |v| | |]; try done. by destruct v. }
  unfold bind at 1. rewrite Hpush, on_L_eq. unfold set_global.
  rewrite on_L_eq. cbn [this world].
  split; [done|]. cbn [this world]. split.
  { apply (store_state_twice _ (push (binding_value b))
             (lua_setglobal name)). }
  split; [done|]. apply stored_record_binding.
Qed.

(** ** Construction *)

(** X18.  The default constructor cannot fail and runs no Lua code.
    Whatever the interpreter would do with a chunk, the construction
    returns a context on state 0, which it owns, with empty lists and maps
    and no start script; the state has the globals of the standard library
    and, on its stack, the traceback function when tracebacks are enabled
    and nothing otherwise; the one event is the creation of the state. *)
Theorem construction_always_succeeds (watch_dirs enable_tracebacks : bool)
    (E : Env) :
  exists s,
    LuaContext_new watch_dirs enable_tracebacks (initial_world E)
    = (Normal tt, s)
    /\ this s
       = mkLuaContext 0%nat true enable_tracebacks None [] [] [] ∅ ∅ ∅ ∅ ∅ ∅
           (if watch_dirs then Some (Fam.mkFam [lua_filter] [] [] true)
            else None) []
    /\ world s
       = mkWorld {[ 0%nat := fresh_state enable_tracebacks ]} 1%nat E []
           [EvNewState 0%nat].
Proof.
  exists (LuaContext_new watch_dirs enable_tracebacks (initial_world E)).2.
  split; [apply pair_eta|split];
    destruct watch_dirs, enable_tracebacks; vm_compute; reflexivity.
Qed.

(** ** What a restart touches *)

(** The states and the trace after a restart that succeeded. *)
Lemma restart_ok_states (s : Sys) (L : handle) (s1 : Sys) :
  well_formed s ->
  init_state s = (Normal L, s1) ->
  let old := __L (this s) in
  let ws := __watchers (this s) in
  exists s' sevs,
    restart s = (Normal tt, s')
    /\ __L (this s') = L
    /\ L = next_state (world s)
    /\ next_state (world s') = S L
    /\ lua_states (world s') !! old = None
    /\ (forall h, h ≠ old -> h ≠ L ->
          lua_states (world s') !! h = lua_states (world s) !! h)
    /\ start_events (this s) (os (world s)) L sevs
    /\ trace (world s')
       = trace (world s)
           ++ (replay_trace (this s) L ++ init_events ws L ++ sevs
                 ++ finalize_events ws old)
           ++ [EvClose old] ++ restarted_events ws L.
Proof.
  intros Hwf H old ws. pose proof (wf_fresh _ Hwf) as Hfresh.
  pose proof (restart_ok _ _ _ H) as (s2 & s3 & Hr & H2 & H3).
  cbv zeta in H2, H3.
  apply init_state_ok in H
    as (s_r & sevs & _ & HL & Hthis & Hnext & _ & _ & Hoth & Htr & Hsevs & _).
  assert (old ≠ L) as Hne by (unfold old; lia).
  destruct H2 as [T2 E2]. destruct H3 as [T3 E3].
  exists s3, sevs. split; [done|].
  split. { by rewrite (ot_this _ _ _ _ T3). }
  split; [done|].
  split. { rewrite (ot_next _ _ _ _ T3). cbn [world world_close log_event
             set_lua_states next_state]. by rewrite (ot_next _ _ _ _ T2). }
  split.
  { rewrite (ot_others _ _ _ _ T3) by done.
    cbn [world world_close log_event set_lua_states lua_states].
    apply lookup_delete_eq. }
  split.
  { intros h Hh1 Hh2. rewrite (ot_others _ _ _ _ T3) by done.
    cbn [world world_close log_event set_lua_states lua_states].
    rewrite lookup_delete_ne by done.
    rewrite (ot_others _ _ _ _ T2) by done. by apply Hoth. }
  split; [done|].
  rewrite E3. cbn [world world_close log_event set_lua_states trace].
  rewrite E2, Htr. by rewrite <- !app_assoc.
Qed.


(** ** Watchers *)

Lemma touches_for_each_in {A} (P : event -> Prop) (L : handle) (l : list A)
    (body : A -> M unit) :
  (forall x, x ∈ l -> respects (only_touches P L) (body x)) ->
  respects (only_touches P L) (for_each l body).
Proof.
  induction l as [|x l IH]; intros Hbody; simpl.
  - apply (respects_ret _).
  - apply (respects_bind _).
    + apply Hbody. by left.
    + intros _. apply IH. intros y Hy. apply Hbody. by right.
Qed.

Lemma init_replay_touches (P : event -> Prop) (s : Sys) (r : outcome handle)
    (s' : Sys) :
  (forall at_ L str rv, P (EvDoString at_ L str rv)) ->
  init_replay s = (r, s') ->
  only_touches P (next_state (world s)) (luaL_newstate s).2 s'.
Proof.
  intros HP H. unfold init_replay in H.
  apply bind_inv in H as [(L0 & s0 & H0 & H)|(e & H0 & _)];
    [|by inversion H0].
  cbv beta in H. unfold luaL_newstate in *. simpl in *.
  inversion H0; subst L0 s0; clear H0.
  match type of H with ?m ?s0 = _ =>
    assert (respects (only_touches P (next_state (world s))) m)
      as Hm; [|specialize (Hm s0); by rewrite H in Hm]
  end.
  repeat (apply (respects_bind _); [solve [touches]|intro]).
  apply (respects_bind _).
  { apply (respects_for_each _). intro. by apply touches_do_string_on. }
  intro. apply (respects_bind _); [touches|intro].
  apply (respects_bind _).
  { apply (respects_for_each _). intro. by apply touches_do_string_on. }
  intro. apply (respects_bind _); [touches|intro].
  apply (respects_bind _).
  { apply (respects_for_each _). intro. by apply touches_do_string_on. }
  intro. touches.
Qed.

Lemma init_finish_touches (P : event -> Prop) (L : handle) (s : Sys)
    (r : outcome unit) (s' : Sys) :
  (forall at_ L str rv, P (EvDoString at_ L str rv)) ->
  (forall L filename err, P (EvDoFile L filename err)) ->
  (forall L, P (EvClose L)) ->
  (forall w, w ∈ __watchers (this s) -> P (EvInit (watcher_id w) L)) ->
  init_finish L s = (r, s') ->
  only_touches P L s s'.
Proof.
  intros HP1 HP2 HP3 HP4 H. unfold init_finish in H. cbv zeta in H.
  rewrite bind_get in H.
  match type of H with ?m s = _ =>
    assert (respects (only_touches P L) m)
      as Hm; [|specialize (Hm s); by rewrite H in Hm]
  end.
  apply (respects_bind _).
  { apply touches_for_each_in. intros w Hw.
    apply (respects_try_catch _); [apply touches_notify_init; by apply HP4|].
    intros e. apply (respects_bind _); [apply touches_dtor_wrapper|intros _].
    apply (respects_bind _); [by apply touches_close|intros _].
    apply (respects_throw _). }
  intros _. apply (respects_bind _); [apply touches_dtor_wrapper|intros _].
  apply (respects_bind _); [apply (respects_get _)|intros [script|]];
    [|apply (respects_ret _)].
  apply (respects_bind _); [apply (respects_access _)|intros []].
  - by apply touches_do_file_on.
  - by apply touches_do_string_on.
Qed.

(** [init_state], whether it returns or throws, works on the new state
    only. *)
Lemma init_state_touches (P : event -> Prop) (s : Sys) (r : outcome handle)
    (s1 : Sys) :
  (forall at_ L str rv, P (EvDoString at_ L str rv)) ->
  (forall L filename err, P (EvDoFile L filename err)) ->
  (forall L, P (EvClose L)) ->
  (forall w, w ∈ __watchers (this s) ->
     P (EvInit (watcher_id w) (next_state (world s)))) ->
  init_state s = (r, s1) ->
  only_touches P (next_state (world s)) (luaL_newstate s).2 s1.
Proof.
  intros HP1 HP2 HP3 HP4 H. unfold init_state in H.
  apply bind_inv in H as [(L0 & s0 & H0 & H)|(e & H0 & _)].
  - pose proof (init_replay_frame _ _ _ H0) as [T0 HL].
    specialize (HL _ eq_refl). subst L0.
    apply (init_replay_touches P) in H0; [|done].
    etransitivity; [exact H0|].
    assert (this s0 = this s) as Hthis by apply T0.
    apply bind_inv in H as [(u & s2 & H2 & H)|(e & H2 & He)].
    + inversion H; subst. eapply init_finish_touches; try done.
      intros w Hw. rewrite Hthis in Hw. by apply HP4.
    + eapply init_finish_touches; try done.
      intros w Hw. rewrite Hthis in Hw. by apply HP4.
  - by apply (init_replay_touches P) in H0.
Qed.

(** The callbacks [init_state] calls are those of the registered
    watchers, whether it returns or throws. *)
Lemma init_state_calls (s : Sys) (r : outcome handle) (s1 : Sys) :
  init_state s = (r, s1) ->
  exists evs,
    trace (world s1) = trace (world s) ++ evs
    /\ Forall (called_from (watcher_id <$> __watchers (this s))) evs.
Proof.
  intros H. set (ids := watcher_id <$> __watchers (this s)).
  assert (only_touches (called_from ids) (next_state (world s))
            (luaL_newstate s).2 s1) as T.
  { eapply init_state_touches; try done.
    intros w Hw. simpl. unfold ids. by apply list_elem_of_fmap_2. }
  destruct T as [_ _ _ _ _ (evs & E & F & _)].
  unfold luaL_newstate in E. simpl in E.
  exists (EvNewState (next_state (world s)) :: evs).
  split; [by rewrite E, <- app_assoc|].
  constructor; [done|]. eapply Forall_impl; [exact F|]. by intros e [_ He].
Qed.

Lemma called_from_map (ids : list nat) (ev : nat -> handle -> event)
    (ws : list LuaContextWatcher) (L : handle) :
  (forall n, n ∈ ids -> called_from ids (ev n L)) ->
  (forall w, w ∈ ws -> watcher_id w ∈ ids) ->
  Forall (called_from ids) (map (fun w => ev (watcher_id w) L) ws).
Proof.
  intros Hev Hws. apply Forall_forall. intros e He.
  apply list_elem_of_fmap in He as (w & -> & Hw). apply Hev. by apply Hws.
Qed.

(** The callbacks [restart] calls are those of the registered watchers. *)
Lemma restart_calls (s : Sys) :
  exists evs,
    trace (world (restart s).2) = trace (world s) ++ evs
    /\ Forall (called_from (watcher_id <$> __watchers (this s))) evs.
Proof.
  set (ids := watcher_id <$> __watchers (this s)).
  destruct (init_state s) as [[L|e] s1] eqn:H.
  - pose proof (init_state_calls _ _ _ H) as (evs & E1 & F1).
    pose proof (restart_ok _ _ _ H) as (s2 & s3 & Hr & [_ E2] & [_ E3]).
    cbv zeta in E2, E3. rewrite Hr. cbn [snd].
    cbn [world world_close log_event set_lua_states trace] in E3.
    exists (evs ++ finalize_events (__watchers (this s)) (__L (this s))
              ++ [EvClose (__L (this s))]
              ++ restarted_events (__watchers (this s)) L).
    split. { rewrite E3, E2, E1. by rewrite <- !app_assoc. }
    assert (forall w, w ∈ __watchers (this s) -> watcher_id w ∈ ids) as Hws.
    { intros w Hw. by apply list_elem_of_fmap_2. }
    apply Forall_app. split; [done|].
    apply Forall_app. split; [by apply called_from_map|].
    apply Forall_app. split; [by repeat constructor|].
    by apply called_from_map.
  - pose proof (init_state_calls _ _ _ H) as (evs & E1 & F1).
    rewrite (restart_failed _ _ _ H). by exists evs.
Qed.

(** The same for the destructor. *)
Lemma dtor_calls (s : Sys) :
  exists evs,
    trace (world (LuaContext_dtor s).2) = trace (world s) ++ evs
    /\ Forall (called_from (watcher_id <$> __watchers (this s))) evs.
Proof.
  unfold LuaContext_dtor. rewrite bind_update_this, bind_get.
  cbn [this world set___fam __owns_L]. destruct (__owns_L (this s)); cbn [when].
  - rewrite bind_get. cbn [this].
    destruct (for_each_swallow EvFinalize lua_finalize (__watchers (this s))
                (mkSys (set___fam None (this s)) (world s)))
      as (s' & Hf & [T E]); [done|].
    unfold bind at 1. cbn [this set___fam __watchers] in *. rewrite Hf.
    rewrite bind_get. cbn [snd world lua_close update_world world_close
      log_event trace].
    change (trace (set_lua_states (delete (__L (this s')) (lua_states (world s')))
                     (world s'))) with (trace (world s')).
    eexists. split. { rewrite E. cbn [world]. by rewrite <- app_assoc. }
    apply Forall_app. split.
    + apply called_from_map; [done|]. intros w Hw.
      by apply list_elem_of_fmap_2.
    + by repeat constructor.
  - exists []. by rewrite app_nil_r.
Qed.

Lemma filter_all {A} (P : A -> Prop) `{forall x, Decision (P x)} (l : list A) :
  (forall x, x ∈ l -> P x) -> filter P l = l.
Proof.
  induction l as [|x l IH]; intros HP; [done|].
  rewrite filter_cons_True by (apply HP; by left).
  f_equal. apply IH. intros y Hy. apply HP. by right.
Qed.

(** X20.  A watcher that was removed is not called any more.
    [remove_watcher] takes every registration of the watcher off the list
    and touches nothing else; whatever a restart or the destructor does
    afterwards, with or without success, it calls no callback of that
    watcher.  A watcher that is added and removed again leaves the list as
    it was when it had not been registered before. *)
Theorem removed_watcher_is_not_called (s : Sys) (w : LuaContextWatcher) :
  let s0 := (remove_watcher w s).2 in
  world s0 = world s
  /\ (forall w', w' ∈ __watchers (this s0)
        <-> w' ∈ __watchers (this s) /\ watcher_id w' ≠ watcher_id w)
  /\ (exists evs,
        trace (world (restart s0).2) = trace (world s0) ++ evs
        /\ Forall (not_calling (watcher_id w)) evs)
  /\ (exists evs,
        trace (world (LuaContext_dtor s0).2) = trace (world s0) ++ evs
        /\ Forall (not_calling (watcher_id w)) evs)
  /\ ((forall w', w' ∈ __watchers (this s) -> watcher_id w' ≠ watcher_id w) ->
      __watchers (this (remove_watcher w (add_watcher w s).2).2)
      = __watchers (this s)).
Proof.
  intros s0.
  assert (forall w', w' ∈ __watchers (this s0)
            <-> w' ∈ __watchers (this s) /\ watcher_id w' ≠ watcher_id w)
    as Hin.
  { intros w'. unfold s0. simpl. rewrite list_elem_of_filter. tauto. }
  assert (forall e, called_from (watcher_id <$> __watchers (this s0)) e ->
            not_calling (watcher_id w) e) as Himpl.
  { intros e He. destruct e; simpl in *; try done.
    all: apply list_elem_of_fmap in He as (w' & -> & Hw'); by apply Hin. }
  split; [done|]. split; [done|].
  split.
  { destruct (restart_calls s0) as (evs & E & F). exists evs.
    split; [done|]. eapply Forall_impl; [exact F|exact Himpl]. }
  split.
  { destruct (dtor_calls s0) as (evs & E & F). exists evs.
    split; [done|]. eapply Forall_impl; [exact F|exact Himpl]. }
  intros Hnew. simpl. rewrite filter_app.
  assert (filter (fun w0 => watcher_id w0 ≠ watcher_id w) [w] = []) as ->.
  { rewrite filter_cons_False; [done|]. by intros Hw. }
  rewrite app_nil_r. apply filter_all. intros w' Hw'. by apply Hnew.
Qed.

(** ** A context without a monitor *)

Lemma no_fam_preorder :
  PreOrder (fun c c' : LuaContext => __fam c = None -> __fam c' = None).
Proof. split; [by intros c|]. intros c1 c2 c3 H1 H2 H. by apply H2, H1. Qed.

Lemma no_fam_run (c : api) (s : Sys) :
  __fam (this s) = None -> __fam (this (run c s).2) = None.
Proof.
  destruct (is_set_start_script c) eqn:Hc.
  - destruct c; try discriminate. simpl.
    destruct start_script as [script|]; [|done].
    unfold set_start_script. rewrite bind_update_this.
    unfold bind at 1. unfold access at 1. cbn [this world].
    intros Hfam.
    destruct (access_R_OK _ _).
    + rewrite (ot_this _ _ _ _ (own_do_file (fun _ => True) script
                 (fun _ _ => I) _)). done.
    + rewrite (ot_this _ _ _ _ (own_do_string (fun _ => True) AtStartScript
                 (require_chunk script) (fun _ _ => I) _)). done.
  - apply (this_rel_run _ (PreOrder0 := no_fam_preorder)); try done.
    + intros p c0 H. simpl. by rewrite H.
    + intros p c0 H. simpl. by rewrite H.
Qed.

Lemma set_fam_none (c : LuaContext) : __fam c = None -> set___fam None c = c.
Proof. destruct c. simpl. by intros ->. Qed.

(** X21.  A context without a monitor never gets one and never reloads on
    its own.  The constructor with [watch_dirs] false and the wrapper
    constructor make no monitor, and no call makes one later.  Without a
    monitor [process_fam_events], [add_watchdir] and [add_watchfile] return
    and change nothing: pending notifications stay pending and nothing is
    restarted. *)
Theorem no_monitor_no_reload :
  (forall enable_tracebacks w s,
     LuaContext_new false enable_tracebacks w = (Normal tt, s) ->
     __fam (this s) = None)
  /\ (forall L tb, __fam (LuaContext_wrap L tb) = None)
  /\ (forall cs s,
        __fam (this s) = None -> __fam (this (run_all cs s)) = None)
  /\ (forall s path,
        __fam (this s) = None ->
        process_fam_events s = (Normal tt, s)
        /\ add_watchdir path s = (Normal tt, s)
        /\ add_watchfile path s = (Normal tt, s)).
Proof.
  split_and!.
  - intros tb w s H. unfold LuaContext_new in H.
    apply bind_inv_ok in H as (L & s1 & H1 & H). inversion H; subst.
    cbn [this set___fam __fam set___L].
    apply init_state_frame in H1 as (Hthis & _). by rewrite Hthis.
  - done.
  - intros cs. induction cs as [|c cs IH]; intros s Hs; [done|].
    simpl. apply IH. by apply no_fam_run.
  - intros s path Hs. split_and!.
    + unfold process_fam_events. rewrite bind_get. by rewrite Hs.
    + unfold add_watchdir, fam_watch_dir, update_this. rewrite Hs. simpl.
      rewrite set_fam_none by done. by destruct s.
    + unfold add_watchfile, update_this. rewrite Hs. simpl.
      rewrite set_fam_none by done. by destruct s.
Qed.

(** ** States are closed once, and for good *)

Lemma no_use_after_close_quiet (evs : list event) :
  Forall not_close evs -> no_use_after_close evs.
Proof.
  induction 1 as [|e evs He _ IH]; [done|]. simpl. split; [|done].
  by destruct e.
Qed.

Lemma no_use_after_close_app (tr evs : list event) :
  no_use_after_close tr -> no_use_after_close evs ->
  (forall h, EvClose h ∈ tr -> Forall (fun e => ev_handle e ≠ h) evs) ->
  no_use_after_close (tr ++ evs).
Proof.
  induction tr as [|e tr IH]; intros Htr Hevs Hcl; [done|].
  simpl in *. destruct Htr as [He Htr]. split.
  - destruct e; try done. apply Forall_app. split; [done|].
    apply Hcl. by left.
  - apply IH; try done. intros h Hh. apply Hcl. by right.
Qed.

Lemma no_use_after_close_last (pre : list event) (h : handle) :
  Forall not_close pre -> no_use_after_close (pre ++ [EvClose h]).
Proof.
  intros Hpre. apply no_use_after_close_app.
  - by apply no_use_after_close_quiet.
  - simpl. by repeat constructor.
  - intros h' Hh'. apply Forall_forall with (x := EvClose h') in Hpre; done.
Qed.

Lemma closed_states_in (tr : list event) (h : handle) :
  h ∈ closed_states tr <-> EvClose h ∈ tr.
Proof.
  unfold closed_states. rewrite list_elem_of_omap. split.
  - intros (e & He & Heq). destruct e; try discriminate.
    inversion Heq; by subst.
  - intros Hin. by exists (EvClose h).
Qed.

Lemma closed_states_NoDup (tr : list event) :
  no_use_after_close tr -> NoDup (closed_states tr).
Proof.
  induction tr as [|e tr IH]; intros Htr; [apply NoDup_nil_2|].
  simpl in Htr. destruct Htr as [He Htr].
  destruct e; try (by apply IH).
  change (NoDup (L :: closed_states tr)). apply NoDup_cons. split; [|by apply IH].
  intros Hin%closed_states_in.
  apply Forall_forall with (x := EvClose L) in He; done.
Qed.

(** A step keeps what is closed closed. *)
Lemma closed_for_good_step (s : Sys) (w' : World) :
  well_formed s -> closed_for_good (world s) ->
  world_step (__L (this s)) (world s) w' ->
  closed_for_good w'.
Proof.
  intros Hwf [Htr Hcl] (evs & E & Hh & Hevs & Hnew & Hoth).
  assert (forall h, EvClose h ∈ trace (world s) ->
            h ≠ __L (this s) /\ h ≠ next_state (world s)) as Hold.
  { intros h Hin. split.
    - intros ->. apply Hcl in Hin. destruct (wf_open _ Hwf) as [S HS].
      congruence.
    - pose proof (wf_trace _ Hwf) as Ht.
      apply Forall_forall with (x := EvClose h) in Ht; [|done].
      simpl in Ht. lia. }
  split.
  - rewrite E. apply no_use_after_close_app; try done.
    intros h Hin. destruct (Hold h Hin) as [H1 H2].
    eapply Forall_impl; [exact Hh|]. simpl. intros e [->| ->]; done.
  - intros h. rewrite E, elem_of_app. intros [Hin|Hin]; [|by apply Hnew].
    destruct (Hold h Hin) as [H1 H2]. rewrite Hoth by done. by apply Hcl.
Qed.

(** *** [init_state] closes the new state last, if at all *)

Lemma went_trace (L : handle) (evs : list event) (s s' : Sys) :
  went L evs s s' -> trace (world s') = trace (world s) ++ evs.
Proof. by intros [_ E]. Qed.

(** The loop of [init_state] over the watchers: when it returns, nothing
    was closed; when it throws, the new state was closed, last. *)
Lemma init_loop_closes_last (L : handle) (tb : bool)
    (ws : list LuaContextWatcher) (s : Sys) (r : outcome unit) (s' : Sys) :
  for_each ws (fun w =>
    try_catch (notify EvInit lua_init w (LuaContext_wrap L tb))
      (fun e =>
         on_object (LuaContext_wrap L tb) LuaContext_dtor ;;
         lua_close L ;;
         throw e)) s = (r, s') ->
  exists evs,
    trace (world s') = trace (world s) ++ evs
    /\ match r with
       | Normal _ => Forall not_close evs
       | Thrown _ =>
           exists pre w,
             evs = pre ++ [EvInit (watcher_id w) L; EvClose L]
             /\ Forall not_close pre /\ w ∈ ws
             /\ lua_states (world s') !! L = None
       end.
Proof.
  revert s. induction ws as [|w ws IH]; intros s H; simpl in H.
  - inversion H; subst. exists []. by rewrite app_nil_r.
  - unfold bind at 1 in H. unfold try_catch at 1 in H.
    destruct (notify EvInit lua_init w (LuaContext_wrap L tb) s)
      as [[[]|e] s1] eqn:Hn.
    + apply notify_went in Hn; [|done]. apply went_trace in Hn.
      cbn [LuaContext_wrap __L] in Hn.
      apply IH in H as (evs & E & Hr). exists (EvInit (watcher_id w) L :: evs).
      split. { rewrite E, Hn. by rewrite <- app_assoc. }
      destruct r as [u|e].
      * by constructor.
      * destruct Hr as (pre & w' & -> & Hpre & Hw' & Hcl).
        exists (EvInit (watcher_id w) L :: pre), w'. split; [done|].
        split; [by constructor|]. split; [by right|done].
    + apply notify_went in Hn; [|done]. apply went_trace in Hn.
      cbn [LuaContext_wrap __L] in Hn.
      unfold bind at 1 in H. rewrite dtor_wrapper in H.
      unfold bind at 1 in H. unfold lua_close at 1, update_world at 1 in H.
      unfold throw in H. inversion H; subst r s'; clear H.
      cbn [this world world_close log_event set_lua_states trace lua_states].
      exists ([EvInit (watcher_id w) L] ++ [EvClose L]). rewrite Hn.
      split; [by rewrite <- app_assoc|].
      exists [], w. split; [done|]. split; [done|]. split; [by left|].
      apply lookup_delete_eq.
Qed.

(** [init_state], when it throws: everything is about the new state, and
    if the new state was closed, that was the last thing to happen. *)
Lemma init_state_thrown (s : Sys) (e : exn) (s1 : Sys) :
  init_state s = (Thrown e, s1) ->
  exists evs,
    trace (world s1) = trace (world s) ++ evs
    /\ Forall (fun ev => ev_handle ev = next_state (world s)) evs
    /\ (Forall not_close evs
        \/ exists pre w,
             evs = pre ++ [EvInit (watcher_id w) (next_state (world s));
                           EvClose (next_state (world s))]
             /\ Forall not_close pre
             /\ w ∈ __watchers (this s)
             /\ lua_states (world s1) !! next_state (world s) = None).
Proof.
  intros H. set (L := next_state (world s)).
  pose proof (init_state_frame _ _ _ H) as (_ & _ & _ & _ & _ & evs0 & E0 & F0).
  fold L in E0, F0.
  assert (Forall (fun ev => ev_handle ev = L) (EvNewState L :: evs0)) as HL.
  { constructor; [done|]. eapply Forall_impl; [exact F0|]. by intros ? []. }
  exists (EvNewState L :: evs0). split; [done|]. split; [done|].
  unfold init_state in H.
  apply bind_inv in H as [(L0 & s0 & H0 & H)|(e' & H0 & He)].
  - pose proof (init_replay_frame _ _ _ H0) as [_ HL0].
    specialize (HL0 _ eq_refl). fold L in HL0. subst L0.
    apply (init_replay_touches not_close) in H0; [|done].
    destruct H0 as [Hthis0 _ _ _ _ (evs1 & E1 & F1 & _)]. fold L in F1.
    unfold luaL_newstate in Hthis0. cbn [snd this world_newstate] in Hthis0.
    unfold luaL_newstate in E1. cbn [snd world world_newstate trace] in E1.
    fold L in E1.
    apply bind_inv in H as [(u & s2 & H2 & H)|(e' & H2 & He)];
      [discriminate|].
    inversion He; subst e'; clear He.
    unfold init_finish in H2. cbv zeta in H2. rewrite bind_get in H2.
    apply bind_inv in H2 as [(u & s2 & H2 & H3)|(e' & H2 & He)].
    + (* the callbacks returned, the start script failed *)
      apply init_loop_closes_last in H2 as (evs2 & E2 & F2).
      unfold bind at 1 in H3. rewrite dtor_wrapper in H3.
      rewrite bind_get in H3.
      assert (only_touches not_close L s2 s1) as T3.
      { destruct (__start_script (this s2)) as [script|]; [|discriminate].
        unfold bind at 1 in H3. unfold access at 1 in H3.
        destruct (access_R_OK _ _).
        - pose proof (touches_do_file_on not_close L script (fun _ => I) s2)
            as Hm. by rewrite H3 in Hm.
        - pose proof (touches_do_string_on not_close AtStartScript L
                        (require_chunk script) (fun _ => I) s2) as Hm.
          by rewrite H3 in Hm. }
      destruct T3 as [_ _ _ _ _ (evs3 & E3 & F3 & _)].
      left. rewrite E3, E2, E1, <- !app_assoc in E0.
      apply app_inv_head in E0. simpl in E0. rewrite <- E0.
      constructor; [done|]. repeat (apply Forall_app; split); try done.
      * eapply Forall_impl; [exact F1|]. by intros ? [].
      * eapply Forall_impl; [exact F3|]. by intros ? [].
    + (* a callback threw *)
      inversion He; subst e'; clear He.
      apply init_loop_closes_last
        in H2 as (evs2 & E2 & pre & w & -> & Hpre & Hw & Hcl).
      right. rewrite E2, E1, <- !app_assoc in E0.
      apply app_inv_head in E0. simpl in E0.
      exists (EvNewState L :: evs1 ++ pre), w. split.
      { rewrite <- E0. simpl. by rewrite <- app_assoc. }
      split.
      { constructor; [done|]. apply Forall_app. split; [|done].
        eapply Forall_impl; [exact F1|]. by intros ? []. }
      split; [|done]. by rewrite <- Hthis0.
  - (* the replay failed *)
    inversion He; subst e'; clear He.
    apply (init_replay_touches not_close) in H0; [|done].
    destruct H0 as [_ _ _ _ _ (evs1 & E1 & F1 & _)].
    unfold luaL_newstate in E1. cbn [snd world world_newstate trace] in E1.
    fold L in E1. left. rewrite E1, <- app_assoc in E0.
    apply app_inv_head in E0. simpl in E0. rewrite <- E0.
    constructor; [done|]. eapply Forall_impl; [exact F1|]. by intros ? [].
Qed.

(** *** Every call is a step *)

Lemma world_step_refl (L : handle) (w : World) : world_step L w w.
Proof.
  exists []. rewrite app_nil_r. split_and!; try done.
  intros h Hh. by apply elem_of_nil in Hh.
Qed.

Lemma world_step_touches (P : event -> Prop) (L : handle) (s s' : Sys) :
  (forall e, P e -> not_close e) ->
  only_touches P L s s' -> world_step L (world s) (world s').
Proof.
  intros HP [_ _ _ _ Hoth (evs & E & F & _)]. exists evs.
  assert (Forall not_close evs) as Hq.
  { eapply Forall_impl; [exact F|]. intros e [_ He]. by apply HP. }
  split; [done|]. split.
  { eapply Forall_impl; [exact F|]. intros e [He _]. by left. }
  split; [by apply no_use_after_close_quiet|]. split.
  - intros h Hh. by apply Forall_forall with (x := EvClose h) in Hq.
  - intros h Hh _. by apply Hoth.
Qed.

Lemma restart_world_step (s : Sys) :
  well_formed s ->
  world_step (__L (this s)) (world s) (world (restart s).2).
Proof.
  intros Hwf. pose proof (wf_fresh _ Hwf) as Hfresh.
  destruct (init_state s) as [[L|e] s1] eqn:H.
  - destruct (restart_ok_states s L s1 Hwf H)
      as (s' & sevs & Hr & _ & HL & _ & Hold & Hoth & Hsevs & E).
    cbv zeta in Hold, Hoth, E. rewrite Hr. cbn [snd].
    set (old := __L (this s)) in *. set (ws := __watchers (this s)) in *.
    assert (old ≠ L) as Hne by (unfold old; lia).
    assert (Forall not_close
              (replay_trace (this s) L ++ init_events ws L ++ sevs
                 ++ finalize_events ws old)) as Hq.
    { repeat (apply Forall_app; split).
      - unfold replay_trace. constructor; [done|].
        repeat (apply Forall_app; split).
        all: apply Forall_forall; intros ? Hin;
          by apply list_elem_of_fmap in Hin as (? & -> & _).
      - apply Forall_forall; intros ? Hin.
        by apply list_elem_of_fmap in Hin as (? & -> & _).
      - apply Forall_forall. intros ev Hin. destruct ev; try done.
        by apply (start_events_no_close _ _ _ _ L0) in Hsevs.
      - apply Forall_forall; intros ? Hin.
        by apply list_elem_of_fmap in Hin as (? & -> & _). }
    eexists. split; [exact E|]. split.
    { assert (forall (f : LuaContextWatcher -> event) l,
                (forall w, ev_handle (f w) = old \/ ev_handle (f w) = L) ->
                Forall (fun e => ev_handle e = old \/ ev_handle e = L)
                  (map f l)) as Hmap.
      { intros f l Hf. apply Forall_forall. intros ? Hin.
        by apply list_elem_of_fmap in Hin as (? & -> & _). }
      assert (forall (f : string -> event) l,
                (forall w, ev_handle (f w) = old \/ ev_handle (f w) = L) ->
                Forall (fun e => ev_handle e = old \/ ev_handle e = L)
                  (map f l)) as Hmap'.
      { intros f l Hf. apply Forall_forall. intros ? Hin.
        by apply list_elem_of_fmap in Hin as (? & -> & _). }
      rewrite <- HL. repeat (apply Forall_app; split).
      - unfold replay_trace. constructor; [by right|].
        repeat (apply Forall_app; split); apply Hmap'; intros; by right.
      - apply Hmap. intros; by right.
      - eapply Forall_impl; [by eapply start_events_handle|].
        simpl. intros ? ->. by right.
      - apply Hmap. intros; by left.
      - constructor; [by left|constructor].
      - apply Hmap. intros; by right. }
    split.
    { apply no_use_after_close_app.
      - by apply no_use_after_close_quiet.
      - simpl. split.
        + apply Forall_forall. intros ? Hin.
          apply list_elem_of_fmap in Hin as (? & -> & _). simpl. done.
        + apply no_use_after_close_quiet. apply Forall_forall. intros ? Hin.
          by apply list_elem_of_fmap in Hin as (? & -> & _).
      - intros h Hh. by apply Forall_forall with (x := EvClose h) in Hq. }
    split.
    { intros h. rewrite elem_of_app. intros [Hh|Hh].
      - by apply Forall_forall with (x := EvClose h) in Hq.
      - apply elem_of_app in Hh as [Hh|Hh].
        + apply list_elem_of_singleton in Hh. by inversion Hh; subst.
        + by apply list_elem_of_fmap in Hh as (? & ? & _). }
    intros h Hh1 Hh2. apply Hoth; [done|]. by rewrite HL.
  - rewrite (restart_failed _ _ _ H). cbn [snd].
    pose proof (init_state_frame _ _ _ H) as (_ & _ & _ & _ & Hoth & _).
    cbv zeta in Hoth.
    destruct (init_state_thrown _ _ _ H) as (evs & E & HL & Hcl).
    exists evs. split; [done|]. split.
    { eapply Forall_impl; [exact HL|]. intros ? ->. by right. }
    split.
    { destruct Hcl as [Hq|(pre & w & -> & Hpre & _)].
      - by apply no_use_after_close_quiet.
      - change (pre ++ [EvInit (watcher_id w) (next_state (world s));
                        EvClose (next_state (world s))])
          with (pre ++ [EvInit (watcher_id w) (next_state (world s))]
                    ++ [EvClose (next_state (world s))]).
        rewrite app_assoc. apply no_use_after_close_last.
        apply Forall_app. split; [done|]. by repeat constructor. }
    split.
    { intros h Hh. destruct Hcl as [Hq|(pre & w & -> & Hpre & _ & Hcl)].
      - by apply Forall_forall with (x := EvClose h) in Hq.
      - apply elem_of_app in Hh as [Hh|Hh].
        + by apply Forall_forall with (x := EvClose h) in Hpre.
        + apply elem_of_cons in Hh as [Hh|Hh]; [done|].
          apply list_elem_of_singleton in Hh. by inversion Hh; subst. }
    intros h _ Hh. by apply Hoth.
Qed.

Global Instance own_step_preorder : PreOrder own_step.
Proof.
  split.
  - intros s. unfold own_step. split_and!; try done.
    exists []. by rewrite app_nil_r.
  - intros s1 s2 s3 (HL1 & HN1 & HO1 & evs1 & E1 & F1)
      (HL2 & HN2 & HO2 & evs2 & E2 & F2).
    rewrite HL1 in *. split_and!.
    + congruence.
    + congruence.
    + intros h Hh. rewrite HO2, HO1; done.
    + exists (evs1 ++ evs2). split; [by rewrite E2, E1, <- app_assoc|].
      by apply Forall_app.
Qed.

Lemma own_step_own_state {A} (P : event -> Prop) (m : M A) :
  (forall e, P e -> not_close e) ->
  respects (own_state P) m -> respects own_step m.
Proof.
  intros HP Hm s. destruct (Hm s) as [Hthis Hnext _ _ Hoth (evs & E & F & _)].
  unfold own_step. split_and!; try done; [by rewrite Hthis|].
  exists evs. split; [done|]. eapply Forall_impl; [exact F|].
  intros e [He1 He2]. split; [done|]. by apply HP.
Qed.

Lemma own_step_update_this (f : LuaContext -> LuaContext) :
  (forall c, __L (f c) = __L c) -> respects own_step (update_this f).
Proof.
  intros Hf s. unfold own_step. simpl. split_and!; try done.
  exists []. by rewrite app_nil_r.
Qed.

Lemma own_step_store (c : LuaContext) (X : lua_State) (s : Sys) :
  __L c = __L (this s) ->
  own_step s (mkSys c (store_state (__L (this s)) X (world s))).
Proof.
  intros Hc. unfold own_step. cbn [this world]. split_and!; try done.
  - intros h Hh. cbn [world store_state set_lua_states lua_states].
    by rewrite lookup_alter_ne.
  - exists []. by rewrite app_nil_r.
Qed.

Lemma own_step_world_step (s s' : Sys) :
  own_step s s' -> world_step (__L (this s)) (world s) (world s').
Proof.
  intros (_ & _ & Hoth & evs & E & F). exists evs.
  assert (Forall not_close evs) as Hq.
  { eapply Forall_impl; [exact F|]. by intros e [_ He]. }
  split; [done|]. split.
  { eapply Forall_impl; [exact F|]. intros e [He _]. by left. }
  split; [by apply no_use_after_close_quiet|]. split.
  - intros h Hh. by apply Forall_forall with (x := EvClose h) in Hq.
  - intros h Hh _. by apply Hoth.
Qed.

Lemma own_step_do_string (at_ : site) (str : string) :
  respects own_step (do_string at_ str).
Proof. apply (own_step_own_state not_close); [done|]. by apply own_do_string. Qed.

Lemma own_step_set_binding (name : string) (b : binding) :
  respects own_step (set_binding name b).
Proof.
  intros s. destruct (recorded_elsewhere (kind_of b) (this s) name) eqn:He.
  - destruct (set_binding_throws name b s He) as [e ->]. reflexivity.
  - rewrite set_binding_normal by done. apply own_step_store.
    apply L_record_binding.
Qed.

(** Every call but a restart works on the state of the context and closes
    nothing. *)
Lemma own_step_run (c : api) :
  match c with
  | Restart | Fam_event _ _ | Process_fam_events => True
  | _ => respects own_step (run c)
  end.
Proof.
  destruct c as [o| |p|p|p|p|p|f|str|n d t ns|n v|n v|n v|n v|n v|n|n|n
                |v|v| |v|v|d t ns|f|k|idx|w|w|f m| ]; try exact I; simpl.
  - destruct o as [script|]; simpl; [|by apply own_step_update_this].
    apply (respects_bind _); [by apply own_step_update_this|intros _].
    apply (own_step_own_state not_close); [done|]. own.
  - intros s.
    change (own_step s
      ((do_string AtPackageDir (package_path_chunk p) ;;
        update_this (fun c => set___package_dirs (__package_dirs c ++ [p]) c) ;;
        fam_watch_dir p) s).2).
    revert s. apply (respects_bind _); [apply own_step_do_string|intros _].
    apply (respects_bind _); [|intros _]; by apply own_step_update_this.
  - intros s.
    change (own_step s
      ((do_string AtCPackageDir (package_cpath_chunk p) ;;
        update_this (fun c => set___cpackage_dirs (__cpackage_dirs c ++ [p]) c) ;;
        fam_watch_dir p) s).2).
    revert s. apply (respects_bind _); [apply own_step_do_string|intros _].
    apply (respects_bind _); [|intros _]; by apply own_step_update_this.
  - intros s. unfold add_package. rewrite bind_get.
    destruct (bool_decide _); [reflexivity|].
    change (own_step s
      ((do_string AtPackage (require_chunk p) ;;
        update_this (fun c => set___packages (__packages c ++ [p]) c)) s).2).
    revert s. apply (respects_bind _); [apply own_step_do_string|intros _].
    by apply own_step_update_this.
  - by apply own_step_update_this.
  - by apply own_step_update_this.
  - apply (own_step_own_state not_close); [done|]. own.
  - apply own_step_do_string.
  - apply (own_step_set_binding n (BUsertype d t ns)).
  - apply (own_step_set_binding n (BString v)).
  - apply (own_step_set_binding n (BBoolean v)).
  - apply (own_step_set_binding n (BNumber v)).
  - apply (own_step_set_binding n (BInteger v)).
  - apply (own_step_set_binding n (BCFunction v)).
  - intros s. rewrite remove_global_eq. by apply own_step_store.
  - apply (own_step_own_state not_close); [done|]. apply own_on_L.
  - apply (own_step_own_state not_close); [done|]. apply own_on_L.
  - apply (own_step_own_state not_close); [done|]. apply own_on_L.
  - apply (own_step_own_state not_close); [done|]. apply own_on_L.
  - apply (own_step_own_state not_close); [done|]. apply own_on_L.
  - apply (own_step_own_state not_close); [done|]. apply own_on_L.
  - apply (own_step_own_state not_close); [done|]. apply own_on_L.
  - apply (own_step_own_state not_close); [done|]. apply own_on_L.
  - apply (own_step_own_state not_close); [done|]. apply own_on_L.
  - apply (own_step_own_state not_close); [done|]. unfold pop. own.
  - apply (own_step_own_state not_close); [done|]. unfold remove. own.
  - by apply own_step_update_this.
  - by apply own_step_update_this.
Qed.

Global Instance keeps_closed_preorder : PreOrder keeps_closed.
Proof. split; unfold keeps_closed; [by intros ?|intros ???; tauto]. Qed.

Lemma keeps_closed_restart : respects keeps_closed restart.
Proof.
  intros s [Hwf Hcg]. split; [by apply wf_restart|].
  apply (closed_for_good_step s); try done. by apply restart_world_step.
Qed.

Lemma keeps_closed_process_fam_events : respects keeps_closed process_fam_events.
Proof.
  unfold process_fam_events.
  apply (respects_bind _); [apply (respects_get _)|intros [f|]];
    [|apply (respects_ret _)].
  apply (respects_bind _); [by intros s|intros pending].
  apply (respects_bind _).
  { intros s [Hwf Hcg]. split; [by apply keeps_wf_set_inotify|].
    destruct Hcg. by split. }
  intros _. apply (respects_for_each _). intros e.
  apply (respects_bind _); [apply (respects_get _)|intros [f'|]];
    [|apply (respects_ret _)].
  destruct (Fam.delivers f' e);
    [apply keeps_closed_restart|apply (respects_ret _)].
Qed.

Lemma closed_for_good_run (c : api) (s : Sys) :
  well_formed s -> closed_for_good (world s) ->
  closed_for_good (world (run c s).2).
Proof.
  intros Hwf Hcg. pose proof (own_step_run c) as Hc.
  destruct c; try (apply (closed_for_good_step s); try done;
                   apply own_step_world_step; apply Hc).
  - by apply keeps_closed_restart.
  - by apply keeps_closed_restart.
  - by apply keeps_closed_process_fam_events.
Qed.

Lemma closed_for_good_quiet (w : World) :
  Forall not_close (trace w) -> closed_for_good w.
Proof.
  intros Hq. split; [by apply no_use_after_close_quiet|].
  intros h Hh. by apply Forall_forall with (x := EvClose h) in Hq.
Qed.

Lemma reachable_closed_for_good (s : Sys) :
  reachable s -> closed_for_good (world s).
Proof.
  induction 1 as [w t E s Hnew|E S tb|s c Hs IH|s E _ IH|s e _ IH].
  - apply closed_for_good_quiet. unfold LuaContext_new in Hnew.
    apply bind_inv_ok in Hnew as (L & s1 & H1 & H). inversion H; subst s.
    apply init_state_ok in H1
      as (s_r & sevs & _ & _ & _ & _ & _ & _ & _ & Htr & Hsevs & _).
    unfold start_events in Hsevs. cbn in Hsevs. subst sevs.
    cbn [world this]. rewrite Htr. cbn. by repeat constructor.
  - by apply closed_for_good_quiet.
  - apply closed_for_good_run; [by apply reachable_well_formed|done].
  - destruct IH. by split.
  - destruct IH. by split.
Qed.

(** X22.  States are closed once, and for good.  In every system a host
    can bring about: no state was closed twice; a state that was closed is
    not open, and is not the state the context is on; and nothing happened
    in a state after it was closed: no chunk was executed in it and no
    watcher was called with it. *)
Theorem states_are_closed_for_good (s : Sys) :
  reachable s ->
  NoDup (closed_states (trace (world s)))
  /\ no_use_after_close (trace (world s))
  /\ forall h, h ∈ closed_states (trace (world s)) ->
       ~ is_open (world s) h /\ h ≠ __L (this s).
Proof.
  intros Hs. destruct (reachable_closed_for_good s Hs) as [Htr Hcl].
  split; [by apply closed_states_NoDup|]. split; [done|].
  intros h Hh%closed_states_in. apply Hcl in Hh.
  assert (~ is_open (world s) h) as Hno.
  { unfold is_open. rewrite Hh. by intros [? ?]. }
  split; [done|]. intros ->.
  apply Hno, (wf_open _ (reachable_well_formed s Hs)).
Qed.

(** ** What becomes of the new state when [init_state] throws *)

(** X23.  When [init_state] throws, one of two things happened to the
    state it made.  Either a callback [lua_init] of a registered watcher
    threw: then the last two events are that call and the closing of the
    new state, which is closed.  Or something else failed, a chunk of the
    replay or the start script: then the new state was not closed; it is
    still open, and no context is on it. *)
Theorem new_state_after_failed_init (s : Sys) (e : exn) (s1 : Sys) :
  reachable s ->
  init_state s = (Thrown e, s1) ->
  let L := next_state (world s) in
  __L (this s1) ≠ L
  /\ ((exists pre w,
         trace (world s1)
         = trace (world s) ++ pre ++ [EvInit (watcher_id w) L; EvClose L]
         /\ w ∈ __watchers (this s)
         /\ (EvClose L ∉ pre)
         /\ ~ is_open (world s1) L)
      \/ (is_open (world s1) L
          /\ EvClose L ∉ trace (world s1))).
Proof.
  intros Hs H L. pose proof (reachable_well_formed s Hs) as Hwf.
  pose proof (wf_fresh _ Hwf) as Hfresh.
  pose proof (init_state_frame _ _ _ H) as (Hthis & _).
  split. { rewrite Hthis. fold L. lia. }
  destruct (init_state_thrown _ _ _ H) as (evs & E & HL & Hcl). fold L in HL, Hcl.
  destruct Hcl as [Hq|(pre & w & -> & Hpre & Hw & Hcl)].
  - right.
    assert (EvClose L ∉ evs) as Hno.
    { intros Hin. by apply Forall_forall with (x := EvClose L) in Hq. }
    split.
    + pose proof (init_state_touches (fun _ => True) s _ s1
                    (fun _ _ _ _ => I) (fun _ _ _ => I) (fun _ => I)
                    (fun _ _ => I) H) as [_ _ _ _ _ (evs' & E' & _ & Hopen)].
      fold L in Hopen. apply Hopen.
      * unfold luaL_newstate in E'. cbn [snd world world_newstate trace] in E'.
        fold L in E'. rewrite E', <- app_assoc in E. apply app_inv_head in E.
        intros Hin. apply Hno. rewrite <- E. by right.
      * unfold luaL_newstate, is_open.
        cbn [snd world world_newstate lua_states]. fold L.
        rewrite lookup_insert_eq. by eexists.
    + rewrite E. intros Hin. apply elem_of_app in Hin as [Hin|Hin]; [|done].
      pose proof (wf_trace _ Hwf) as Ht.
      apply Forall_forall with (x := EvClose L) in Ht; [|done].
      simpl in Ht. unfold L in Ht. lia.
  - left. exists pre, w. split; [done|]. split; [done|]. split.
    + intros Hin. by apply Forall_forall with (x := EvClose L) in Hpre.
    + unfold is_open. rewrite Hcl. by intros [? ?].
Qed.

(** ** The message of a rejected name *)

Lemma assert_unique_name_message (name : string) (k k' : kind) (s : Sys) :
  unique_names (this s) ->
  recorded k' (this s) name = true ->
  k' ≠ k ->
  assert_unique_name name (type_string k) s
  = (Thrown (Exception (entry_words k' +:+ " entry already exists for name "
                        +:+ name)), s).
Proof.
  intros Hu Hrec Hk.
  assert (forall K, recorded K (this s) name = bool_decide (K = k')) as Hr.
  { intros K. destruct (decide (K = k')) as [->|HK].
    - by rewrite bool_decide_eq_true_2.
    - rewrite bool_decide_eq_false_2 by done.
      by apply (unique_names_absent _ _ k'). }
  unfold assert_unique_name. rewrite bind_get. cbv beta delta [id].
  change (has (__usertypes (this s)) name)
    with (recorded KUsertype (this s) name).
  change (has (__strings (this s)) name) with (recorded KString (this s) name).
  change (has (__booleans (this s)) name)
    with (recorded KBoolean (this s) name).
  change (has (__numbers (this s)) name) with (recorded KNumber (this s) name).
  change (has (__integers (this s)) name)
    with (recorded KInteger (this s) name).
  change (has (__cfunctions (this s)) name)
    with (recorded KCFunction (this s) name).
  rewrite !Hr. destruct k, k'; try done.
Qed.

(** X24.  The exception of a rejected name tells where the name is.  In a
    system a host can bring about, a setter whose name is recorded with
    another type throws an [Exception] whose message names that other type
    and the name, and changes nothing. *)
Theorem rejected_name_is_reported (s : Sys) (name : string) (b : binding)
    (k' : kind) :
  reachable s ->
  recorded k' (this s) name = true ->
  k' ≠ kind_of b ->
  set_binding name b s
  = (Thrown (Exception (entry_words k' +:+ " entry already exists for name "
                        +:+ name)), s).
Proof.
  intros Hs Hrec Hk. pose proof (wf_unique _ (reachable_well_formed s Hs)) as Hu.
  rewrite set_binding_eq. unfold bind at 1.
  by rewrite (assert_unique_name_message name (kind_of b) k').
Qed.

(** ** A restart starts from scratch *)

Lemma run_chunks_app (E : Env) (l1 l2 : list string) (S : lua_State) :
  run_chunks E (l1 ++ l2) S
  = match run_chunks E l1 S with
    | Some S1 => run_chunks E l2 S1
    | None => None
    end.
Proof.
  revert S. induction l1 as [|str l1 IH]; intros S; simpl; [done|].
  destruct (Lua.load_string E str); [done|].
  destruct (call E (ChunkString str) (globals S)) as [[[?|] g] results];
    [done|apply IH].
Qed.

(** A loop of [do_string] runs the chunks. *)
Lemma for_each_do_string_run {A} (at_ : site) (L : handle) (mk : A -> string)
    (l : list A) (s : Sys) :
  is_open (world s) L ->
  match run_chunks (os (world s)) (mk <$> l) (state_of (world s) L) with
  | Some St =>
      exists s',
        for_each l (fun x => do_string_on at_ L (mk x)) s = (Normal tt, s')
        /\ state_of (world s') L = St
        /\ this s' = this s
        /\ os (world s') = os (world s)
        /\ next_state (world s') = next_state (world s)
        /\ is_open (world s') L
  | None =>
      exists e s',
        for_each l (fun x => do_string_on at_ L (mk x)) s = (Thrown e, s')
  end.
Proof.
  revert s. induction l as [|x l IH]; intros s Hopen.
  - simpl. by exists s.
  - cbn [fmap list_fmap run_chunks for_each].
    pose proof (do_string_on_eq at_ L (mk x) s Hopen) as Hdo. cbv zeta in Hdo.
    destruct (Lua.load_string (os (world s)) (mk x)) as [[f msg]|].
    { eexists _, _. apply bind_thrown. exact Hdo. }
    destruct (call (os (world s)) (ChunkString (mk x))
                (globals (state_of (world s) L)))
      as [[[[f msg]|] g] results].
    { eexists _, _. apply bind_thrown. exact Hdo. }
    rewrite (bind_ok _ _ _ _ _ Hdo).
    match goal with |- context [for_each l _ ?s1] =>
      specialize (IH s1); cbn [this world log_event os next_state] in IH
    end.
    rewrite state_of_log, state_of_store in IH by done.
    change (os (store_state L _ (world s))) with (os (world s)) in IH.
    change (next_state (store_state L _ (world s)))
      with (next_state (world s)) in IH.
    apply IH. unfold is_open. cbn [lua_states log_event].
    by apply is_open_store.
Qed.

(** The last part of [init_state] before the callbacks: the recorded
    globals are set. *)
Lemma set_recorded_globals (L : handle) (s : Sys) :
  is_open (world s) L ->
  (usertypes <- get __usertypes ;;
   for_each (map_to_list usertypes) (fun '(name, (data, type_n)) =>
     lua L (tolua_pushusertype data type_n) ;; lua L (lua_setglobal name)) ;;
   strings <- get __strings ;;
   for_each (map_to_list strings) (fun '(name, v) =>
     lua L (lua_pushstring v) ;; lua L (lua_setglobal name)) ;;
   booleans <- get __booleans ;;
   for_each (map_to_list booleans) (fun '(name, v) =>
     lua L (lua_pushboolean (if v : bool then 1 else 0)) ;;
     lua L (lua_setglobal name)) ;;
   numbers <- get __numbers ;;
   for_each (map_to_list numbers) (fun '(name, v) =>
     lua L (lua_pushnumber v) ;; lua L (lua_setglobal name)) ;;
   integers <- get __integers ;;
   for_each (map_to_list integers) (fun '(name, v) =>
     lua L (lua_pushinteger v) ;; lua L (lua_setglobal name)) ;;
   cfunctions <- get __cfunctions ;;
   for_each (map_to_list cfunctions) (fun '(name, v) =>
     lua L (lua_pushcfunction v) ;; lua L (lua_setglobal name)) ;;
   ret L) s
  = (Normal L,
     mkSys (this s)
       (store_state L (replay_maps (this s) (state_of (world s) L)) (world s))).
Proof.
  intros Hopen.
  rewrite bind_get. unfold bind at 1.
  rewrite (for_each_set_globals L _ _
             (fun x => (x.1, usertype_value x.2.1 x.2.2)));
    [|by intros [n [d t]] ?|done].
  rewrite bind_get. unfold bind at 1. cbn [this world].
  rewrite (for_each_set_globals L _ _ (fun x => (x.1, VString x.2)));
    [|by intros [n v] ?|by (cbn [world]; rewrite !is_open_store)].
  rewrite bind_get. unfold bind at 1. cbn [this world].
  rewrite (for_each_set_globals L _ _ (fun x => (x.1, VBoolean x.2)));
    [|by intros [n []] ?|by (cbn [world]; rewrite !is_open_store)].
  rewrite bind_get. unfold bind at 1. cbn [this world].
  rewrite (for_each_set_globals L _ _ (fun x => (x.1, VNumber x.2)));
    [|by intros [n v] ?|by (cbn [world]; rewrite !is_open_store)].
  rewrite bind_get. unfold bind at 1. cbn [this world].
  rewrite (for_each_set_globals L _ _ (fun x => (x.1, VInteger x.2)));
    [|by intros [n v] ?|by (cbn [world]; rewrite !is_open_store)].
  rewrite bind_get. unfold bind at 1. cbn [this world].
  rewrite (for_each_set_globals L _ _ (fun x => (x.1, VCFunction x.2)));
    [|by intros [n v] ?|by (cbn [world]; rewrite !is_open_store)].
  unfold ret. cbn [this world].
  rewrite !state_of_store by (by rewrite ?is_open_store).
  by rewrite !store_store.
Qed.

(** What [init_state] builds before it calls the watchers. *)
Lemma init_replay_run (s : Sys) :
  let L := next_state (world s) in
  match run_chunks (os (world s)) (replay_chunks (this s))
          (fresh_state (__enable_tracebacks (this s))) with
  | Some S_p =>
      exists s_r,
        init_replay s = (Normal L, s_r)
        /\ state_of (world s_r) L = replay_maps (this s) S_p
  | None => exists e s_r, init_replay s = (Thrown e, s_r)
  end.
Proof.
  intros L.
  set (w0 := mkWorld (<[L := empty_state]> (lua_states (world s))) (S L)
               (os (world s)) (inotify (world s))
               (trace (world s) ++ [EvNewState L])).
  assert (is_open w0 L) as Hopen0.
  { unfold is_open, w0. cbn [lua_states]. rewrite lookup_insert_eq. by eexists. }
  assert (state_of w0 L = empty_state) as Hempty.
  { unfold state_of, w0. cbn [lua_states]. by rewrite lookup_insert_eq. }
  set (tb := __enable_tracebacks (this s)).
  set (s2 := mkSys (this s) (store_state L (fresh_state tb) w0)).
  assert (forall k : M handle,
            (when tb
               (lua L (lua_getglobal "debug") ;;
                lua L (lua_getfield (-1) "traceback") ;;
                lua L (lua_remove (-2))) ;; k)
              (mkSys (this s) (store_state L (luaL_openlibs empty_state) w0))
            = k s2) as Htb.
  { intros k. unfold bind at 1. destruct tb; cbn [when].
    - unfold bind at 1. unfold lua at 1, update_world at 1. cbn [this world].
      rewrite state_of_store by done.
      unfold bind at 1. unfold lua at 1, update_world at 1. cbn [this world].
      rewrite state_of_store by (by apply is_open_store).
      unfold lua at 1, update_world at 1. cbn [this world].
      rewrite state_of_store by (by rewrite !is_open_store).
      by rewrite !store_store.
    - unfold ret. unfold s2. f_equal. }
  eassert (init_replay s = _) as Heq.
  { unfold init_replay.
    unfold bind at 1. unfold luaL_newstate at 1.
    cbn [world_newstate]. fold L. fold w0.
    unfold bind at 1. unfold lua at 1, update_world at 1. cbn [this world].
    rewrite Hempty. rewrite bind_get. cbn [this]. fold tb.
    rewrite Htb. rewrite bind_get. reflexivity. }
  rewrite Heq. clear Heq Htb.
  assert (is_open (world s2) L) as Hopen2 by (by apply is_open_store).
  assert (state_of (world s2) L = fresh_state tb) as Hs2
    by (by apply state_of_store).
  unfold replay_chunks. fold tb.
  rewrite !run_chunks_app. rewrite <- Hs2.
  change (os (world s)) with (os (world s2)).
  change (this s) with (this s2).
  clearbody s2. clear Hs2.
  (* the package directories *)
  pose proof (for_each_do_string_run AtPackageDir L package_path_chunk
                (__package_dirs (this s2)) s2 Hopen2) as Hloop.
  destruct (run_chunks (os (world s2))
              (package_path_chunk <$> __package_dirs (this s2))
              (state_of (world s2) L)) as [S1|];
    [|destruct Hloop as (e & s' & Hrun); exists e, s'; by apply bind_thrown].
  destruct Hloop as (s3 & Hrun & <- & Hthis3 & Hos3 & _ & Hopen3).
  rewrite (bind_ok _ _ _ _ _ Hrun), bind_get. clear Hrun.
  rewrite <- Hthis3, <- Hos3. clear dependent s2.
  (* the C package directories *)
  rewrite run_chunks_app.
  pose proof (for_each_do_string_run AtCPackageDir L package_cpath_chunk
                (__cpackage_dirs (this s3)) s3 Hopen3) as Hloop.
  destruct (run_chunks (os (world s3))
              (package_cpath_chunk <$> __cpackage_dirs (this s3))
              (state_of (world s3) L)) as [S1|];
    [|destruct Hloop as (e & s' & Hrun); exists e, s'; by apply bind_thrown].
  destruct Hloop as (s4 & Hrun & <- & Hthis4 & Hos4 & _ & Hopen4).
  rewrite (bind_ok _ _ _ _ _ Hrun), bind_get. clear Hrun.
  rewrite <- Hthis4, <- Hos4. clear dependent s3.
  (* the packages *)
  pose proof (for_each_do_string_run AtPackage L require_chunk
                (__packages (this s4)) s4 Hopen4) as Hloop.
  destruct (run_chunks (os (world s4)) (require_chunk <$> __packages (this s4))
              (state_of (world s4) L)) as [S1|];
    [|destruct Hloop as (e & s' & Hrun); exists e, s'; by apply bind_thrown].
  destruct Hloop as (s5 & Hrun & <- & Hthis5 & Hos5 & _ & Hopen5).
  rewrite (bind_ok _ _ _ _ _ Hrun). clear Hrun.
  rewrite <- Hthis5. clear dependent s4.
  (* the recorded globals *)
  rewrite set_recorded_globals by done.
  eexists. split; [done|]. cbn [world]. by rewrite state_of_store.
Qed.

(** X25.  A restart starts from scratch.  The state [init_state] builds
    before it calls the watchers is the one the context and the interpreter
    determine: the fresh state with the standard library and, when enabled,
    the traceback function; then the chunks of the recorded directories and
    packages, in order; then the recorded globals.  [init_state] gets that
    far exactly when all these chunks compile and return.  Nothing of the
    state the context is on, and nothing else of the world, goes into the
    new state. *)
Theorem restart_starts_from_scratch (s : Sys) :
  let L := next_state (world s) in
  match replayed_state (this s) (os (world s)) with
  | Some St =>
      exists s_r,
        init_replay s = (Normal L, s_r) /\ state_of (world s_r) L = St
  | None => exists e s_r, init_replay s = (Thrown e, s_r)
  end.
Proof.
  intros L. unfold replayed_state. pose proof (init_replay_run s) as H.
  cbv zeta in H. fold L in H.
  by destruct (run_chunks (os (world s)) (replay_chunks (this s))
                 (fresh_state (__enable_tracebacks (this s)))).
Qed.

Lemma global_fresh_state (tb : bool) (name : string) :
  name ∉ stdlib_names -> global (fresh_state tb) name = VNil.
Proof.
  intros Hname. unfold global, fresh_state, luaL_openlibs. cbn [globals set_globals].
  cbn [empty_state globals].
  assert (forall l : list string, name ∉ l ->
            foldr (fun n g => <[n := VLib n]> g) (∅ : gmap string value) l
              !! name = None) as Hl.
  { induction l as [|n l IH]; intros Hn; [done|]. simpl.
    apply not_elem_of_cons in Hn as [Hne Hn].
    rewrite lookup_insert_ne by done. by apply IH. }
  by rewrite Hl.
Qed.

Lemma global_replay_maps_unrecorded (c : LuaContext) (St : lua_State)
    (name : string) :
  (forall k, recorded k c name = false) ->
  global (replay_maps c St) name = global St name.
Proof.
  intros Hrec. unfold replay_maps, cfunction_entries, integer_entries,
    number_entries, boolean_entries, string_entries, usertype_entries.
  rewrite !global_replay_entries_notin; try done.
  - by apply has_false, (Hrec KUsertype).
  - by apply has_false, (Hrec KString).
  - by apply has_false, (Hrec KBoolean).
  - by apply has_false, (Hrec KNumber).
  - by apply has_false, (Hrec KInteger).
  - by apply has_false, (Hrec KCFunction).
Qed.

(** X26.  A global that is not recorded is lost in a restart.  When the
    context has no package directories and no packages, the new state has
    no global but those of the standard library and the recorded ones: a
    name that is neither is nil there when [init_state] calls the watchers,
    whatever the global is in the state the context is on, be it set with
    [set_global] or by a script. *)
Theorem unrecorded_global_is_lost (s : Sys) (name : string) :
  replay_chunks (this s) = [] ->
  name ∉ stdlib_names ->
  (forall k, recorded k (this s) name = false) ->
  exists s_r,
    init_replay s = (Normal (next_state (world s)), s_r)
    /\ global (state_of (world s_r) (next_state (world s))) name = VNil.
Proof.
  intros Hchunks Hname Hrec. pose proof (init_replay_run s) as H.
  cbv zeta in H. rewrite Hchunks in H. cbn [run_chunks] in H.
  destruct H as (s_r & H & Hst). exists s_r. split; [done|].
  rewrite Hst, global_replay_maps_unrecorded by done.
  by apply global_fresh_state.
Qed.

(** ** The traceback function in the new state *)

Lemma run_chunks_stack (E : Env) (strs : list string) (St St' : lua_State) :
  run_chunks E strs St = Some St' ->
  exists results, stack St' = stack St ++ results.
Proof.
  revert St. induction strs as [|str strs IH]; intros St H; simpl in H.
  - inversion H; subst. exists []. by rewrite app_nil_r.
  - destruct (Lua.load_string E str); [discriminate|].
    destruct (call E (ChunkString str) (globals St)) as [[[?|] g] results];
      [discriminate|].
    apply IH in H as (results' & H). cbn [stack] in H.
    exists (results ++ results'). by rewrite H, <- app_assoc.
Qed.

Lemma stack_replay_maps (c : LuaContext) (St : lua_State) :
  stack (replay_maps c St) = stack St.
Proof. unfold replay_maps. by rewrite !stack_replay_list. Qed.

(** X27.  The traceback function is at the bottom of the stack of a new
    state.  With tracebacks enabled, when [init_state] has replayed the
    directories, the packages and the globals and comes to the watchers,
    stack index 1 of the new state is [debug.traceback], which is the index
    [do_string], [do_file] and [pcall] give [lua_pcall] as the error
    function; what the replayed chunks returned lies above it.  With
    tracebacks disabled only what the chunks returned is on the stack. *)
Theorem traceback_function_in_the_new_state (s : Sys) (L : handle)
    (s_r : Sys) :
  init_replay s = (Normal L, s_r) ->
  exists results,
    stack (state_of (world s_r) L)
    = (if __enable_tracebacks (this s) then [VLib "debug.traceback"] else [])
        ++ results
    /\ (__enable_tracebacks (this s) = true ->
        index (state_of (world s_r) L) 1 = VLib "debug.traceback").
Proof.
  intros H. pose proof (init_replay_run s) as Hrun. cbv zeta in Hrun.
  destruct (run_chunks (os (world s)) (replay_chunks (this s))
              (fresh_state (__enable_tracebacks (this s)))) as [S_p|] eqn:Hch.
  - destruct Hrun as (s_r' & Hrun & Hst).
    assert (L = next_state (world s) /\ s_r = s_r') as [-> ->].
    { rewrite H in Hrun. by inversion Hrun. }
    apply run_chunks_stack in Hch as (results & Hstack).
    exists results. rewrite Hst, stack_replay_maps, Hstack.
    split; [done|]. intros Htb. rewrite index_1, stack_replay_maps, Hstack.
    by rewrite Htb.
  - destruct Hrun as (e & s_r' & Hrun). rewrite H in Hrun. discriminate.
Qed.

(** ** What a setter leaves alone *)


(** * The properties at work *)

Lemma example_bound_reachable : reachable example_bound.
Proof. apply run_all_reachable, example_new_reachable. Qed.

Lemma example_watched_reachable : reachable example_watched.
Proof. apply run_all_reachable, example_new_reachable. Qed.

Lemma example_broken_reachable : reachable example_broken.
Proof.
  apply (reachable_os (run (Add_package "foo") example_new).2).
  apply reachable_call, example_new_reachable.
Qed.

Lemma example_new_open : is_open (world example_new) (__L (this example_new)).
Proof. apply (wf_open _ (reachable_well_formed _ example_new_reachable)). Qed.

Lemma recorded_names_stay_unique_witness :
  reachable example_bound /\ unique_names (this example_bound).
Proof.
  split; [apply example_bound_reachable|].
  apply recorded_names_stay_unique, example_bound_reachable.
Defined.

Lemma current_state_is_open_witness :
  reachable example_bound
  /\ get_lua_state example_bound = (Normal 0%nat, example_bound)
  /\ is_open (world example_bound) 0%nat.
Proof.
  split; [apply example_bound_reachable|].
  destruct (current_state_is_open example_bound example_bound_reachable)
    as (H1 & H2 & _).
  split; [exact H1|exact H2].
Defined.

Lemma example_bound_open :
  is_open (world example_bound) (__L (this example_bound)).
Proof. apply (wf_open _ (reachable_well_formed _ example_bound_reachable)). Qed.


Lemma remove_global_forgets_witness :
  is_open (world example_bound) (__L (this example_bound))
  /\ exists s',
       remove_global "robot" example_bound = (Normal tt, s')
       /\ global (state_of (world s') (__L (this s'))) "robot" = VNil
       /\ recorded KString (this s') "robot" = false.
Proof.
  split; [exact example_bound_open|].
  destruct (remove_global_forgets example_bound "robot" example_bound_open)
    as (s' & H & _ & Hrec & _ & Hg & _).
  exists s'. split; [exact H|]. split; [exact Hg|exact (Hrec KString)].
Defined.


Lemma do_string_success_keeps_results_witness :
  is_open (world example_new) (__L (this example_new))
  /\ do_string AtHost "x = 1" example_new
     = (Normal tt, (do_string AtHost "x = 1" example_new).2)
  /\ trace (world (do_string AtHost "x = 1" example_new).2)
     = trace (world example_new)
         ++ [EvDoString AtHost (__L (this example_new)) "x = 1" 0].
Proof.
  assert (do_string AtHost "x = 1" example_new
          = (Normal tt, (do_string AtHost "x = 1" example_new).2))
    as Hok by (apply pair_eta; vm_compute; reflexivity).
  split; [exact example_new_open|]. split; [exact Hok|].
  exact (proj1 (proj2 (do_string_success_keeps_results AtHost _ _ _
                         example_new_open Hok))).
Defined.

Lemma example_no_file_open :
  is_open (world example_no_file) (__L (this example_no_file)).
Proof. exact example_new_open. Qed.

Lemma do_file_that_does_not_load_witness :
  is_open (world example_no_file) (__L (this example_no_file))
  /\ load_file (os (world example_no_file)) "init.lua"
     = Some (ERRFILE, "cannot open file"%string)
  /\ exists s',
       do_file "init.lua" example_no_file
       = (Thrown (Exception "Could not open file file init.lua: cannot open file"),
          s')
       /\ lua_states (world s') = lua_states (world example_no_file).
Proof.
  split; [exact example_no_file_open|]. split; [reflexivity|].
  destruct (do_file_that_does_not_load example_no_file "init.lua" ERRFILE
              "cannot open file" example_no_file_open eq_refl
              (or_intror (or_intror eq_refl)))
    as (s' & H & _ & Hst & _).
  exists s'. split; [exact H|exact Hst].
Defined.


Lemma load_string_compiles_only_witness :
  is_open (world example_new) (__L (this example_new))
  /\ load_string "return 1" example_new
     = (Normal tt,
        mkSys (this example_new)
          (store_state (__L (this example_new))
             (push (VFunction (ChunkString "return 1"))
                (state_of (world example_new) (__L (this example_new))))
             (world example_new))).
Proof.
  split; [exact example_new_open|].
  exact (proj1 (load_string_compiles_only example_new "return 1"
                  example_new_open) eq_refl).
Defined.


Lemma clearing_the_start_script_witness :
  init_state (set_start_script None example_watched).2
  = (Normal 1%nat, (init_state (set_start_script None example_watched).2).2)
  /\ trace (world (init_state (set_start_script None example_watched).2).2)
     = trace (world example_watched)
         ++ replay_trace (this example_watched) 1%nat
         ++ init_events (__watchers (this example_watched)) 1%nat.
Proof.
  assert (init_state (set_start_script None example_watched).2
          = (Normal 1%nat,
             (init_state (set_start_script None example_watched).2).2))
    as Hok by (apply pair_eta; vm_compute; reflexivity).
  split; [exact Hok|].
  exact (proj2 (clearing_the_start_script example_watched) _ _ Hok).
Defined.


Lemma pop_of_a_negative_count_witness :
  -1 < 0
  /\ is_open (world example_new) (__L (this example_new))
  /\ stack (state_of (world example_new) (__L (this example_new)))
     = [VLib "debug.traceback"]
  /\ exists s',
       pop (-1) example_new = (Normal tt, s')
       /\ stack (state_of (world s') (__L (this example_new))) = [].
Proof.
  split; [lia|]. split; [exact example_new_open|]. split; [reflexivity|].
  destruct (pop_of_a_negative_count example_new (-1) eq_refl example_new_open)
    as (s' & H & _ & _ & _ & Hempty).
  exists s'. split; [exact H|exact (Hempty eq_refl)].
Defined.

Lemma push_then_pop_witness :
  is_open (world example_new) (__L (this example_new))
  /\ 1 <= lua_gettop (state_of (world example_new) (__L (this example_new)))
  /\ (run (Push_string "fawkes") ;; pop 1) example_new
     = (Normal tt, example_new)
  /\ (push_value 1 ;; pop 1) example_new = (Normal tt, example_new).
Proof.
  assert (1 <= lua_gettop (state_of (world example_new)
                             (__L (this example_new)))) as Hsize
    by (vm_compute; discriminate).
  split; [exact example_new_open|]. split; [exact Hsize|].
  destruct (push_then_pop example_new example_new_open (or_intror Hsize))
    as [Hpush Hvalue].
  split.
  - exact (proj2 (Hpush (Push_string "fawkes") (VString "fawkes") eq_refl)).
  - exact (proj2 (Hvalue 1)).
Defined.

Lemma global_reads_back_witness :
  reachable example_new
  /\ set_binding "flag" (BBoolean true) example_new
     = (Normal tt, (set_binding "flag" (BBoolean true) example_new).2)
  /\ exists s2,
       get_global "flag" (set_binding "flag" (BBoolean true) example_new).2
       = (Normal tt, s2)
       /\ to_boolean (-1) s2 = (Normal true, s2)
       /\ is_nil (-1) s2 = (Normal false, s2).
Proof.
  assert (set_binding "flag" (BBoolean true) example_new
          = (Normal tt, (set_binding "flag" (BBoolean true) example_new).2))
    as Hok by (apply pair_eta; vm_compute; reflexivity).
  split; [exact example_new_reachable|]. split; [exact Hok|].
  destruct (global_reads_back _ _ _ _ example_new_reachable Hok)
    as (s2 & H & _ & _ & _ & Hnil & Hbool).
  exists s2. split; [exact H|].
  split; [exact (proj1 (Hbool true eq_refl))|exact Hnil].
Defined.

Lemma set_global_does_not_record_witness :
  recorded_elsewhere KString (this example_new) "robot" = false
  /\ exists s1 s2,
       set_binding "robot" (BString "fawkes") example_new = (Normal tt, s1)
       /\ (push_string "fawkes" ;; set_global "robot") example_new
          = (Normal tt, s2)
       /\ world s2 = world s1
       /\ this s2 = this example_new.
Proof.
  split; [reflexivity|].
  destruct (set_global_does_not_record example_new "robot" (BString "fawkes")
              eq_refl) as (s1 & s2 & H1 & H2 & Hw & Ht & _).
  exists s1, s2. split; [exact H1|]. split; [exact H2|].
  split; [exact Hw|exact Ht].
Defined.


Lemma removed_watcher_is_not_called_witness :
  __watchers (this (remove_watcher throwing_watcher example_watched).2) = []
  /\ exists evs,
       trace (world (restart
                       (remove_watcher throwing_watcher example_watched).2).2)
       = trace (world (remove_watcher throwing_watcher example_watched).2)
           ++ evs
       /\ Forall (not_calling 7) evs.
Proof.
  split; [reflexivity|].
  exact (proj1 (proj2 (proj2 (removed_watcher_is_not_called example_watched
                                throwing_watcher)))).
Defined.

Lemma no_monitor_no_reload_witness :
  __fam (this example_unwatched) = None
  /\ process_fam_events example_unwatched = (Normal tt, example_unwatched)
  /\ add_watchdir "/opt/lua" example_unwatched = (Normal tt, example_unwatched).
Proof.
  assert (__fam (this example_unwatched) = None) as Hfam.
  { apply (proj1 no_monitor_no_reload true (initial_world quiet_env)).
    apply pair_eta. vm_compute. reflexivity. }
  split; [exact Hfam|].
  destruct (proj2 (proj2 (proj2 no_monitor_no_reload)) example_unwatched
              "/opt/lua" Hfam) as (H1 & H2 & _).
  split; [exact H1|exact H2].
Defined.

Lemma example_restarted_reachable : reachable example_restarted.
Proof. apply run_all_reachable, example_watched_reachable. Qed.

Lemma states_are_closed_for_good_witness :
  reachable example_restarted
  /\ closed_states (trace (world example_restarted)) = [0%nat]
  /\ NoDup (closed_states (trace (world example_restarted)))
  /\ ~ is_open (world example_restarted) 0%nat.
Proof.
  split; [exact example_restarted_reachable|].
  assert (closed_states (trace (world example_restarted)) = [0%nat]) as Hcl
    by (vm_compute; reflexivity).
  split; [exact Hcl|].
  destruct (states_are_closed_for_good _ example_restarted_reachable)
    as (Hnd & _ & Hclosed).
  split; [exact Hnd|]. apply (Hclosed 0%nat). rewrite Hcl. by left.
Defined.

Lemma new_state_after_failed_init_witness :
  reachable example_broken
  /\ init_state example_broken
     = (Thrown (LuaRuntimeException "do_string" "module not found"),
        (init_state example_broken).2)
  /\ __L (this (init_state example_broken).2) ≠ next_state (world example_broken).
Proof.
  assert (init_state example_broken
          = (Thrown (LuaRuntimeException "do_string" "module not found"),
             (init_state example_broken).2))
    as Hthrown by (apply pair_eta; vm_compute; reflexivity).
  split; [exact example_broken_reachable|]. split; [exact Hthrown|].
  exact (proj1 (new_state_after_failed_init _ _ _ example_broken_reachable
                  Hthrown)).
Defined.

Lemma rejected_name_is_reported_witness :
  reachable example_bound
  /\ recorded KString (this example_bound) "robot" = true
  /\ KString ≠ kind_of (BInteger 7)
  /\ set_binding "robot" (BInteger 7) example_bound
     = (Thrown (Exception "String entry already exists for name robot"),
        example_bound).
Proof.
  assert (recorded KString (this example_bound) "robot" = true) as Hrec
    by (vm_compute; reflexivity).
  assert (KString ≠ kind_of (BInteger 7)) as Hk by discriminate.
  split; [exact example_bound_reachable|]. split; [exact Hrec|].
  split; [exact Hk|].
  exact (rejected_name_is_reported _ _ _ _ example_bound_reachable Hrec Hk).
Defined.

Lemma unrecorded_global_is_lost_witness :
  replay_chunks (this example_unrecorded) = []
  /\ ("robot"%string ∉ stdlib_names)
  /\ (forall k, recorded k (this example_unrecorded) "robot" = false)
  /\ global (state_of (world example_unrecorded)
               (__L (this example_unrecorded))) "robot" = VString "fawkes"
  /\ exists s_r,
       init_replay example_unrecorded = (Normal 1%nat, s_r)
       /\ global (state_of (world s_r) 1%nat) "robot" = VNil.
Proof.
  assert ("robot"%string ∉ stdlib_names) as Hname
    by (apply (bool_decide_unpack _); vm_compute; exact I).
  assert (forall k, recorded k (this example_unrecorded) "robot" = false)
    as Hrec by (intros []; vm_compute; reflexivity).
  split; [reflexivity|]. split; [exact Hname|]. split; [exact Hrec|].
  split; [vm_compute; reflexivity|].
  exact (unrecorded_global_is_lost example_unrecorded "robot" eq_refl Hname
           Hrec).
Defined.

Lemma traceback_function_in_the_new_state_witness :
  init_replay example_bound = (Normal 1%nat, (init_replay example_bound).2)
  /\ __enable_tracebacks (this example_bound) = true
  /\ index (state_of (world (init_replay example_bound).2) 1%nat) 1
     = VLib "debug.traceback".
Proof.
  assert (init_replay example_bound
          = (Normal 1%nat, (init_replay example_bound).2))
    as Hok by (apply pair_eta; vm_compute; reflexivity).
  split; [exact Hok|]. split; [reflexivity|].
  destruct (traceback_function_in_the_new_state _ _ _ Hok)
    as (results & _ & Hindex).
  exact (Hindex eq_refl).
Defined.

